(** * CRMint pipeline execution core: a shallow embedding of
      [backends/core/models.py]

    The models of [Pipeline], [Job], [Param] and [StartCondition] are
    embedded as functions over an explicit world: the SQLAlchemy session
    (tables as lists of rows in query order), the memcache dictionary, the
    task queue, the mailer and the structured log.  Python methods become
    computations in a small state-and-exception monad; the recursion
    [Job.start -> Job._start_dependent_jobs -> Job.start] is driven by a
    fuel argument. *)

From Stdlib Require Import Ascii String.
From stdpp Require Import gmap strings list fin_maps pretty sorting.

Open Scope string_scope.
Open Scope list_scope.
Open Scope Z_scope.

(** ** Python exceptions that the embedded code can raise *)

Inductive exn :=
  | TypeError
  | ValueError
  | AttributeError
  | UnboundLocalError
  | InvalidExpression
  | RecursionLimit.

#[global] Instance exn_eq_dec : EqDecision exn.
Proof. solve_decision. Defined.

(** ** Values stored in memcache

    The code stores integers (counters), strings (job statuses) and lists of
    task names.  A missing key reads as Python's [None], which is the [None]
    of [option cval]. *)

Inductive cval :=
  | CInt (z : Z)
  | CStr (s : string)
  | CList (l : list string).

#[global] Instance cval_eq_dec : EqDecision cval.
Proof. solve_decision. Defined.

(** Python truthiness, as used by [if cached_value:] and [if db_value]. *)
Definition truthy (v : option cval) : bool :=
  match v with
  | None => false
  | Some (CInt z) => negb (z =? 0)%Z
  | Some (CStr s) => negb (String.eqb s "")
  | Some (CList l) => match l with [] => false | _ => true end
  end.

Definition truthy_int (v : option Z) : bool :=
  match v with
  | None => false
  | Some z => negb (z =? 0)%Z
  end.

(** [str(x)] for the nullable integer and string columns. *)
Definition py_str_int (x : option Z) : string :=
  match x with
  | None => "None"
  | Some z => pretty z
  end.

Definition py_str (x : option string) : string :=
  match x with
  | None => "None"
  | Some s => s
  end.

(** ** Module constants *)

Definition CACHE_KEY_ENQUEUED_TASKS : string := "enqueued_tasks".
Definition CACHE_KEY_STATUS : string := "status".
Definition CACHE_KEY_LIST_OF_TASKS_ENQUEUED : string := "list_of_tasks_enqueued".
Definition CACHE_KEY_FAILED_JOBS : string := "failed_jobs".
Definition CACHE_KEY_REMAINING_JOBS : string := "remaining_jobs".

(** ** Parameter values ([Param.val]) *)

(** A number as produced by [_parse_num]: an [int], or a [float] kept as the
    text that [float()] accepted (no rounding is modelled). *)
Inductive num :=
  | NInt (z : Z)
  | NFloat (lit : string).

Inductive pval :=
  | VBool (b : bool)
  | VNum (n : num)
  | VStr (s : string)
  | VStrList (l : list string)
  | VNumList (l : list num).

#[global] Instance num_eq_dec : EqDecision num.
Proof. solve_decision. Defined.

#[global] Instance pval_eq_dec : EqDecision pval.
Proof. solve_decision. Defined.

(** ** Rows of the persisted tables *)

Record Pipeline := mkPipeline {
  pipeline_id_ : Z;
  pipeline_name : option string;
  pipeline_emails_for_notifications : option string;
  pipeline_status : string;
  pipeline_status_changed_at : option Z;
  pipeline_run_on_schedule : bool
}.

Record Job := mkJob {
  job_id_ : Z;
  job_name : option string;
  job_status : string;
  job_status_changed_at : option Z;
  job_worker_class : option string;
  job_pipeline_id : option Z;
  job_enqueued_workers_count : Z
}.

Record StartCondition := mkStartCondition {
  sc_id : Z;
  sc_job_id : Z;
  sc_preceding_job_id : Z;
  sc_condition : string
}.

Record Param := mkParam {
  param_id : Z;
  param_name : string;
  param_type : string;
  param_pipeline_id : option Z;
  param_job_id : option Z;
  param_label : option string;
  param_value : string
}.

(** A task handed to [taskqueue.add].  [task_worker_params] is the dictionary
    given to [json.dumps]; the JSON text itself is not modelled. *)
Record Task := mkTask {
  task_target : string;
  task_name_ : string;
  task_url : string;
  task_job_id : Z;
  task_worker_class : option string;
  task_worker_params : list (string * pval);
  task_task_name : string;
  task_countdown : Z
}.

Record LogEntry := mkLogEntry {
  log_pipeline_id : option Z;
  log_job_id : Z;
  log_worker_class : option string;
  log_level : string;
  log_bad_param : option string;
  log_cause : exn
}.

(** ** The world *)

Record World := mkWorld {
  pipelines : list Pipeline;
  jobs : list Job;
  start_conditions : list StartCondition;
  params : list Param;
  cache : gmap string cval;
  taskqueue : list Task;
  mails : list Pipeline;
  logs : list LogEntry;
  (** [datetime.now()] and [uuid.uuid4()] are read from the environment:
      the n-th reading of each is given by an oracle. *)
  clock : nat -> Z;
  ticks : nat;
  uuid_source : nat -> string;
  uuid_drawn : nat;
  (** [str(simple_eval(expr, functions=inline.functions, names=names))]:
      the expression evaluator of the [simpleeval] library together with the
      host functions of [core.inline], answering the exception it raises or
      the text of its result. *)
  simple_eval_str : string -> gmap string pval -> exn + string
}.

Definition set_pipelines (f : list Pipeline -> list Pipeline) (w : World) : World :=
  mkWorld (f (pipelines w)) (jobs w) (start_conditions w) (params w) (cache w)
          (taskqueue w) (mails w) (logs w) (clock w) (ticks w)
          (uuid_source w) (uuid_drawn w) (simple_eval_str w).

Definition set_jobs (f : list Job -> list Job) (w : World) : World :=
  mkWorld (pipelines w) (f (jobs w)) (start_conditions w) (params w) (cache w)
          (taskqueue w) (mails w) (logs w) (clock w) (ticks w)
          (uuid_source w) (uuid_drawn w) (simple_eval_str w).

Definition set_cache_map (f : gmap string cval -> gmap string cval) (w : World) : World :=
  mkWorld (pipelines w) (jobs w) (start_conditions w) (params w) (f (cache w))
          (taskqueue w) (mails w) (logs w) (clock w) (ticks w)
          (uuid_source w) (uuid_drawn w) (simple_eval_str w).

Definition set_taskqueue (f : list Task -> list Task) (w : World) : World :=
  mkWorld (pipelines w) (jobs w) (start_conditions w) (params w) (cache w)
          (f (taskqueue w)) (mails w) (logs w) (clock w) (ticks w)
          (uuid_source w) (uuid_drawn w) (simple_eval_str w).

Definition set_mails (f : list Pipeline -> list Pipeline) (w : World) : World :=
  mkWorld (pipelines w) (jobs w) (start_conditions w) (params w) (cache w)
          (taskqueue w) (f (mails w)) (logs w) (clock w) (ticks w)
          (uuid_source w) (uuid_drawn w) (simple_eval_str w).

Definition set_logs (f : list LogEntry -> list LogEntry) (w : World) : World :=
  mkWorld (pipelines w) (jobs w) (start_conditions w) (params w) (cache w)
          (taskqueue w) (mails w) (f (logs w)) (clock w) (ticks w)
          (uuid_source w) (uuid_drawn w) (simple_eval_str w).

Definition set_ticks (f : nat -> nat) (w : World) : World :=
  mkWorld (pipelines w) (jobs w) (start_conditions w) (params w) (cache w)
          (taskqueue w) (mails w) (logs w) (clock w) (f (ticks w))
          (uuid_source w) (uuid_drawn w) (simple_eval_str w).

Definition set_uuid_drawn (f : nat -> nat) (w : World) : World :=
  mkWorld (pipelines w) (jobs w) (start_conditions w) (params w) (cache w)
          (taskqueue w) (mails w) (logs w) (clock w) (ticks w)
          (uuid_source w) (f (uuid_drawn w)) (simple_eval_str w).

(** ** The monad of handlers: state, exceptions, fuel *)

Inductive outcome (A : Type) :=
  | Ret (a : A) (w : World)
  | Raise (e : exn) (w : World)
  | Timeout.

Arguments Ret {A} a w.
Arguments Raise {A} e w.
Arguments Timeout {A}.

Definition M (A : Type) : Type := World -> outcome A.

Definition ret {A} (a : A) : M A := fun w => Ret a w.

Definition bind {A B} (m : M A) (k : A -> M B) : M B :=
  fun w =>
    match m w with
    | Ret a w' => k a w'
    | Raise e w' => Raise e w'
    | Timeout => Timeout
    end.

Definition raise {A} (e : exn) : M A := fun w => Raise e w.
Definition timeout {A} : M A := fun _ => Timeout.
Definition gets {A} (f : World -> A) : M A := fun w => Ret (f w) w.
Definition modify (f : World -> World) : M unit := fun w => Ret tt (f w).

Declare Scope py_scope.
Delimit Scope py_scope with py.
Notation "x <- m ;; k" := (bind m (fun x => k))
  (at level 100, m at next level, right associativity) : py_scope.
Notation "m ;;; k" := (bind m (fun _ => k))
  (at level 100, right associativity) : py_scope.
Open Scope py_scope.

(** [for x in xs: body], where [body] answers [Some r] for [return r] and
    [None] to go on with the next element. *)
Fixpoint for_return {A R} (xs : list A) (body : A -> M (option R)) : M (option R) :=
  match xs with
  | [] => ret None
  | x :: xs' =>
      r <- body x ;;
      match r with
      | Some v => ret (Some v)
      | None => for_return xs' body
      end
  end.

Fixpoint for_each {A} (xs : list A) (body : A -> M unit) : M unit :=
  match xs with
  | [] => ret tt
  | x :: xs' => body x ;;; for_each xs' body
  end.

Fixpoint fold_m {A B} (xs : list A) (acc : B) (body : B -> A -> M B) : M B :=
  match xs with
  | [] => ret acc
  | x :: xs' => acc' <- body acc x ;; fold_m xs' acc' body
  end.

(** [try: m except (InvalidExpression, TypeError) as e: handler e] *)
Definition try_except {A} (m : M A) (caught : exn -> bool) (handler : exn -> M A) : M A :=
  fun w =>
    match m w with
    | Raise e w' => if caught e then handler e w' else Raise e w'
    | r => r
    end.

(** ** Strings *)

Definition is_newline (c : ascii) : bool := Ascii.eqb c "010"%char.

Definition is_digit (c : ascii) : bool :=
  let n := N_of_ascii c in ((48 <=? n) && (n <=? 57))%N.

Definition is_alpha (c : ascii) : bool :=
  let n := N_of_ascii c in
  (((65 <=? n) && (n <=? 90)) || ((97 <=? n) && (n <=? 122)))%N.

Fixpoint string_map (f : ascii -> ascii) (s : string) : string :=
  match s with
  | EmptyString => EmptyString
  | String c s' => String (f c) (string_map f s')
  end.

(** [re.sub(r'[^-_0-9a-zA-Z]', '-', task_name)] *)
Definition escape_char (c : ascii) : ascii :=
  if Ascii.eqb c "-"%char || Ascii.eqb c "_"%char || is_digit c || is_alpha c
  then c else "-"%char.

Definition escape_task_name (task_name : string) : string :=
  string_map escape_char task_name.

Fixpoint strip_prefix (p s : string) : option string :=
  match p, s with
  | EmptyString, _ => Some s
  | String a p', String b s' => if Ascii.eqb a b then strip_prefix p' s' else None
  | String _ _, EmptyString => None
  end.

(** [s.replace(old, new)] for a non-empty [old]: every occurrence, scanning
    from the left without overlap. *)
Fixpoint str_replace_go (fuel : nat) (old new s : string) : string :=
  match fuel with
  | O => s
  | S fuel' =>
      match s with
      | EmptyString => EmptyString
      | String c s' =>
          match strip_prefix old s with
          | Some rest => new +:+ str_replace_go fuel' old new rest
          | None => String c (str_replace_go fuel' old new s')
          end
      end
  end.

Definition str_replace (s old new : string) : string :=
  str_replace_go (String.length s) old new s.

(** [s.split('\n')] *)
Fixpoint split_lines (s : string) : list string :=
  match s with
  | EmptyString => [EmptyString]
  | String c s' =>
      if is_newline c then EmptyString :: split_lines s'
      else match split_lines s' with
           | h :: t => String c h :: t
           | [] => [String c EmptyString]
           end
  end.

Fixpoint lstrip (s : string) : string :=
  match s with
  | String c s' => if Ascii.is_space c then lstrip s' else s
  | EmptyString => EmptyString
  end.

(** [s.strip()] *)
Definition py_strip (s : string) : string :=
  String.rev (lstrip (String.rev (lstrip s))).

Definition str_truthy (s : string) : bool :=
  match s with EmptyString => false | _ => true end.

(** *** The inliner pattern [re.compile(r'{%.+?%}')]

    After the opening [{%] the pattern takes one character that is not a
    newline and then as few further such characters as possible up to the
    first [%}]. *)
Fixpoint inliner_close (s : string) : option (string * string) :=
  match s with
  | String "%" (String "}" rest) => Some (EmptyString, rest)
  | String c s' =>
      if is_newline c then None
      else match inliner_close s' with
           | Some (inner, rest) => Some (String c inner, rest)
           | None => None
           end
  | EmptyString => None
  end.

Definition inliner_at (s : string) : option (string * string) :=
  match s with
  | String "{" (String "%" (String c s')) =>
      if is_newline c then None
      else match inliner_close s' with
           | Some (inner, rest) => Some ("{%" +:+ String c inner +:+ "%}", rest)
           | None => None
           end
  | _ => None
  end.

Fixpoint findall_go (fuel : nat) (s : string) : list string :=
  match fuel with
  | O => []
  | S fuel' =>
      match s with
      | EmptyString => []
      | String _ s' =>
          match inliner_at s with
          | Some (m, rest) => m :: findall_go fuel' rest
          | None => findall_go fuel' s'
          end
      end
  end.

Definition INLINER_REGEX_findall (value : string) : list string :=
  findall_go (String.length value) value.

(** [inliner[2:-2]] *)
Definition slice_2_m2 (s : string) : string :=
  String.substring 2 (String.length s - 4)%nat s.

(** *** [int(s)] and [float(s)] on text *)

Fixpoint digits_value (acc : Z) (s : string) : option Z :=
  match s with
  | EmptyString => Some acc
  | String c s' =>
      if is_digit c
      then digits_value (10 * acc + Z.of_N (N_of_ascii c - 48)) s'
      else None
  end.

Definition parse_digits (s : string) : option Z :=
  match s with
  | EmptyString => None
  | _ => digits_value 0 s
  end.

(** [int(s)]: surrounding white space, an optional sign, decimal digits;
    [None] stands for [ValueError]. *)
Definition py_int (s : string) : option Z :=
  match py_strip s with
  | String "-" d => Z.opp <$> parse_digits d
  | String "+" d => parse_digits d
  | t => parse_digits t
  end.

Fixpoint span_digits (s : string) : nat * string :=
  match s with
  | String c s' =>
      if is_digit c then let '(n, r) := span_digits s' in (S n, r) else (O, s)
  | EmptyString => (O, EmptyString)
  end.

Definition lower_char (c : ascii) : ascii :=
  let n := N_of_ascii c in
  if ((65 <=? n) && (n <=? 90))%N then ascii_of_N (n + 32) else c.

Definition float_exponent_ok (s : string) : bool :=
  match s with
  | EmptyString => true
  | String e s' =>
      if Ascii.eqb (lower_char e) "e"%char then
        let d := match s' with
                 | String "-" d | String "+" d => d
                 | d => d
                 end in
        match span_digits d with
        | (S _, EmptyString) => true
        | _ => false
        end
      else false
  end.

Definition float_body_ok (s : string) : bool :=
  let low := string_map lower_char s in
  if String.eqb low "inf" || String.eqb low "infinity" || String.eqb low "nan"
  then true
  else
    let '(n1, r1) := span_digits s in
    match r1 with
    | String "." r2 =>
        let '(n2, r3) := span_digits r2 in
        match n1, n2 with
        | O, O => false
        | _, _ => float_exponent_ok r3
        end
    | _ => match n1 with O => false | _ => float_exponent_ok r1 end
    end.

(** [float(s)]: the accepted text is kept as the value; [None] stands for
    [ValueError]. *)
Definition py_float (s : string) : option string :=
  let t := py_strip s in
  let body := match t with
              | String "-" d | String "+" d => d
              | d => d
              end in
  if float_body_ok body then Some t else None.

Definition _parse_num (s : string) : num :=
  match py_int s with
  | Some z => NInt z
  | None =>
      match py_float s with
      | Some lit => NFloat lit
      | None => NInt 0
      end
  end.

(** ** [core.cache]

    Modelled from the spec: [core/cache.py] is not part of the sources at
    hand.  Section 4.3 of the specification gives its primitives: [set(key,
    value)] is an unconditional write, [update(key, fn)] applies
    [fn(current_or_nil)] and stores the answer, and a reader that misses
    falls back to the value it supplies. *)

Definition memcache_get (key : string) (default_value : option cval) : M (option cval) :=
  gets (fun w => match cache w !! key with
                 | Some v => Some v
                 | None => default_value
                 end).

Definition memcache_set_cache (key : string) (value : cval) : M unit :=
  modify (set_cache_map (insert key value)).

Definition memcache_set_multi_cache (cache_values : list (string * cval)) : M unit :=
  for_each cache_values (fun kv => memcache_set_cache (fst kv) (snd kv)).

Definition memcache_set_cache_with_value_function
    (key : string) (fn : option cval -> exn + cval) : M unit :=
  fun w =>
    match fn (cache w !! key) with
    | inr v => Ret tt (set_cache_map (insert key v) w)
    | inl e => Raise e w
    end.

(** ** Session access *)

Definition datetime_now : M Z :=
  fun w => Ret (clock w (ticks w)) (set_ticks S w).

Definition uuid_uuid4 : M string :=
  fun w => Ret (uuid_source w (uuid_drawn w)) (set_uuid_drawn S w).

Definition lookup_job (jid : Z) (w : World) : option Job :=
  List.find (fun j => job_id_ j =? jid)%Z (jobs w).

Definition lookup_pipeline (pid : Z) (w : World) : option Pipeline :=
  List.find (fun p => pipeline_id_ p =? pid)%Z (pipelines w).

(** Reading an object that the session does not hold yields [None], and the
    attribute access on it raises. *)
Definition Job_find (jid : Z) : M Job :=
  fun w => match lookup_job jid w with
           | Some j => Ret j w
           | None => Raise AttributeError w
           end.

Definition Pipeline_find (pid : Z) : M Pipeline :=
  fun w => match lookup_pipeline pid w with
           | Some p => Ret p w
           | None => Raise AttributeError w
           end.

(** [job.pipeline] *)
Definition Job_pipeline (self : Job) : M Pipeline :=
  match job_pipeline_id self with
  | Some pid => Pipeline_find pid
  | None => raise AttributeError
  end.

(** [pipeline.jobs.all()] *)
Definition Pipeline_jobs (pid : Z) (w : World) : list Job :=
  List.filter (fun j => bool_decide (job_pipeline_id j = Some pid)) (jobs w).

Definition update_job (jid : Z) (f : Job -> Job) : M unit :=
  modify (set_jobs (List.map (fun j => if (job_id_ j =? jid)%Z then f j else j))).

Definition update_pipeline (pid : Z) (f : Pipeline -> Pipeline) : M unit :=
  modify (set_pipelines
            (List.map (fun p => if (pipeline_id_ p =? pid)%Z then f p else p))).

Definition job_with_status (st : string) (t : Z) (j : Job) : Job :=
  mkJob (job_id_ j) (job_name j) st (Some t) (job_worker_class j)
        (job_pipeline_id j) (job_enqueued_workers_count j).

Definition job_with_count (n : Z) (j : Job) : Job :=
  mkJob (job_id_ j) (job_name j) (job_status j) (job_status_changed_at j)
        (job_worker_class j) (job_pipeline_id j) n.

Definition pipeline_with_status (st : string) (t : option Z) (p : Pipeline) : Pipeline :=
  mkPipeline (pipeline_id_ p) (pipeline_name p)
             (pipeline_emails_for_notifications p) st
             (match t with Some _ => t | None => pipeline_status_changed_at p end)
             (pipeline_run_on_schedule p).

(** ** [Param] *)

Definition param_name_le (p q : Param) : Prop := (param_name p ≤ param_name q)%string.

#[global] Instance param_name_le_dec : RelDecision param_name_le.
Proof. intros p q. unfold param_name_le. apply _. Defined.

(** [Param.where(pipeline_id=None, job_id=None).all()] *)
Definition Param_globals (w : World) : list Param :=
  List.filter (fun p => bool_decide (param_pipeline_id p = None)
                        && bool_decide (param_job_id p = None)) (params w).

(** [pipeline.params], ordered by [asc(Param.name)] *)
Definition Pipeline_params (pid : Z) (w : World) : list Param :=
  merge_sort param_name_le
    (List.filter (fun p => bool_decide (param_pipeline_id p = Some pid)) (params w)).

(** [job.params] *)
Definition Job_params (jid : Z) (w : World) : list Param :=
  List.filter (fun p => bool_decide (param_job_id p = Some jid)) (params w).

Definition is_some {A} (o : option A) : bool :=
  match o with Some _ => true | None => false end.

(** [Param._expand_vars], with the property [val] it calls on other params
    passed in. *)
Definition Param__expand_vars (val : Param -> M pval) (self : Param) (value : string)
    : M string :=
  let names : gmap string pval :=
    <["False" := VBool false]> (<["True" := VBool true]> ∅) in
  names <-
    (if is_some (param_job_id self) || is_some (param_pipeline_id self) then
       globals <- gets Param_globals ;;
       fold_m globals names
         (fun names param => v <- val param ;; ret (<[param_name param := v]> names))
     else ret names) ;;
  names <-
    (match param_job_id self with
     | Some jid =>
         job <- Job_find jid ;;
         pipeline <- Job_pipeline job ;;
         pparams <- gets (Pipeline_params (pipeline_id_ pipeline)) ;;
         fold_m pparams names
           (fun names param => v <- val param ;; ret (<[param_name param := v]> names))
     | None => ret names
     end) ;;
  let inliners := INLINER_REGEX_findall value in
  fold_m inliners value
    (fun value inliner =>
       ev <- gets simple_eval_str ;;
       match ev (slice_2_m2 inliner) names with
       | inr result => ret (str_replace value inliner result)
       | inl e => raise e
       end).

(** [Param.val] *)
Fixpoint Param_val (fuel : nat) (self : Param) : M pval :=
  match fuel with
  | O => timeout
  | S fuel' =>
      if String.eqb (param_type self) "boolean" then
        ret (VBool (String.eqb (param_value self) "1"))
      else
        val <- Param__expand_vars (Param_val fuel') self (param_value self) ;;
        if String.eqb (param_type self) "number" then
          ret (VNum (_parse_num val))
        else if String.eqb (param_type self) "string_list" then
          ret (VStrList (split_lines val))
        else if String.eqb (param_type self) "number_list" then
          ret (VNumList
                 (List.map _parse_num
                    (List.filter (fun l => str_truthy (py_strip l)) (split_lines val))))
        else ret (VStr val)
  end.

(** ** [Job]: cache keys and counters *)

Definition Job__get_pipeline_prefix (self : Job) : string :=
  py_str_int (job_pipeline_id self) +:+ "_".

Definition Job__get_job_prefix (self : Job) : string :=
  pretty (job_id_ self) +:+ "_".

Definition Pipeline__get_pipeline_prefix (self : Pipeline) : string :=
  pretty (pipeline_id_ self) +:+ "_".

Definition job_status_key (self : Job) : string :=
  Job__get_pipeline_prefix self +:+ Job__get_job_prefix self +:+ CACHE_KEY_STATUS.

Definition job_enqueued_key (self : Job) : string :=
  Job__get_pipeline_prefix self +:+ Job__get_job_prefix self +:+ CACHE_KEY_ENQUEUED_TASKS.

(** The handler of [_increase_value_cache]: [cached_value + 1] if
    [cached_value] is truthy, else [db_value]. *)
Definition increase_handler (db_value : option Z) (cached_value : option cval)
    : exn + cval :=
  let db_value := if truthy_int db_value then default 0 db_value + 1 else 1 in
  if truthy cached_value then
    match cached_value with
    | Some (CInt z) => inr (CInt (z + 1))
    | _ => inl TypeError
    end
  else inr (CInt db_value).

Definition decrease_handler (db_value : option Z) (cached_value : option cval)
    : exn + cval :=
  let db_value := if truthy_int db_value then default 0 db_value - 1 else 0 in
  if truthy cached_value then
    match cached_value with
    | Some (CInt z) => inr (CInt (z - 1))
    | _ => inl TypeError
    end
  else inr (CInt db_value).

Definition Job__increase_value_cache (self : Job) (key : string) (db_value : option Z)
    : M unit :=
  let key := Job__get_pipeline_prefix self +:+ key in
  memcache_set_cache_with_value_function key (increase_handler db_value).

Definition Job__decrease_value_cache (self : Job) (key : string) (db_value : option Z)
    : M unit :=
  let key := Job__get_pipeline_prefix self +:+ key in
  memcache_set_cache_with_value_function key (decrease_handler db_value).

Definition add_task_handler (task_name : string) (cached_value : option cval)
    : exn + cval :=
  if truthy cached_value then
    match cached_value with
    | Some (CList l) => inr (CList (l ++ [task_name]))
    | _ => inl TypeError
    end
  else inr (CList [task_name]).

Fixpoint string_chars (s : string) : list string :=
  match s with
  | EmptyString => []
  | String c s' => String c EmptyString :: string_chars s'
  end.

Definition delete_task_handler (task_name : string) (cached_value : option cval)
    : exn + cval :=
  if truthy cached_value then
    match cached_value with
    | Some (CList l) =>
        inr (CList (List.filter (fun task => negb (String.eqb task task_name)) l))
    | Some (CStr s) =>
        inr (CList (List.filter (fun task => negb (String.eqb task task_name))
                      (string_chars s)))
    | _ => inl TypeError
    end
  else inr (CList []).

Definition Job__add_task_name_cache (self : Job) (task_name : string) : M unit :=
  let key := Job__get_pipeline_prefix self +:+ CACHE_KEY_LIST_OF_TASKS_ENQUEUED in
  memcache_set_cache_with_value_function key (add_task_handler task_name).

Definition Job__delete_task_name_cache (self : Job) (task_name : string) : M unit :=
  let key := Job__get_pipeline_prefix self +:+ CACHE_KEY_LIST_OF_TASKS_ENQUEUED in
  memcache_set_cache_with_value_function key (delete_task_handler task_name).

(** ** [Job]: status *)

Definition status_is (v : cval) (s : string) : bool :=
  match v with
  | CStr t => String.eqb t s
  | _ => false
  end.

Definition status_in (v : cval) (l : list string) : bool :=
  existsb (status_is v) l.

Definition Job_get_status (jid : Z) : M cval :=
  self <- Job_find jid ;;
  v <- memcache_get (job_status_key self) (Some (CStr (job_status self))) ;;
  ret (default (CStr (job_status self)) v).

Definition Job_prepare_for_start (jid : Z) : M bool :=
  status <- Job_get_status jid ;;
  if negb (status_in status ["idle"; "succeeded"; "failed"]) then ret false
  else
    self <- Job_find jid ;;
    memcache_set_cache (job_status_key self) (CStr "waiting") ;;;
    ret true.

Definition log_struct (entry : LogEntry) : M unit :=
  modify (set_logs (fun l => l ++ [entry])).

Definition Job_get_ready (fuel : nat) (jid : Z) : M bool :=
  self <- Job_find jid ;;
  ps <- gets (Job_params jid) ;;
  r <- for_return ps
         (fun param =>
            try_except (Param_val fuel param ;;; ret None)
              (fun e => bool_decide (e = InvalidExpression) || bool_decide (e = TypeError))
              (fun e =>
                 log_struct (mkLogEntry (job_pipeline_id self) (job_id_ self)
                               (job_worker_class self) "ERROR"
                               (param_label param) e) ;;;
                 ret (Some false))) ;;
  match r with
  | Some b => ret b
  | None =>
      ok <- Job_prepare_for_start jid ;;
      if ok then ret true
      else
        (* [logger] is bound only by the import in the [except] branch *)
        raise UnboundLocalError
  end.

(** ** [Pipeline]: aggregate outcome *)

(** The query of [_finish]: the jobs of the pipeline that no start condition
    names as its preceding job. *)
Definition Pipeline_sink_jobs (pid : Z) (w : World) : list Job :=
  List.filter
    (fun j => negb (existsb (fun sc => (sc_preceding_job_id sc =? job_id_ j)%Z)
                      (start_conditions w)))
    (Pipeline_jobs pid w).

Definition NotificationMailer_finished_pipeline (pid : Z) : M unit :=
  p <- Pipeline_find pid ;;
  modify (set_mails (fun l => l ++ [p])).

Definition Pipeline__finish (pid : Z) : M unit :=
  sinks <- gets (Pipeline_sink_jobs pid) ;;
  r <- for_return sinks
         (fun job =>
            st <- Job_get_status (job_id_ job) ;;
            if status_is st "failed" then ret (Some "failed") else ret None) ;;
  let status := default "succeeded" r in
  t <- datetime_now ;;
  update_pipeline pid (pipeline_with_status status (Some t)) ;;;
  NotificationMailer_finished_pipeline pid.

Definition Pipeline_job_finished (pid : Z) : M bool :=
  js <- gets (Pipeline_jobs pid) ;;
  r <- for_return js
         (fun job =>
            st <- Job_get_status (job_id_ job) ;;
            if negb (status_in st ["succeeded"; "failed"; "idle"])
            then ret (Some false) else ret None) ;;
  match r with
  | Some b => ret b
  | None => Pipeline__finish pid ;;; ret true
  end.

(** ** [Job]: terminal statuses, enqueueing *)

Definition Job_set_failed_status (jid : Z) : M unit :=
  self <- Job_find jid ;;
  Job__increase_value_cache self CACHE_KEY_FAILED_JOBS None ;;;
  pipeline <- Job_pipeline self ;;
  n <- gets (fun w => Z.of_nat (length (Pipeline_jobs (pipeline_id_ pipeline) w))) ;;
  Job__decrease_value_cache self CACHE_KEY_REMAINING_JOBS (Some n) ;;;
  memcache_set_cache (job_status_key self) (CStr "failed") ;;;
  t <- datetime_now ;;
  update_job jid (job_with_status "failed" t) ;;;
  update_pipeline (pipeline_id_ pipeline) (pipeline_with_status "failed" None).

Definition Job_set_succeeded_status (jid : Z) : M unit :=
  self <- Job_find jid ;;
  pipeline <- Job_pipeline self ;;
  n <- gets (fun w => Z.of_nat (length (Pipeline_jobs (pipeline_id_ pipeline) w))) ;;
  Job__decrease_value_cache self CACHE_KEY_REMAINING_JOBS (Some n) ;;;
  memcache_set_cache (job_status_key self) (CStr "succeeded") ;;;
  t <- datetime_now ;;
  update_job jid (job_with_status "succeeded" t).

Definition taskqueue_add (task : Task) : M Task :=
  modify (set_taskqueue (fun q => q ++ [task])) ;;; ret task.

(** [Job.enqueue]; [None] stands for the answer [False]. *)
Definition Job_enqueue (jid : Z) (worker_class : option string)
    (worker_params : list (string * pval)) (delay : Z) : M (option Task) :=
  status <- Job_get_status jid ;;
  if negb (status_is status "running") then ret None
  else
    self <- Job_find jid ;;
    pipeline <- Job_pipeline self ;;
    let task_name :=
      py_str (pipeline_name pipeline) +:+ "_" +:+ py_str (job_name self)
        +:+ "_" +:+ py_str (job_worker_class self) in
    let escaped_task_name := escape_task_name task_name in
    u <- uuid_uuid4 ;;
    let unique_task_name := escaped_task_name +:+ "_" +:+ u in
    Job__add_task_name_cache self unique_task_name ;;;
    task <- taskqueue_add
              (mkTask "job-service" unique_task_name "/task" (job_id_ self)
                 worker_class worker_params unique_task_name delay) ;;
    update_job jid (fun j => job_with_count (job_enqueued_workers_count j + 1) j) ;;;
    Job__increase_value_cache self
      (Job__get_job_prefix self +:+ CACHE_KEY_ENQUEUED_TASKS) None ;;;
    ret (Some task).

Fixpoint map_m {A B} (xs : list A) (f : A -> M B) : M (list B) :=
  match xs with
  | [] => ret []
  | x :: xs' => y <- f x ;; ys <- map_m xs' f ;; ret (y :: ys)
  end.

Definition Job_run (fuel : nat) (jid : Z) : M unit :=
  update_job jid (job_with_count 0) ;;;
  self <- Job_find jid ;;
  memcache_set_cache (job_status_key self) (CStr "running") ;;;
  ps <- gets (Job_params jid) ;;
  worker_params <- map_m ps (fun p => v <- Param_val fuel p ;; ret (param_name p, v)) ;;
  Job_enqueue jid (job_worker_class self) worker_params 0 ;;;
  ret tt.

(** [Job.stop] reads the [status] column of the row itself. *)
Definition Job_stop (jid : Z) : M bool :=
  self <- Job_find jid ;;
  if String.eqb (job_status self) "waiting" then
    t <- datetime_now ;;
    update_job jid (job_with_status "failed" t) ;;;
    ret true
  else if String.eqb (job_status self) "running" then
    t <- datetime_now ;;
    update_job jid (job_with_status "stopping" t) ;;;
    ret true
  else ret false.

(** ** [Job]: start conditions and propagation *)

(** [job.start_conditions] *)
Definition Job_start_conditions (jid : Z) (w : World) : list StartCondition :=
  List.filter (fun sc => (sc_job_id sc =? jid)%Z) (start_conditions w).

(** [job.dependent_jobs]: one job per start condition that names [jid] as
    its preceding job. *)
Definition Job_dependent_jobs (jid : Z) (w : World) : list Job :=
  omap (fun sc => lookup_job (sc_job_id sc) w)
    (List.filter (fun sc => (sc_preceding_job_id sc =? jid)%Z) (start_conditions w)).

Definition Job__start_condition_is_fulfuilled (start_condition : StartCondition) : M bool :=
  preceding_job_status <- Job_get_status (sc_preceding_job_id start_condition) ;;
  if String.eqb (sc_condition start_condition) "success" then
    if status_is preceding_job_status "failed" then ret false else ret true
  else if String.eqb (sc_condition start_condition) "fail" then
    if status_is preceding_job_status "succeeded" then ret false else ret true
  else ret true.

(** [Job._start_dependent_jobs], with [Job.start] passed in. *)
Definition start_dependent_jobs_with (start : Z -> M bool) (jid : Z) : M unit :=
  self <- Job_find jid ;;
  deps <- gets (Job_dependent_jobs jid) ;;
  for_each deps (fun job => start (job_id_ job) ;;; ret tt) ;;;
  pipeline <- Job_pipeline self ;;
  Pipeline_job_finished (pipeline_id_ pipeline) ;;;
  ret tt.

Fixpoint Job_start (fuel : nat) (jid : Z) : M bool :=
  match fuel with
  | O => timeout
  | S fuel' =>
      status <- Job_get_status jid ;;
      if negb (status_is status "waiting") then ret false
      else
        scs <- gets (Job_start_conditions jid) ;;
        r <- for_return scs
               (fun start_condition =>
                  ok <- Job__start_condition_is_fulfuilled start_condition ;;
                  if ok then
                    st <- Job_get_status (sc_preceding_job_id start_condition) ;;
                    if negb (status_in st ["succeeded"; "failed"])
                    then ret (Some false) else ret None
                  else
                    Job_set_failed_status jid ;;;
                    start_dependent_jobs_with (Job_start fuel') jid ;;;
                    ret (Some false)) ;;
        match r with
        | Some b => ret b
        | None => Job_run fuel' jid ;;; ret true
        end
  end.

Definition Job__start_dependent_jobs (fuel : nat) (jid : Z) : M unit :=
  start_dependent_jobs_with (Job_start fuel) jid.

(** ** [Job]: worker callbacks *)

Definition Job_worker_succeeded (fuel : nat) (jid : Z) (task_name : string) : M unit :=
  self <- Job_find jid ;;
  Job__delete_task_name_cache self task_name ;;;
  Job__decrease_value_cache self
    (Job__get_job_prefix self +:+ CACHE_KEY_ENQUEUED_TASKS)
    (Some (job_enqueued_workers_count self)) ;;;
  v <- memcache_get (job_enqueued_key self) None ;;
  if bool_decide (v = Some (CInt 0)) then
    status <- Job_get_status jid ;;
    (if negb (status_is status "failed")
     then Job_set_succeeded_status jid
     else Job_set_failed_status jid) ;;;
    Job__start_dependent_jobs fuel jid
  else ret tt.

Definition Job_worker_failed (fuel : nat) (jid : Z) (task_name : string) : M unit :=
  self <- Job_find jid ;;
  Job__delete_task_name_cache self task_name ;;;
  Job__decrease_value_cache self
    (Job__get_job_prefix self +:+ CACHE_KEY_ENQUEUED_TASKS) None ;;;
  Job_set_failed_status jid ;;;
  v <- memcache_get (job_enqueued_key self) None ;;
  if bool_decide (v = Some (CInt 0)) then Job__start_dependent_jobs fuel jid
  else ret tt.

(** ** [Pipeline] *)

Definition Pipeline_get_ready (pid : Z) : M unit :=
  n <- gets (fun w => Z.of_nat (length (Pipeline_jobs pid w))) ;;
  memcache_set_multi_cache
    [ (CACHE_KEY_FAILED_JOBS, CInt 0);
      (CACHE_KEY_REMAINING_JOBS, CInt n);
      (CACHE_KEY_LIST_OF_TASKS_ENQUEUED, CList []) ].

Definition startable_pipeline_status (s : string) : bool :=
  existsb (String.eqb s) ["idle"; "finished"; "failed"; "succeeded"].

Definition Pipeline_start (fuel : nat) (pid : Z) : M bool :=
  self <- Pipeline_find pid ;;
  if negb (startable_pipeline_status (pipeline_status self)) then ret false
  else
    Pipeline_get_ready pid ;;;
    js <- gets (Pipeline_jobs pid) ;;
    if (length js <? 1)%nat then ret false
    else
      r <- for_return js
             (fun job =>
                st <- Job_get_status (job_id_ job) ;;
                if negb (status_in st ["idle"; "succeeded"; "failed"])
                then ret (Some false) else ret None) ;;
      match r with
      | Some b => ret b
      | None =>
          r <- for_return js
                 (fun job =>
                    ok <- Job_get_ready fuel (job_id_ job) ;;
                    if negb ok then ret (Some false) else ret None) ;;
          match r with
          | Some b => ret b
          | None =>
              for_each js (fun job => Job_start fuel (job_id_ job) ;;; ret tt) ;;;
              t <- datetime_now ;;
              update_pipeline pid (pipeline_with_status "running" (Some t)) ;;;
              ret true
          end
      end.

Definition Pipeline_stop (pid : Z) : M bool :=
  self <- Pipeline_find pid ;;
  if negb (String.eqb (pipeline_status self) "running") then ret false
  else
    js <- gets (Pipeline_jobs pid) ;;
    for_each js (fun job => Job_stop (job_id_ job) ;;; ret tt) ;;;
    js <- gets (Pipeline_jobs pid) ;;
    r <- for_return js
           (fun job =>
              st <- Job_get_status (job_id_ job) ;;
              if negb (status_in st ["succeeded"; "failed"]) then
                t <- datetime_now ;;
                update_pipeline pid (pipeline_with_status "stopping" (Some t)) ;;;
                ret (Some true)
              else ret None) ;;
    match r with
    | Some b => ret b
    | None => Pipeline__finish pid ;;; ret true
    end.

Definition Pipeline_start_single_job (fuel : nat) (pid : Z) (jid : Z) : M bool :=
  self <- Pipeline_find pid ;;
  if negb (startable_pipeline_status (pipeline_status self)) then ret false
  else
    Job_run fuel jid ;;;
    t <- datetime_now ;;
    update_pipeline pid (pipeline_with_status "running" (Some t)) ;;;
    ret true.

(** ** Worlds for the examples *)

(** The evaluator of the example worlds.  On a name, or a sum of names and
    decimal literals, whose values are [int]s or [str]s it answers what
    [str(simple_eval(...))] answers; the example worlds use it on such
    expressions only, and every other expression is rejected. *)
Definition is_identifier (s : string) : bool :=
  match s with
  | EmptyString => false
  | String c _ =>
      negb (is_digit c) &&
      forallb (fun t => match t with
                        | String d _ => is_alpha d || is_digit d || Ascii.eqb d "_"%char
                        | EmptyString => true
                        end) (string_chars s)
  end.

Definition demo_atom (names : gmap string pval) (a : string) : exn + pval :=
  let a := py_strip a in
  match parse_digits a with
  | Some z => inr (VNum (NInt z))
  | None =>
      if is_identifier a then
        match names !! a with
        | Some v => inr v
        | None => inl InvalidExpression
        end
      else inl InvalidExpression
  end.

Definition demo_add (x y : exn + pval) : exn + pval :=
  match x, y with
  | inl e, _ => inl e
  | _, inl e => inl e
  | inr (VNum (NInt a)), inr (VNum (NInt b)) => inr (VNum (NInt (a + b)))
  | inr (VStr a), inr (VStr b) => inr (VStr (a +:+ b))
  | _, _ => inl TypeError
  end.

Fixpoint split_plus (s : string) : list string :=
  match s with
  | EmptyString => [EmptyString]
  | String c s' =>
      if Ascii.eqb c "+"%char then EmptyString :: split_plus s'
      else match split_plus s' with
           | h :: t => String c h :: t
           | [] => [String c EmptyString]
           end
  end.

Definition demo_simple_eval_str (expr : string) (names : gmap string pval)
    : exn + string :=
  let r := match split_plus expr with
           | [] => inl InvalidExpression
           | a :: rest =>
               fold_left (fun acc b => demo_add acc (demo_atom names b)) rest
                 (demo_atom names a)
           end in
  match r with
  | inl e => inl e
  | inr (VNum (NInt z)) => inr (pretty z)
  | inr (VStr s) => inr s
  | inr (VBool true) => inr "True"
  | inr (VBool false) => inr "False"
  | inr _ => inl InvalidExpression
  end.

Definition demo_world (ps : list Pipeline) (js : list Job)
    (scs : list StartCondition) (prms : list Param) : World :=
  mkWorld ps js scs prms ∅ [] [] []
          (fun n => Z.of_nat n) O
          (fun n => "uuid" +:+ pretty n) O
          demo_simple_eval_str.

(** ** Reading the world *)

(** The effective status of a job: the cached status, or the [status]
    column when the cache misses. *)
Definition effective_status (w : World) (jid : Z) : option cval :=
  match lookup_job jid w with
  | Some self => Some (default (CStr (job_status self)) (cache w !! job_status_key self))
  | None => None
  end.

(** A text ends with a given suffix. *)
Definition ends_with (suffix s : string) : Prop := exists p, s = p +:+ suffix.

(** What a computation leaves behind, whether it returns or raises. *)
Definition post {A} (m : M A) (w : World) (Q : World -> Prop) : Prop :=
  match m w with
  | Ret _ w' => Q w'
  | Raise _ w' => Q w'
  | Timeout => True
  end.

Definition preserves (I : World -> Prop) {A} (m : M A) : Prop :=
  forall w, I w -> post m w I.

Definition demo_cache (kvs : list (string * cval)) (w : World) : World :=
  set_cache_map (fun _ => list_to_map kvs) w.

Definition demo_pipeline : Pipeline :=
  mkPipeline 1 (Some "my pipe") None "idle" None false.

Definition demo_job (jid : Z) (name : string) : Job :=
  mkJob jid (Some name) "idle" None (Some "W") (Some 1) 0.

(** One pipeline with one job whose cached status is [running] while its
    row still says [idle], as [Job.run] leaves it. *)
Definition world_running : World :=
  demo_cache [("1_1_status", CStr "running"); ("1_1_enqueued_tasks", CInt 2)]
    (demo_world [demo_pipeline] [demo_job 1 "a"] [] []).

(** The specification's words, to be compared with the query of [_finish]:
    a sink job of the pipeline is a job of this pipeline with no outgoing
    start-condition edge, that is, no start condition has it as its
    preceding job. *)
Definition sink_job (w : World) (pid : Z) (j : Job) : Prop :=
  In j (jobs w) /\ job_pipeline_id j = Some pid
  /\ forall sc, In sc (start_conditions w) -> sc_preceding_job_id sc <> job_id_ j.


Definition failedb (w : World) (j : Job) : bool :=
  match effective_status w (job_id_ j) with
  | Some st => status_is st "failed"
  | None => false
  end.

(** The cache as [Pipeline.get_ready] leaves it. *)
Definition cache_after_get_ready (pid : Z) (w : World) : gmap string cval :=
  <[CACHE_KEY_LIST_OF_TASKS_ENQUEUED := CList []]>
    (<[CACHE_KEY_REMAINING_JOBS := CInt (Z.of_nat (length (Pipeline_jobs pid w)))]>
       (<[CACHE_KEY_FAILED_JOBS := CInt 0]> (cache w))).

Definition startableb (w : World) (j : Job) : bool :=
  match effective_status w (job_id_ j) with
  | Some st => status_in st ["idle"; "succeeded"; "failed"]
  | None => false
  end.

(** Two jobs, the second one depending on the first; the cache says that
    the second one has failed. *)
Definition world_sink_failed : World :=
  demo_cache [("1_2_status", CStr "failed")]
    (demo_world [demo_pipeline] [demo_job 1 "a"; demo_job 2 "b"]
       [mkStartCondition 1 2 1 "whatever"] []).

(** What a cache entry holds when it is read as a list or as a counter. *)
Definition holds_list (v : option cval) : Prop :=
  match v with
  | None => True
  | Some (CList _) => True
  | _ => False
  end.

Definition holds_int (v : option cval) : Prop :=
  match v with
  | None => True
  | Some (CInt _) => True
  | _ => False
  end.

Definition list_of (v : option cval) : list string :=
  match v with
  | Some (CList l) => l
  | _ => []
  end.

Definition int_of (v : option cval) : Z :=
  match v with
  | Some (CInt z) => z
  | _ => 0
  end.

Definition job_list_key (self : Job) : string :=
  Job__get_pipeline_prefix self +:+ CACHE_KEY_LIST_OF_TASKS_ENQUEUED.

Definition job_failed_key (self : Job) : string :=
  Job__get_pipeline_prefix self +:+ CACHE_KEY_FAILED_JOBS.

Definition job_remaining_key (self : Job) : string :=
  Job__get_pipeline_prefix self +:+ CACHE_KEY_REMAINING_JOBS.

(** [str(v)] for the values whose text is immediate. *)
Definition pval_text (v : pval) : option string :=
  match v with
  | VStr s => Some s
  | VNum (NInt z) => Some (pretty z)
  | _ => None
  end.

(** What is asked of the expression evaluator: a bare name evaluates to the
    value bound to it. *)
Definition evaluates_name (w : World) (n : string) : Prop :=
  forall (names : gmap string pval) (v : pval) (s : string),
    names !! n = Some v -> pval_text v = Some s ->
    simple_eval_str w (" " +:+ n +:+ " ") names = inr s.

Definition param_x : Param := mkParam 1 "x" "string" None None None "2".
Definition param_y : Param := mkParam 2 "y" "string" (Some 1) None None "3".
Definition param_z : Param :=
  mkParam 3 "z" "number" None (Some 1) None "{% x %} + {% y %} + 5".

(** Scenario 5 of the specification. *)
Definition world_params : World :=
  demo_world [demo_pipeline] [demo_job 1 "a"] [] [param_x; param_y; param_z].

(** ** Start conditions, as the specification words them

    An edge is satisfied when the status of the preceding job is consistent
    with its condition: [success] requires a status other than [failed],
    [fail] a status other than [succeeded], anything else is always
    satisfied.  A job is terminal when it has succeeded or failed. *)
Definition edge_satisfied (condition : string) (preceding : cval) : bool :=
  if String.eqb condition "success" then negb (status_is preceding "failed")
  else if String.eqb condition "fail" then negb (status_is preceding "succeeded")
  else true.

Definition terminal (st : cval) : bool := status_in st ["succeeded"; "failed"].

Inductive edge_verdict :=
  | EdgePass        (* satisfied, and the preceding job is terminal *)
  | EdgePending     (* satisfied, but the preceding job is not terminal *)
  | EdgeViolated.   (* not satisfied *)

Definition verdict_of (w : World) (sc : StartCondition) : option edge_verdict :=
  match effective_status w (sc_preceding_job_id sc) with
  | Some st =>
      Some (if edge_satisfied (sc_condition sc) st
            then if terminal st then EdgePass else EdgePending
            else EdgeViolated)
  | None => None
  end.

(** The verdict of the first edge, in the order of [job.start_conditions],
    that does not pass; [EdgePass] when every edge passes. *)
Fixpoint start_verdict (w : World) (scs : list StartCondition) : option edge_verdict :=
  match scs with
  | [] => Some EdgePass
  | sc :: rest =>
      match verdict_of w sc with
      | Some EdgePass => start_verdict w rest
      | v => v
      end
  end.

(** A job [c] that waits for [a] (still running) and for [b] (failed), both
    on [success]. *)
Definition world_two_edges : World :=
  demo_cache [("1_1_status", CStr "running"); ("1_2_status", CStr "failed");
              ("1_3_status", CStr "waiting")]
    (demo_world [demo_pipeline] [demo_job 1 "a"; demo_job 2 "b"; demo_job 3 "c"]
       [mkStartCondition 1 3 1 "success"; mkStartCondition 2 3 2 "success"] []).

(** A job [b] that waits, on [success], for the failed job [a]. *)
Definition world_violated : World :=
  demo_cache [("1_1_status", CStr "failed"); ("1_2_status", CStr "waiting")]
    (demo_world [demo_pipeline] [demo_job 1 "a"; demo_job 2 "b"]
       [mkStartCondition 1 2 1 "success"] []).

(** ** Pipeline counters and reachable worlds *)

Definition pipeline_failed_key (pid : Z) : string :=
  (pretty pid +:+ "_") +:+ CACHE_KEY_FAILED_JOBS.

Definition pipeline_remaining_key (pid : Z) : string :=
  (pretty pid +:+ "_") +:+ CACHE_KEY_REMAINING_JOBS.

(** The counters of pipeline [pid], where the cache holds them, are
    integers with [0 <= failed_jobs] and [0 <= remaining_jobs <= |jobs|]. *)
Definition counters_bounded (pid : Z) (w : World) : Prop :=
  match cache w !! pipeline_failed_key pid with
  | None => True
  | Some (CInt n) => 0 <= n
  | Some _ => False
  end
  /\ match cache w !! pipeline_remaining_key pid with
     | None => True
     | Some (CInt n) => 0 <= n <= Z.of_nat (length (Pipeline_jobs pid w))
     | Some _ => False
     end.

Inductive op :=
  | OpStart (pid : Z)
  | OpStop (pid : Z)
  | OpWorkerSucceeded (jid : Z) (task_name : string)
  | OpWorkerFailed (jid : Z) (task_name : string).

Definition run_op (fuel : nat) (o : op) : M unit :=
  match o with
  | OpStart pid => Pipeline_start fuel pid ;;; ret tt
  | OpStop pid => Pipeline_stop pid ;;; ret tt
  | OpWorkerSucceeded jid task_name => Job_worker_succeeded fuel jid task_name
  | OpWorkerFailed jid task_name => Job_worker_failed fuel jid task_name
  end.

(** The world an operation leaves, whether it returns or raises. *)
Definition world_after {A} (r : outcome A) : option World :=
  match r with
  | Ret _ w => Some w
  | Raise _ w => Some w
  | Timeout => None
  end.

Inductive reachable (w0 : World) : World -> Prop :=
  | reach_init : reachable w0 w0
  | reach_step w fuel o w' :
      reachable w0 w -> world_after (run_op fuel o w) = Some w' -> reachable w0 w'.

Fixpoint run_ops (fuel : nat) (os : list op) (w : World) : option World :=
  match os with
  | [] => Some w
  | o :: os' =>
      match world_after (run_op fuel o w) with
      | Some w' => run_ops fuel os' w'
      | None => None
      end
  end.

(** One idle pipeline with a single job, and nothing in the cache. *)
Definition world_one_job : World :=
  demo_world [demo_pipeline] [demo_job 1 "a"] [] [].

(** One idle pipeline with two independent jobs. *)
Definition world_two_jobs : World :=
  demo_world [demo_pipeline] [demo_job 1 "a"; demo_job 2 "b"] [] [].

(** ** Outcomes and invariants of computations *)

(** The outcome of a computation from [w]: [Q] holds of the answer and of
    the world on return, [E] of the world on an exception; [T] is what is
    asked of a run that exhausts its fuel ([True] to tolerate it, [False] to
    exclude it). *)
Definition wp (T : Prop) {A} (m : M A) (w : World)
    (Q : A -> World -> Prop) (E : World -> Prop) : Prop :=
  match m w with
  | Ret a w' => Q a w'
  | Raise _ w' => E w'
  | Timeout => T
  end.

(** A computation keeps [I], whether it returns or raises. *)
Definition keeps (T : Prop) (I : World -> Prop) {A} (m : M A) : Prop :=
  forall w, I w -> wp T m w (fun _ => I) I.

(** A computation leaves the world as it found it. *)
Definition reads (T : Prop) {A} (m : M A) : Prop :=
  forall w, wp T m w (fun _ w' => w' = w) (fun w' => w' = w).

(** What the handlers of a job ask of a property of the world for keeping
    it: it depends on the cache, the job rows, the params and the start
    conditions only, and each
    single write of the handlers keeps it. *)
Record job_invariant (Inv : World -> Prop) : Prop := {
  inv_frame :
    forall w w', cache w' = cache w -> jobs w' = jobs w -> params w' = params w ->
                 start_conditions w' = start_conditions w -> Inv w -> Inv w';
  inv_status :
    forall w self s, s <> "waiting" -> Inv w ->
      Inv (set_cache_map (insert (job_status_key self) (CStr s)) w);
  inv_list :
    forall w self v, Inv w -> Inv (set_cache_map (insert (job_list_key self) v) w);
  inv_enqueued :
    forall w self v, Inv w -> Inv (set_cache_map (insert (job_enqueued_key self) v) w);
  inv_failed :
    forall w self v, Inv w ->
      increase_handler None (cache w !! job_failed_key self) = inr v ->
      Inv (set_cache_map (insert (job_failed_key self) v) w);
  inv_remaining :
    forall w self pid v, Inv w -> job_pipeline_id self = Some pid ->
      decrease_handler (Some (Z.of_nat (length (Pipeline_jobs pid w))))
        (cache w !! job_remaining_key self) = inr v ->
      Inv (set_cache_map (insert (job_remaining_key self) v) w);
  inv_job_status :
    forall w jid st t, st <> "waiting" -> Inv w ->
      Inv (set_jobs
             (List.map (fun j => if job_id_ j =? jid then job_with_status st t j else j))
             w);
  inv_job_count :
    forall w jid (g : Job -> Z), Inv w ->
      Inv (set_jobs
             (List.map (fun j => if job_id_ j =? jid then job_with_count (g j) j else j))
             w)
}.

(** What [Pipeline.start] asks in addition: the writes of [get_ready] and of
    [prepare_for_start]. *)
Record start_invariant (Inv : World -> Prop) : Prop := {
  inv_job : job_invariant Inv;
  inv_waiting :
    forall w self, Inv w ->
      Inv (set_cache_map (insert (job_status_key self) (CStr "waiting")) w);
  inv_get_ready :
    forall w pid, Inv w -> Inv (set_cache_map (fun _ => cache_after_get_ready pid w) w)
}.

(** One unfolding of [Param.val], with the property it calls on the other
    params passed in. *)
Definition Param_val_body (val : Param -> M pval) (self : Param) : M pval :=
  if String.eqb (param_type self) "boolean" then
    ret (VBool (String.eqb (param_value self) "1"))
  else
    val <- Param__expand_vars val self (param_value self) ;;
    if String.eqb (param_type self) "number" then
      ret (VNum (_parse_num val))
    else if String.eqb (param_type self) "string_list" then
      ret (VStrList (split_lines val))
    else if String.eqb (param_type self) "number_list" then
      ret (VNumList
             (List.map _parse_num
                (List.filter (fun l => str_truthy (py_strip l)) (split_lines val))))
    else ret (VStr val).

(** Every param has one scope at most. *)
Definition scoped_params (w : World) : Prop :=
  forall p, In p (params w) -> param_job_id p = None \/ param_pipeline_id p = None.

(** The rows whose effective status is [waiting]. *)
Definition waiting_row (w : World) (j : Job) : bool :=
  status_is (default (CStr (job_status j)) (cache w !! job_status_key j)) "waiting".

Definition waiting_count (w : World) : nat :=
  length (List.filter (waiting_row w) (jobs w)).

(** At most [k] rows wait, and the params are scoped. *)
Definition at_most_waiting (k : nat) (w : World) : Prop :=
  (waiting_count w <= k)%nat /\ scoped_params w.

(** The number of job rows and the scopes of the params: kept by every
    handler, and enough for [at_most_waiting]. *)
Definition sized (n : nat) (w : World) : Prop :=
  (length (jobs w) <= n)%nat /\ scoped_params w.

(** ** Further worlds and readings *)

(** Three jobs: [a] has failed; [b] waits for [a] and for [c], [c] waits for
    [b], all on [success], so that [b] and [c] wait for each other. *)
Definition world_cycle : World :=
  demo_cache [("1_1_status", CStr "failed"); ("1_2_status", CStr "waiting");
              ("1_3_status", CStr "waiting")]
    (demo_world [demo_pipeline] [demo_job 1 "a"; demo_job 2 "b"; demo_job 3 "c"]
       [mkStartCondition 1 2 1 "success"; mkStartCondition 2 2 3 "success";
        mkStartCondition 3 3 2 "success"] []).

(** A param that carries both a job and a pipeline: it is one of the
    pipeline params that its own evaluation goes through. *)
Definition param_loop : Param := mkParam 4 "v" "string" (Some 1) (Some 1) None "x".

Definition world_loop : World :=
  demo_world [demo_pipeline] [demo_job 1 "a"] [] [param_loop].

(** The columns of a job row that identify it and its work. *)
Definition job_identity (j : Job) : Z * option string * option string * option Z :=
  (job_id_ j, job_name j, job_worker_class j, job_pipeline_id j).

(** The tables that the operations leave alone, and the identity of the
    job rows. *)
Definition same_rows (w0 w : World) : Prop :=
  List.map job_identity (jobs w) = List.map job_identity (jobs w0)
  /\ params w = params w0
  /\ start_conditions w = start_conditions w0.

Definition is_start (o : op) : bool :=
  match o with OpStart _ => true | _ => false end.

(** The computation has returned (it has neither raised nor run out of
    fuel). *)
Definition returned {A} (r : outcome A) : bool :=
  match r with Ret _ _ => true | _ => false end.

(** A job whose only param names something that the evaluator does not
    know. *)
Definition param_bad : Param :=
  mkParam 5 "q" "string" None (Some 1) (Some "Q") "{% nope %}".

Definition world_bad_param : World :=
  demo_world [demo_pipeline] [demo_job 1 "a"] [] [param_bad].

(** The log entry of [Job.get_ready] for a param that cannot be
    evaluated. *)
Definition bad_param_entry (self : Job) (param : Param) (e : exn) : LogEntry :=
  mkLogEntry (job_pipeline_id self) (job_id_ self) (job_worker_class self)
             "ERROR" (param_label param) e.

(** ** The keys of [Pipeline.get_ready] and the counters of the jobs *)

(** The three keys that [Pipeline.get_ready] writes hold what it writes for
    a pipeline of [n] jobs. *)
Definition reset_keys (n : nat) (w : World) : Prop :=
  cache w !! CACHE_KEY_FAILED_JOBS = Some (CInt 0)
  /\ cache w !! CACHE_KEY_REMAINING_JOBS = Some (CInt (Z.of_nat n))
  /\ cache w !! CACHE_KEY_LIST_OF_TASKS_ENQUEUED = Some (CList []).

(** The entries under which the handlers of the jobs keep the number of
    failed jobs, the number of remaining jobs and the task list of a
    pipeline are the same in both worlds. *)
Definition same_pipeline_counters (w w' : World) : Prop :=
  forall self : Job,
    cache w' !! job_failed_key self = cache w !! job_failed_key self
    /\ cache w' !! job_remaining_key self = cache w !! job_remaining_key self
    /\ cache w' !! job_list_key self = cache w !! job_list_key self.

(** The number of failed jobs that the handlers keep for the pipeline of
    [self] is [n] at least. *)
Definition failed_jobs_at_least (self : Job) (n : Z) (w : World) : Prop :=
  exists n', n <= n' /\ cache w !! job_failed_key self = Some (CInt n').

(** One of the two checks of [Pipeline.start] rejects the start: the
    pipeline has no job, or the effective status of one of its jobs is not
    among [idle], [succeeded] and [failed]. *)
Definition start_rejected (pid : Z) (w : World) : Prop :=
  Pipeline_jobs pid w = []
  \/ exists j st, In j (Pipeline_jobs pid w)
                  /\ effective_status w (job_id_ j) = Some st
                  /\ status_in st ["idle"; "succeeded"; "failed"] = false.

(** A pipeline after a run in which its only job has failed: the handlers
    have left [1_failed_jobs = 1] and [1_remaining_jobs = 0]. *)
Definition world_after_failed_run : World :=
  demo_cache [("1_1_status", CStr "failed"); ("1_1_enqueued_tasks", CInt 0);
              ("1_failed_jobs", CInt 1); ("1_remaining_jobs", CInt 0);
              ("1_list_of_tasks_enqueued", CList [])]
    (demo_world [pipeline_with_status "failed" None demo_pipeline]
       [job_with_status "failed" 0 (demo_job 1 "a")] [] []).

(** A pipeline in the middle of a run: two failed jobs counted, one task in
    flight. *)
Definition world_counting : World :=
  demo_cache [("1_failed_jobs", CInt 2); ("1_list_of_tasks_enqueued", CList ["t1"])]
    (demo_world [demo_pipeline] [demo_job 1 "a"] [] []).

(** ** Characters of a text *)

Fixpoint string_forall (P : ascii -> bool) (s : string) : bool :=
  match s with
  | EmptyString => true
  | String c s' => P c && string_forall P s'
  end.

(** The characters that [re.sub(r'[^-_0-9a-zA-Z]', '-', ...)] keeps. *)
Definition task_name_char (c : ascii) : bool :=
  Ascii.eqb c "-"%char || Ascii.eqb c "_"%char || is_digit c || is_alpha c.

Definition not_underscore (c : ascii) : bool := negb (Ascii.eqb c "_"%char).

Definition sign_or_digit (c : ascii) : bool := Ascii.eqb c "-"%char || is_digit c.

Definition not_space (c : ascii) : bool := negb (Ascii.is_space c).

Definition not_newline (c : ascii) : bool := negb (is_newline c).

Definition not_brace (c : ascii) : bool := negb (Ascii.eqb c "{"%char).

(** ** Destroying a job

    Modelled from the spec: [core/database.py] ([BaseModel]) is not part of
    the sources at hand.  Section 4.2 of the specification gives the
    primitives of the store: [where(filters).all()], [destroy(ids...)],
    which removes the rows whose primary key is one of the ids, and the
    removal of a row itself. *)

Definition set_start_conditions
    (f : list StartCondition -> list StartCondition) (w : World) : World :=
  mkWorld (pipelines w) (jobs w) (f (start_conditions w)) (params w) (cache w)
          (taskqueue w) (mails w) (logs w) (clock w) (ticks w)
          (uuid_source w) (uuid_drawn w) (simple_eval_str w).

Definition set_params (f : list Param -> list Param) (w : World) : World :=
  mkWorld (pipelines w) (jobs w) (start_conditions w) (f (params w)) (cache w)
          (taskqueue w) (mails w) (logs w) (clock w) (ticks w)
          (uuid_source w) (uuid_drawn w) (simple_eval_str w).

Definition id_in (ids : list Z) (i : Z) : bool := existsb (Z.eqb i) ids.

(** [StartCondition.destroy(ids...)] *)
Definition StartCondition_destroy (ids : list Z) : M unit :=
  modify (set_start_conditions (List.filter (fun sc => negb (id_in ids (sc_id sc))))).

(** [Param.destroy(ids...)] *)
Definition Param_destroy (ids : list Z) : M unit :=
  modify (set_params (List.filter (fun p => negb (id_in ids (param_id p))))).

(** [self.delete()] for a job *)
Definition Job_delete (jid : Z) : M unit :=
  modify (set_jobs (List.filter (fun j => negb (job_id_ j =? jid)%Z))).

(** [StartCondition.where(preceding_job_id=jid).all()] *)
Definition StartCondition_where_preceding (jid : Z) (w : World) : list StartCondition :=
  List.filter (fun sc => (sc_preceding_job_id sc =? jid)%Z) (start_conditions w).

Definition nonempty {A} (l : list A) : bool :=
  match l with [] => false | _ => true end.

(** [Job.destroy] *)
Definition Job_destroy (jid : Z) : M unit :=
  sc_ids <- gets (fun w => List.map sc_id (Job_start_conditions jid w)) ;;
  (if nonempty sc_ids then StartCondition_destroy sc_ids else ret tt) ;;;
  dependent_job_sc_ids <-
    gets (fun w => List.map sc_id (StartCondition_where_preceding jid w)) ;;
  (if nonempty dependent_job_sc_ids
   then StartCondition_destroy dependent_job_sc_ids else ret tt) ;;;
  param_ids <- gets (fun w => List.map param_id (Job_params jid w)) ;;
  (if nonempty param_ids then Param_destroy param_ids else ret tt) ;;;
  Job_delete jid.

(** A start condition, or a param, that mentions the job. *)
Definition sc_mentions (jid : Z) (sc : StartCondition) : bool :=
  (sc_job_id sc =? jid)%Z || (sc_preceding_job_id sc =? jid)%Z.

Definition param_of_job (jid : Z) (p : Param) : bool :=
  bool_decide (param_job_id p = Some jid).

(** Two jobs, the second waiting for the first, each with a param, and a
    param of the pipeline. *)
Definition world_with_relations : World :=
  demo_world [demo_pipeline] [demo_job 1 "a"; demo_job 2 "b"]
    [mkStartCondition 1 2 1 "success"]
    [mkParam 1 "p" "string" None (Some 1) None "u";
     mkParam 2 "q" "string" None (Some 2) None "v";
     mkParam 3 "r" "string" (Some 1) None None "w"].

(** ** Stopping a pipeline *)

(** The status that [Job.stop] leaves in the row of a job: a waiting job is
    marked failed and a running one stopping. *)
Definition stopped_status (s : string) : string :=
  if String.eqb s "waiting" then "failed"
  else if String.eqb s "running" then "stopping"
  else s.

(** What [get_status] answers for the job of row [j] once [Job.stop] was
    called on it: the cached status, which the stop does not touch, or else
    the status that the stop has left in the row. *)
Definition status_after_stop (w : World) (j : Job) : cval :=
  default (CStr (stopped_status (job_status j))) (cache w !! job_status_key j).

(** Row [j1] is row [j] after [Job.stop] was called on the jobs of ids
    [ids]: only the status and its time stamp may differ. *)
Definition stopped_row (ids : list Z) (j j1 : Job) : Prop :=
  job_identity j1 = job_identity j
  /\ job_enqueued_workers_count j1 = job_enqueued_workers_count j
  /\ job_status j1
     = if id_in ids (job_id_ j) then stopped_status (job_status j) else job_status j.

(** Every job of the pipeline reports [succeeded] or [failed] after the
    stops. *)
Definition all_settled (w : World) (pid : Z) : Prop :=
  forall j, In j (Pipeline_jobs pid w) ->
            status_in (status_after_stop w j) ["succeeded"; "failed"] = true.

(** Some sink job of the pipeline reports [failed] after the stops. *)
Definition sink_failed_after_stop (w : World) (pid : Z) : Prop :=
  exists j, sink_job w pid j /\ status_after_stop w j = CStr "failed".

Definition terminalb (w : World) (j : Job) : bool :=
  match effective_status w (job_id_ j) with
  | Some st => status_in st ["succeeded"; "failed"]
  | None => false
  end.

(** A running pipeline of three jobs: [a] has succeeded, [b], which follows
    [a], waits, and [c] has failed according to the cache. *)
Definition world_stopping : World :=
  demo_cache [("1_3_status", CStr "failed")]
    (demo_world [pipeline_with_status "running" None demo_pipeline]
       [job_with_status "succeeded" 0 (demo_job 1 "a");
        job_with_status "waiting" 0 (demo_job 2 "b");
        demo_job 3 "c"]
       [mkStartCondition 1 2 1 "success"] []).

(** The name that [Job.enqueue] gives to the next task of a job. *)
Definition next_task_name (self : Job) (pipeline : Pipeline) (w : World) : string :=
  escape_task_name
    (py_str (pipeline_name pipeline) +:+ "_" +:+ py_str (job_name self)
       +:+ "_" +:+ py_str (job_worker_class self))
  +:+ "_" +:+ uuid_source w (uuid_drawn w).

(** A job that ran before: its task counter in the cache is still at 2, and
    its only param cannot be evaluated. *)
Definition world_rerun : World :=
  demo_cache [("1_1_enqueued_tasks", CInt 2)]
    (demo_world [demo_pipeline] [demo_job 1 "a"] [] []).

Definition world_rerun_bad_param : World :=
  demo_cache [("1_1_enqueued_tasks", CInt 2)]
    (demo_world [demo_pipeline] [demo_job 1 "a"] [] [param_bad]).

(** ** Assigning the start conditions of a job

    Modelled from the spec: the store of [core/database.py] is not part of
    the sources at hand.  Section 4.2 of the specification gives its
    primitives: [create], which adds a row under an id of the store's
    choosing, [where(filters).first()], [where(filters).delete()] and the
    saving of a row.  The id given to a new row is read from [next_id]. *)

(** A JSON integer or a JSON text, as [int()] takes them. *)
Inductive json_scalar :=
  | JInt (z : Z)
  | JText (s : string).

Record StartConditionArg := mkStartConditionArg {
  arg_preceding_job_id : json_scalar;
  arg_condition : string
}.

(** [int(x)]; [None] stands for [ValueError].  What [int] reads in a text is
    [int_text]: a decoded JSON text is a unicode text, in which [int] reads
    more than the ASCII digits, so that the reading is not fixed here. *)
Definition int_of_scalar (int_text : string -> option Z) (x : json_scalar)
    : option Z :=
  match x with
  | JInt z => Some z
  | JText s => int_text s
  end.

(** [StartCondition.parse_value] *)
Definition StartCondition_parse_value (int_text : string -> option Z)
    (value : StartConditionArg) : M (Z * string) :=
  match int_of_scalar int_text (arg_preceding_job_id value) with
  | Some z => ret (z, arg_condition value)
  | None => raise ValueError
  end.

(** [StartCondition.create(job_id=..., preceding_job_id=..., condition=...)] *)
Definition StartCondition_create (next_id : list StartCondition -> Z)
    (job_id preceding_job_id : Z) (condition : string) : M unit :=
  modify (set_start_conditions
            (fun scs => scs ++ [mkStartCondition (next_id scs) job_id preceding_job_id
                                  condition])).

(** [StartCondition.where(job_id=..., preceding_job_id=...).first()] *)
Definition StartCondition_first (job_id preceding_job_id : Z) (w : World)
    : option StartCondition :=
  List.find (fun sc => (sc_job_id sc =? job_id)%Z
                       && (sc_preceding_job_id sc =? preceding_job_id)%Z)
    (start_conditions w).

(** [sc.condition = condition; sc.save()]: the row of the primary key of
    [sc] takes the condition. *)
Definition save_row (sc : StartCondition) (condition : string) (r : StartCondition)
    : StartCondition :=
  if (sc_id r =? sc_id sc)%Z
  then mkStartCondition (sc_id r) (sc_job_id r) (sc_preceding_job_id r) condition
  else r.

Definition StartCondition_save_condition (sc : StartCondition) (condition : string)
    : M unit :=
  modify (set_start_conditions (List.map (save_row sc condition))).

(** [StartCondition.where(job_id=..., preceding_job_id__in=ids).delete()] *)
Definition StartCondition_delete_where (job_id : Z) (ids : list Z) : M unit :=
  modify (set_start_conditions
            (List.filter (fun sc => negb ((sc_job_id sc =? job_id)%Z
                                          && id_in ids (sc_preceding_job_id sc))))).

(** The body of the loop of [Job.assign_start_conditions]; the sets of ids
    are lists, of which only the membership is asked. *)
Definition assign_step (next_id : list StartCondition -> Z) (jid : Z)
    (new_sc_ids sc_intersection_ids : list Z) (v : Z * string) : M unit :=
  if id_in new_sc_ids (fst v) then
    StartCondition_create next_id jid (fst v) (snd v)
  else if id_in sc_intersection_ids (fst v) then
    sc <- gets (StartCondition_first jid (fst v)) ;;
    match sc with
    | Some sc => StartCondition_save_condition sc (snd v)
    | None => raise AttributeError
    end
  else ret tt.

(** [Job.assign_start_conditions] *)
Definition Job_assign_start_conditions (int_text : string -> option Z)
    (next_id : list StartCondition -> Z)
    (jid : Z) (arg_start_conditions : list StartConditionArg) : M unit :=
  scs <- map_m arg_start_conditions (StartCondition_parse_value int_text) ;;
  let arg_sc_ids := List.map fst scs in
  cur_sc_ids <- gets (fun w => List.map sc_preceding_job_id (Job_start_conditions jid w)) ;;
  let sc_intersection_ids := List.filter (id_in cur_sc_ids) arg_sc_ids in
  let new_sc_ids := List.filter (fun i => negb (id_in cur_sc_ids i)) arg_sc_ids in
  for_each scs (assign_step next_id jid new_sc_ids sc_intersection_ids) ;;;
  let delete_sc_ids := List.filter (fun i => negb (id_in arg_sc_ids i)) cur_sc_ids in
  StartCondition_delete_where jid delete_sc_ids.

(** The preceding jobs that the start conditions of a job name, each with
    its condition, and the start conditions of the other jobs. *)
Definition preceding_ids (jid : Z) (w : World) : list Z :=
  List.map sc_preceding_job_id (Job_start_conditions jid w).

Definition Job_conditions (jid : Z) (w : World) : list (Z * string) :=
  List.map (fun sc => (sc_preceding_job_id sc, sc_condition sc))
    (Job_start_conditions jid w).

Definition other_rows (jid : Z) (w : World) : list StartCondition :=
  List.filter (fun sc => negb (sc_job_id sc =? jid)%Z) (start_conditions w).

Definition other_edges (jid : Z) (w : World) : list (Z * Z) :=
  List.map (fun sc => (sc_job_id sc, sc_preceding_job_id sc)) (other_rows jid w).

(** [w'] is [w] but for the table of the start conditions. *)
Definition only_start_conditions_differ (w w' : World) : Prop :=
  w' = set_start_conditions (fun _ => start_conditions w') w.

(** The store numbers a new row after the largest id in use. *)
Definition next_after_max (scs : list StartCondition) : Z :=
  1 + fold_right Z.max 0 (List.map sc_id scs).

(** A job with conditions on the jobs [1] and [2]; another job with one on
    the job [1]. *)
Definition world_conditions : World :=
  demo_world [demo_pipeline] [demo_job 1 "a"; demo_job 2 "b"; demo_job 3 "c"; demo_job 4 "d"]
    [mkStartCondition 1 3 1 "success"; mkStartCondition 2 3 2 "fail";
     mkStartCondition 3 4 1 "whatever"] [].

(** * [crmint_commands/dev.py]: the configuration files of [setup]

    The files are a map from paths to contents; a path is taken as the name
    of a file, directories exist and files can be read and written. *)

Inductive file_error :=
  | IOError          (* [copyfile]: the source cannot be opened *)
  | SameFileError.   (* [copyfile]: source and destination are one file *)

(** What a command leaves: the files, and the exception if it raised. *)
Inductive files_outcome :=
  | Done (fs : gmap string string)
  | Failed (e : file_error) (fs : gmap string string).

Definition files_of (r : files_outcome) : gmap string string :=
  match r with Done fs => fs | Failed _ fs => fs end.

(** [os.path.exists(path)] *)
Definition os_path_exists (path : string) (fs : gmap string string) : bool :=
  bool_decide (is_Some (fs !! path)).

(** [shutil.copyfile(src, dst)] *)
Definition copyfile (src dst : string) (fs : gmap string string) : files_outcome :=
  if String.eqb src dst then Failed SameFileError fs
  else match fs !! src with
       | Some data => Done (<[dst := data]> fs)
       | None => Failed IOError fs
       end.

Definition starts_with_slash (s : string) : bool :=
  match s with String "/" _ => true | _ => false end.

Fixpoint ends_with_slash (s : string) : bool :=
  match s with
  | EmptyString => false
  | String "/" EmptyString => true
  | String _ s' => ends_with_slash s'
  end.

(** [os.path.join(a, b)] *)
Definition os_path_join (a b : string) : string :=
  if starts_with_slash b then b
  else if String.eqb a "" || ends_with_slash a then a +:+ b
  else a +:+ "/" +:+ b.

Definition CONFIG_FILES : list (string * string) :=
  [ ("backends/instance/config.py.example", "backends/instance/config.py");
    ("backends/gae_dev_ibackend.yaml.example", "backends/gae_dev_ibackend.yaml");
    ("backends/gae_dev_jbackend.yaml.example", "backends/gae_dev_jbackend.yaml");
    ("backends/data/app.json.example", "backends/data/app.json");
    ("backends/data/service-account.json.example",
     "backends/data/service-account.json") ].

Definition _create_config_file (example_path dest : string) (fs : gmap string string)
    : files_outcome :=
  if negb (os_path_exists dest fs) then copyfile example_path dest fs
  else Done fs.

(** The loop of [_create_all_configs] over a list of configs, with
    [constants.PROJECT_DIR] given. *)
Fixpoint create_configs (PROJECT_DIR : string) (configs : list (string * string))
    (fs : gmap string string) : files_outcome :=
  match configs with
  | [] => Done fs
  | config :: rest =>
      let full_src_path := os_path_join PROJECT_DIR (fst config) in
      let full_dest_path := os_path_join PROJECT_DIR (snd config) in
      match _create_config_file full_src_path full_dest_path fs with
      | Done fs' => create_configs PROJECT_DIR rest fs'
      | Failed e fs' => Failed e fs'
      end
  end.

Definition _create_all_configs (PROJECT_DIR : string) (fs : gmap string string)
    : files_outcome :=
  create_configs PROJECT_DIR CONFIG_FILES fs.

(** A checkout in which two of the config files are there already. *)
Definition checkout_files : gmap string string :=
  list_to_map
    [ ("/crmint/backends/instance/config.py.example", "A");
      ("/crmint/backends/instance/config.py", "mine");
      ("/crmint/backends/gae_dev_ibackend.yaml.example", "B");
      ("/crmint/backends/gae_dev_jbackend.yaml.example", "C");
      ("/crmint/backends/data/app.json.example", "D");
      ("/crmint/backends/data/app.json", "{}");
      ("/crmint/backends/data/service-account.json.example", "E") ].

(** * Properties *)

(** ** The monad *)

Lemma bind_ret_l {A B} (a : A) (k : A -> M B) w : bind (ret a) k w = k a w.
Proof. reflexivity. Qed.

Lemma bind_Ret {A B} (m : M A) (k : A -> M B) w a w' :
  m w = Ret a w' -> bind m k w = k a w'.
Proof. intros H. unfold bind. now rewrite H. Qed.


Lemma bind_assoc {A B C} (m : M A) (k : A -> M B) (h : B -> M C) w :
  bind (bind m k) h w = bind m (fun a => bind (k a) h) w.
Proof. unfold bind. destruct (m w); reflexivity. Qed.

Lemma bind_gets {A B} (f : World -> A) (k : A -> M B) w :
  bind (gets f) k w = k (f w) w.
Proof. reflexivity. Qed.

Lemma bind_modify {B} (f : World -> World) (k : unit -> M B) w :
  bind (modify f) k w = k tt (f w).
Proof. reflexivity. Qed.

Lemma bind_datetime_now {B} (k : Z -> M B) w :
  bind datetime_now k w = k (clock w (ticks w)) (set_ticks S w).
Proof. reflexivity. Qed.

(** Projections of a world rebuilt by the setters. *)
Ltac world_simpl :=
  cbn [pipelines jobs start_conditions params cache taskqueue mails logs clock
       ticks uuid_source uuid_drawn simple_eval_str
       set_pipelines set_jobs set_cache_map set_taskqueue set_mails set_logs
       set_ticks set_uuid_drawn].

Tactic Notation "world_simpl" "in" hyp(H) :=
  cbn [pipelines jobs start_conditions params cache taskqueue mails logs clock
       ticks uuid_source uuid_drawn simple_eval_str
       set_pipelines set_jobs set_cache_map set_taskqueue set_mails set_logs
       set_ticks set_uuid_drawn] in H.

Lemma cache_update_inr key fn w v :
  fn (cache w !! key) = inr v ->
  memcache_set_cache_with_value_function key fn w
  = Ret tt (set_cache_map (insert key v) w).
Proof. intros H. unfold memcache_set_cache_with_value_function. now rewrite H. Qed.

Lemma cache_update_inl key fn w e :
  fn (cache w !! key) = inl e ->
  memcache_set_cache_with_value_function key fn w = Raise e w.
Proof. intros H. unfold memcache_set_cache_with_value_function. now rewrite H. Qed.

Lemma bind_uuid4 {B} (k : string -> M B) w :
  bind uuid_uuid4 k w = k (uuid_source w (uuid_drawn w)) (set_uuid_drawn S w).
Proof. reflexivity. Qed.

(** Normal form of a sequence of binds. *)
Ltac mnorm :=
  cbv beta;
  repeat ((rewrite bind_assoc || rewrite bind_ret_l || rewrite bind_gets); cbv beta).

(** Run the first computation of a sequence, given its outcome. *)
Ltac mret H := rewrite (bind_Ret _ _ _ _ _ H); mnorm.

Lemma Job_find_Some jid w self :
  lookup_job jid w = Some self -> Job_find jid w = Ret self w.
Proof. intros H. unfold Job_find. now rewrite H. Qed.

Lemma Pipeline_find_Some pid w p :
  lookup_pipeline pid w = Some p -> Pipeline_find pid w = Ret p w.
Proof. intros H. unfold Pipeline_find. now rewrite H. Qed.

Lemma lookup_job_id jid w self : lookup_job jid w = Some self -> job_id_ self = jid.
Proof.
  unfold lookup_job. intros H. apply find_some in H as [_ H].
  now apply Z.eqb_eq in H.
Qed.

Lemma lookup_job_In jid w self : lookup_job jid w = Some self -> In self (jobs w).
Proof. unfold lookup_job. intros H. now apply find_some in H as [H _]. Qed.

Lemma lookup_pipeline_id pid w p :
  lookup_pipeline pid w = Some p -> pipeline_id_ p = pid.
Proof.
  unfold lookup_pipeline. intros H. apply find_some in H as [_ H].
  now apply Z.eqb_eq in H.
Qed.

Lemma In_lookup_job j w : In j (jobs w) -> is_Some (lookup_job (job_id_ j) w).
Proof.
  intros Hin. unfold lookup_job.
  destruct (find _ _) eqn:E; [eauto|].
  eapply find_none in E; [|exact Hin]. simpl in E.
  rewrite Z.eqb_refl in E. discriminate.
Qed.

Lemma Job_get_status_eq jid w v :
  effective_status w jid = Some v -> Job_get_status jid w = Ret v w.
Proof.
  unfold effective_status, Job_get_status. intros H.
  destruct (lookup_job jid w) as [self|] eqn:E; [|discriminate].
  injection H as <-.
  rewrite (bind_Ret _ _ _ _ _ (Job_find_Some _ _ _ E)).
  unfold bind, memcache_get, gets, ret.
  destruct (cache w !! job_status_key self); reflexivity.
Qed.

(** ** Strings and cache keys *)

Lemma string_app_nil_l s : "" +:+ s = s.
Proof. reflexivity. Qed.

Lemma string_app_cons a s t : String a s +:+ t = String a (s +:+ t).
Proof. reflexivity. Qed.

Lemma string_app_assoc s t u : (s +:+ t) +:+ u = s +:+ (t +:+ u).
Proof.
  induction s as [|a s IH]; [reflexivity|].
  rewrite !string_app_cons. now rewrite IH.
Qed.

Lemma string_app_length s t :
  String.length (s +:+ t) = (String.length s + String.length t)%nat.
Proof.
  induction s as [|a s IH]; [reflexivity|].
  rewrite string_app_cons. simpl. now rewrite IH.
Qed.

(** Two keys that end in different texts of the same length differ. *)
Lemma string_app_suffix_inj p q s t :
  String.length s = String.length t -> p +:+ s = q +:+ t -> p = q /\ s = t.
Proof.
  revert q. induction p as [|a p IH]; intros [|b q] Hlen Heq.
  - now split.
  - rewrite string_app_nil_l in Heq. subst s.
    rewrite string_app_length in Hlen. simpl in Hlen. lia.
  - rewrite string_app_nil_l in Heq. subst t.
    rewrite string_app_length in Hlen. simpl in Hlen. lia.
  - rewrite !string_app_cons in Heq. injection Heq as -> Heq.
    destruct (IH q Hlen Heq) as [-> ->]. now split.
Qed.

Lemma string_app_suffix_neq p q s t :
  String.length s = String.length t -> s <> t -> p +:+ s <> q +:+ t.
Proof. intros Hlen Hne Heq. now apply string_app_suffix_inj in Heq as [_ ?]. Qed.

Lemma ends_with_app p s suffix : ends_with suffix s -> ends_with suffix (p +:+ s).
Proof. intros [q ->]. exists (p +:+ q). now rewrite string_app_assoc. Qed.

Lemma ends_with_neq suf1 suf2 s1 s2 :
  ends_with suf1 s1 -> ends_with suf2 s2 ->
  String.length suf1 = String.length suf2 -> suf1 <> suf2 -> s1 <> s2.
Proof. intros [p ->] [q ->] Hlen Hne. now apply string_app_suffix_neq. Qed.

Lemma string_app_prefix_neq p s : p <> "" -> p +:+ s <> s.
Proof.
  intros Hp Heq. destruct (string_app_suffix_inj p "" s s eq_refl Heq) as [-> _].
  now apply Hp.
Qed.

Ltac solve_ends :=
  unfold job_status_key, job_enqueued_key, job_list_key, job_failed_key,
    job_remaining_key, pipeline_failed_key, pipeline_remaining_key,
    CACHE_KEY_STATUS, CACHE_KEY_ENQUEUED_TASKS,
    CACHE_KEY_LIST_OF_TASKS_ENQUEUED, CACHE_KEY_FAILED_JOBS, CACHE_KEY_REMAINING_JOBS;
  repeat apply ends_with_app;
  match goal with
  | |- ends_with ?suf ?s =>
      exists (String.substring 0 (String.length s - String.length suf)%nat s);
      vm_compute; reflexivity
  end.

Ltac key_neq_with a b :=
  apply (ends_with_neq a b); [solve_ends | solve_ends | reflexivity | discriminate].

(** Cache keys of different kinds are different texts. *)
Ltac key_neq :=
  first
    [ key_neq_with "tatus" "tasks" | key_neq_with "tatus" "ueued"
    | key_neq_with "tatus" "_jobs" | key_neq_with "tasks" "tatus"
    | key_neq_with "tasks" "ueued" | key_neq_with "tasks" "_jobs"
    | key_neq_with "ueued" "tatus" | key_neq_with "ueued" "tasks"
    | key_neq_with "ueued" "_jobs" | key_neq_with "_jobs" "tatus"
    | key_neq_with "_jobs" "tasks" | key_neq_with "_jobs" "ueued"
    | key_neq_with "led_jobs" "ing_jobs" | key_neq_with "ing_jobs" "led_jobs" ].

Lemma key_neq_examples (self other : Job) :
  job_status_key self <> job_enqueued_key other
  /\ job_status_key self <> Job__get_pipeline_prefix other +:+ CACHE_KEY_FAILED_JOBS
  /\ Job__get_pipeline_prefix other +:+ CACHE_KEY_FAILED_JOBS
       <> Job__get_pipeline_prefix self +:+ CACHE_KEY_REMAINING_JOBS
  /\ job_enqueued_key self
       <> Job__get_pipeline_prefix other +:+ CACHE_KEY_LIST_OF_TASKS_ENQUEUED
  /\ job_status_key self <> CACHE_KEY_REMAINING_JOBS.
Proof. repeat split; key_neq. Qed.

(** ** The counter handlers *)

Lemma increase_handler_nonzero db_value z :
  z <> 0 -> increase_handler db_value (Some (CInt z)) = inr (CInt (z + 1)).
Proof.
  intros Hz. unfold increase_handler. simpl.
  destruct (Z.eqb_spec z 0); [contradiction|reflexivity].
Qed.

Lemma decrease_handler_nonzero db_value z :
  z <> 0 -> decrease_handler db_value (Some (CInt z)) = inr (CInt (z - 1)).
Proof.
  intros Hz. unfold decrease_handler. simpl.
  destruct (Z.eqb_spec z 0); [contradiction|reflexivity].
Qed.

Lemma increase_handler_missing db_value :
  increase_handler db_value None
  = inr (CInt (if truthy_int db_value then default 0 db_value + 1 else 1)).
Proof. reflexivity. Qed.

Lemma decrease_handler_missing db_value :
  decrease_handler db_value None
  = inr (CInt (if truthy_int db_value then default 0 db_value - 1 else 0)).
Proof. reflexivity. Qed.

(** C7 (where the code departs from the claim): a cached counter that holds
    0 is not decremented to -1 nor incremented to 0 + 1; the handlers of
    [_decrease_value_cache] and [_increase_value_cache] take it for a
    missing value and store the seeded value instead.  With the seed 3 a
    decrement of the cached 0 stores 2. *)
Theorem C7_cached_zero_is_reseeded (self : Job) (key : string) (w : World) :
  (forall db_value,
     decrease_handler db_value (Some (CInt 0))
     = inr (CInt (if truthy_int db_value then default 0 db_value - 1 else 0)))
  /\ (forall db_value,
        increase_handler db_value (Some (CInt 0))
        = inr (CInt (if truthy_int db_value then default 0 db_value + 1 else 1)))
  /\ Job__decrease_value_cache self key (Some 3)
       (set_cache_map (insert (Job__get_pipeline_prefix self +:+ key) (CInt 0)) w)
     = Ret tt
         (set_cache_map (insert (Job__get_pipeline_prefix self +:+ key) (CInt 2))
            (set_cache_map (insert (Job__get_pipeline_prefix self +:+ key) (CInt 0)) w)).
Proof.
  split; [reflexivity|]. split; [reflexivity|].
  unfold Job__decrease_value_cache, memcache_set_cache_with_value_function.
  cbn [cache set_cache_map]. rewrite lookup_insert_eq. reflexivity.
Qed.

(** C8 (where the code departs from the claim): [Job.stop] consults the
    [status] column of the row, not the effective status.  Whenever the
    column says neither [waiting] nor [running], [stop] answers [False] and
    changes nothing, whatever the cache holds. *)
Theorem C8_stop_reads_status_column (jid : Z) (w : World) (self : Job) :
  lookup_job jid w = Some self ->
  job_status self <> "waiting" -> job_status self <> "running" ->
  Job_stop jid w = Ret false w.
Proof.
  intros Hjob Hw Hr. unfold Job_stop.
  rewrite (bind_Ret _ _ _ _ _ (Job_find_Some _ _ _ Hjob)).
  apply String.eqb_neq in Hw, Hr. now rewrite Hw, Hr.
Qed.

Lemma C8_stop_reads_status_column_witness :
  effective_status world_running 1 = Some (CStr "running")
  /\ Job_stop 1 world_running = Ret false world_running.
Proof.
  split; [reflexivity|].
  apply (C8_stop_reads_status_column 1 world_running (demo_job 1 "a"));
    [reflexivity | discriminate | discriminate].
Defined.

(** ** [Pipeline._finish] *)

Lemma status_is_true v s : status_is v s = true <-> v = CStr s.
Proof.
  destruct v as [z|t|l]; simpl; try (split; [discriminate|intros [=]]).
  rewrite String.eqb_eq. split; [now intros ->|now intros [= ->]].
Qed.

Lemma effective_status_In w j : In j (jobs w) -> is_Some (effective_status w (job_id_ j)).
Proof.
  intros Hin. unfold effective_status.
  destruct (In_lookup_job j w Hin) as [self ->]. eauto.
Qed.

Lemma Pipeline_jobs_In pid w j : In j (Pipeline_jobs pid w) -> In j (jobs w).
Proof. unfold Pipeline_jobs. intros H. now apply filter_In in H as [H _]. Qed.

Lemma Pipeline_sink_jobs_In pid w j : In j (Pipeline_sink_jobs pid w) -> In j (jobs w).
Proof.
  unfold Pipeline_sink_jobs. intros H. apply filter_In in H as [H _].
  now apply Pipeline_jobs_In in H.
Qed.

Lemma finish_scan w (sinks : list Job) :
  (forall j, In j sinks -> In j (jobs w)) ->
  for_return sinks
    (fun job =>
       st <- Job_get_status (job_id_ job) ;;
       if status_is st "failed" then ret (Some "failed") else ret None) w
  = Ret (if existsb (failedb w) sinks then Some "failed" else None) w.
Proof.
  induction sinks as [|j sinks IH]; intros Hin; [reflexivity|].
  cbn [for_return existsb].
  destruct (effective_status_In w j (Hin j (or_introl eq_refl))) as [st Hst].
  rewrite bind_assoc, (bind_Ret _ _ _ _ _ (Job_get_status_eq _ _ _ Hst)).
  unfold failedb at 1. rewrite Hst.
  destruct (status_is st "failed"); [reflexivity|].
  cbn [orb]. rewrite bind_ret_l. apply IH. intros j' Hj'. apply Hin. now right.
Qed.

Lemma Pipeline_sink_jobs_spec pid w j :
  In j (Pipeline_sink_jobs pid w) <-> sink_job w pid j.
Proof.
  unfold Pipeline_sink_jobs, Pipeline_jobs, sink_job.
  rewrite !filter_In, bool_decide_eq_true, negb_true_iff.
  rewrite <- not_true_iff_false, existsb_exists.
  split.
  - intros [[Hin Hp] Hno]. repeat split; [exact Hin|exact Hp|].
    intros sc Hsc Heq. apply Hno. exists sc. split; [exact Hsc|]. now apply Z.eqb_eq.
  - intros (Hin & Hp & Hno). repeat split; [exact Hin|exact Hp|].
    intros (sc & Hsc & Heq). apply (Hno sc Hsc). now apply Z.eqb_eq.
Qed.


Lemma find_map_update (pid : Z) (f : Pipeline -> Pipeline) (l : list Pipeline) p :
  (forall q, pipeline_id_ (f q) = pipeline_id_ q) ->
  find (fun q => pipeline_id_ q =? pid) l = Some p ->
  find (fun q => pipeline_id_ q =? pid)
    (List.map (fun q => if pipeline_id_ q =? pid then f q else q) l) = Some (f p).
Proof.
  intros Hf. induction l as [|q l IH]; [discriminate|].
  cbn [find List.map]. destruct (pipeline_id_ q =? pid) eqn:E.
  - intros [= ->]. now rewrite Hf, E.
  - rewrite E. exact IH.
Qed.




(** ** [Pipeline.start] *)

Lemma effective_status_cache_ext w w' jid :
  jobs w' = jobs w ->
  (forall self, lookup_job jid w = Some self ->
                cache w' !! job_status_key self = cache w !! job_status_key self) ->
  effective_status w' jid = effective_status w jid.
Proof.
  intros Hj Hc. unfold effective_status, lookup_job. rewrite Hj.
  destruct (find _ (jobs w)) as [self|] eqn:E; [|reflexivity].
  now rewrite (Hc self E).
Qed.

Lemma effective_status_get_ready pid w jid :
  effective_status (set_cache_map (fun _ => cache_after_get_ready pid w) w) jid
  = effective_status w jid.
Proof.
  apply effective_status_cache_ext; [reflexivity|]. intros self _.
  cbn [cache set_cache_map]. unfold cache_after_get_ready.
  rewrite !lookup_insert_ne by key_neq. reflexivity.
Qed.

Lemma start_scan w (js : list Job) :
  (forall j, In j js -> In j (jobs w)) ->
  for_return js
    (fun job =>
       st <- Job_get_status (job_id_ job) ;;
       if negb (status_in st ["idle"; "succeeded"; "failed"])
       then ret (Some false) else ret None) w
  = Ret (if forallb (startableb w) js then None else Some false) w.
Proof.
  induction js as [|j js IH]; intros Hin; [reflexivity|].
  cbn [for_return forallb].
  destruct (effective_status_In w j (Hin j (or_introl eq_refl))) as [st Hst].
  rewrite bind_assoc, (bind_Ret _ _ _ _ _ (Job_get_status_eq _ _ _ Hst)).
  unfold startableb at 1. rewrite Hst.
  destruct (status_in st _); cbn [negb andb]; [|reflexivity].
  rewrite bind_ret_l. apply IH. intros j' Hj'. apply Hin. now right.
Qed.

Lemma Pipeline_get_ready_eq pid w :
  Pipeline_get_ready pid w
  = Ret tt (set_cache_map (fun _ => cache_after_get_ready pid w) w).
Proof. reflexivity. Qed.

(** ** [Job.enqueue] *)

Lemma add_task_handler_list task_name v :
  holds_list v -> add_task_handler task_name v = inr (CList (list_of v ++ [task_name])).
Proof.
  destruct v as [[z|s|l]|]; simpl; try contradiction; intros _; [|reflexivity].
  unfold add_task_handler. simpl. now destruct l.
Qed.

Lemma increase_handler_int v :
  holds_int v -> increase_handler None v = inr (CInt (int_of v + 1)).
Proof.
  destruct v as [[z|s|l]|]; simpl; try contradiction; intros _; [|reflexivity].
  unfold increase_handler. simpl. destruct (Z.eqb_spec z 0); [now subst|reflexivity].
Qed.

Lemma find_map_update_job (jid : Z) (f : Job -> Job) (l : list Job) self :
  (forall q, job_id_ (f q) = job_id_ q) ->
  find (fun q => job_id_ q =? jid) l = Some self ->
  find (fun q => job_id_ q =? jid)
    (List.map (fun q => if job_id_ q =? jid then f q else q) l) = Some (f self).
Proof.
  intros Hf. induction l as [|q l IH]; [discriminate|].
  cbn [find List.map]. destruct (job_id_ q =? jid) eqn:E.
  - intros [= ->]. now rewrite Hf, E.
  - rewrite E. exact IH.
Qed.

Lemma Job_pipeline_Some self pid w pipeline :
  job_pipeline_id self = Some pid -> lookup_pipeline pid w = Some pipeline ->
  Job_pipeline self w = Ret pipeline w.
Proof. intros H1 H2. unfold Job_pipeline. rewrite H1. now apply Pipeline_find_Some. Qed.

(** C9 (as amended): [enqueue] answers [False] unless the effective status
    is [running].  When it is, the task is named
    [escape(pipeline.name + "_" + job.name + "_" + job.worker_class) + "_" + uuid]
    with the job's own [worker_class] (not the argument), where [escape]
    turns every character outside [A-Za-z0-9_-] into ["-"]; the name is
    appended to the task list of the pipeline, the task is handed to the
    queue with the payload [job_id], the [worker_class] argument, the worker
    params and the task name, and both the cached [enqueued_tasks] counter
    and the row's [enqueued_workers_count] grow by one. *)
Theorem C9_enqueue_names_task_after_own_worker_class
    (jid : Z) (w : World) (self : Job) (worker_class : option string)
    (worker_params : list (string * pval)) (delay : Z) :
  lookup_job jid w = Some self ->
  (forall st, effective_status w jid = Some st -> status_is st "running" = false ->
              Job_enqueue jid worker_class worker_params delay w = Ret None w)
  /\ (forall pid pipeline,
        effective_status w jid = Some (CStr "running") ->
        job_pipeline_id self = Some pid ->
        lookup_pipeline pid w = Some pipeline ->
        holds_list (cache w !! job_list_key self) ->
        holds_int (cache w !! job_enqueued_key self) ->
        let name :=
          escape_task_name
            (py_str (pipeline_name pipeline) +:+ "_" +:+ py_str (job_name self)
               +:+ "_" +:+ py_str (job_worker_class self))
          +:+ "_" +:+ uuid_source w (uuid_drawn w) in
        let task :=
          mkTask "job-service" name "/task" jid worker_class worker_params name delay in
        exists w',
          Job_enqueue jid worker_class worker_params delay w = Ret (Some task) w'
          /\ cache w' !! job_list_key self
             = Some (CList (list_of (cache w !! job_list_key self) ++ [name]))
          /\ cache w' !! job_enqueued_key self
             = Some (CInt (int_of (cache w !! job_enqueued_key self) + 1))
          /\ taskqueue w' = taskqueue w ++ [task]
          /\ lookup_job jid w'
             = Some (job_with_count (job_enqueued_workers_count self + 1) self)).
Proof.
  intros Hjob. split.
  - intros st Hst Hno. unfold Job_enqueue.
    rewrite (bind_Ret _ _ _ _ _ (Job_get_status_eq _ _ _ Hst)).
    now rewrite Hno.
  - intros pid pipeline Hst Hpid Hp Hl Hc name task.
    pose proof (lookup_job_id _ _ _ Hjob) as Hid.
    eexists. split.
    + unfold Job_enqueue.
      rewrite (bind_Ret _ _ _ _ _ (Job_get_status_eq _ _ _ Hst)).
      change (negb (status_is (CStr "running") "running")) with false. cbv iota.
      rewrite (bind_Ret _ _ _ _ _ (Job_find_Some _ _ _ Hjob)).
      rewrite (bind_Ret _ _ _ _ _ (Job_pipeline_Some _ _ _ _ Hpid Hp)).
      rewrite bind_uuid4.
      unfold Job__add_task_name_cache. fold (job_list_key self).
      erewrite (bind_Ret (memcache_set_cache_with_value_function _ _))
        by (apply cache_update_inr; world_simpl; apply (add_task_handler_list _ _ Hl)).
      unfold taskqueue_add. rewrite bind_assoc, bind_modify, bind_ret_l.
      unfold update_job. rewrite bind_modify.
      unfold Job__increase_value_cache. fold (job_enqueued_key self).
      erewrite (bind_Ret (memcache_set_cache_with_value_function _ _))
        by (apply cache_update_inr; world_simpl;
            rewrite lookup_insert_ne by (unfold job_list_key; key_neq);
            apply (increase_handler_int _ Hc)).
      rewrite Hid.
      unfold ret. reflexivity.
    + world_simpl.
      split; [|split; [|split]].
      * rewrite lookup_insert_ne by (unfold job_list_key; key_neq).
        now rewrite lookup_insert_eq.
      * now rewrite lookup_insert_eq.
      * reflexivity.
      * unfold lookup_job. world_simpl.
        apply (find_map_update_job jid
                 (fun j => job_with_count (job_enqueued_workers_count j + 1) j));
          [reflexivity|exact Hjob].
Qed.

Lemma C9_enqueue_names_task_after_own_worker_class_witness :
  lookup_job 1 world_running = Some (demo_job 1 "a")
  /\ exists w',
       Job_enqueue 1 (Some "Other") [] 7 world_running
       = Ret (Some (mkTask "job-service" "my-pipe_a_W_uuid0" "/task" 1
                      (Some "Other") [] "my-pipe_a_W_uuid0" 7)) w'
       /\ cache w' !! "1_list_of_tasks_enqueued" = Some (CList ["my-pipe_a_W_uuid0"])
       /\ cache w' !! "1_1_enqueued_tasks" = Some (CInt 3)
       /\ taskqueue w'
          = [mkTask "job-service" "my-pipe_a_W_uuid0" "/task" 1
               (Some "Other") [] "my-pipe_a_W_uuid0" 7]
       /\ lookup_job 1 w' = Some (job_with_count 1 (demo_job 1 "a")).
Proof.
  split; [reflexivity|].
  pose proof (C9_enqueue_names_task_after_own_worker_class
                1 world_running (demo_job 1 "a") (Some "Other") [] 7 eq_refl)
    as [_ H].
  exact (H 1 demo_pipeline eq_refl eq_refl eq_refl I I).
Defined.

(** C9, the claim as stated fails: a job whose own worker class is [W],
    asked to enqueue a task for the worker class [Other], names the task
    after [W]. *)
Lemma C9_task_name_ignores_argument :
  match Job_enqueue 1 (Some "Other") [] 0 world_running with
  | Ret (Some task) _ =>
      task_name_ task = "my-pipe_a_W_uuid0"
      /\ task_name_ task
         <> escape_task_name ("my pipe" +:+ "_" +:+ "a" +:+ "_" +:+ "Other")
              +:+ "_" +:+ "uuid0"
  | _ => False
  end.
Proof. vm_compute. split; [reflexivity|discriminate]. Qed.

(** ** Worker callbacks *)

(** While the decremented count is not zero, [worker_succeeded] only
    rewrites the task list and the counter. *)
Lemma worker_succeeded_with_tasks_left
    (fuel : nat) (jid : Z) (task_name : string) (w : World) (self : Job)
    (lv cv : cval) :
  lookup_job jid w = Some self ->
  delete_task_handler task_name (cache w !! job_list_key self) = inr lv ->
  decrease_handler (Some (job_enqueued_workers_count self))
    (cache w !! job_enqueued_key self) = inr cv ->
  cv <> CInt 0 ->
  Job_worker_succeeded fuel jid task_name w
  = Ret tt (set_cache_map (insert (job_enqueued_key self) cv)
              (set_cache_map (insert (job_list_key self) lv) w))
  /\ (forall jid',
        effective_status
          (set_cache_map (insert (job_enqueued_key self) cv)
             (set_cache_map (insert (job_list_key self) lv) w)) jid'
        = effective_status w jid').
Proof.
  intros Hjob Hl Hc Hnz. split.
  - unfold Job_worker_succeeded.
    rewrite (bind_Ret _ _ _ _ _ (Job_find_Some _ _ _ Hjob)).
    unfold Job__delete_task_name_cache. fold (job_list_key self).
    rewrite (bind_Ret _ _ _ _ _ (cache_update_inr _ _ _ _ Hl)).
    unfold Job__decrease_value_cache. fold (job_enqueued_key self).
    erewrite (bind_Ret (memcache_set_cache_with_value_function _ _))
      by (apply cache_update_inr; world_simpl;
          rewrite lookup_insert_ne by key_neq; exact Hc).
    unfold memcache_get. rewrite bind_gets. world_simpl.
    rewrite lookup_insert_eq.
    rewrite bool_decide_eq_false_2 by congruence. reflexivity.
  - intros jid'. apply effective_status_cache_ext; [reflexivity|].
    intros other _. world_simpl.
    rewrite !lookup_insert_ne by key_neq. reflexivity.
Qed.

(** C1 (as amended): [worker_succeeded] moves a job's cache status to
    [succeeded] or [failed] only when the job's pipeline-keyed
    enqueued-tasks count is zero after its decrement.  While that count is
    not zero the handler only rewrites the task list and the counter: every
    effective status, every job row and every pipeline row is as before.
    ([worker_failed] is not covered: it marks the job failed before it looks
    at the count.) *)
Theorem C1_worker_succeeded_waits_for_zero
    (fuel : nat) (jid : Z) (task_name : string) (w : World) (self : Job)
    (lv cv : cval) :
  lookup_job jid w = Some self ->
  delete_task_handler task_name (cache w !! job_list_key self) = inr lv ->
  decrease_handler (Some (job_enqueued_workers_count self))
    (cache w !! job_enqueued_key self) = inr cv ->
  cv <> CInt 0 ->
  exists w',
    Job_worker_succeeded fuel jid task_name w = Ret tt w'
    /\ cache w' !! job_enqueued_key self = Some cv
    /\ (forall jid', effective_status w' jid' = effective_status w jid')
    /\ jobs w' = jobs w /\ pipelines w' = pipelines w.
Proof.
  intros Hjob Hl Hc Hnz.
  destruct (worker_succeeded_with_tasks_left fuel jid task_name w self lv cv
              Hjob Hl Hc Hnz) as (Hrun & Hst).
  eexists. split; [exact Hrun|]. world_simpl.
  split; [apply lookup_insert_eq|]. split; [exact Hst|]. split; reflexivity.
Qed.

Lemma C1_worker_succeeded_waits_for_zero_witness :
  lookup_job 1 world_running = Some (demo_job 1 "a")
  /\ exists w',
       Job_worker_succeeded 5 1 "t" world_running = Ret tt w'
       /\ cache w' !! job_enqueued_key (demo_job 1 "a") = Some (CInt 1)
       /\ (forall jid', effective_status w' jid' = effective_status world_running jid')
       /\ jobs w' = jobs world_running /\ pipelines w' = pipelines world_running.
Proof.
  split; [reflexivity|].
  apply (C1_worker_succeeded_waits_for_zero 5 1 "t" world_running
           (demo_job 1 "a") (CList []) (CInt 1));
    [reflexivity | reflexivity | reflexivity | discriminate].
Defined.

(** C1, the claim as stated fails: with two tasks of the job enqueued, one
    [worker_failed] callback sets the cache status to [failed] while the
    enqueued count is still 1. *)
Lemma C1_worker_failed_sets_failed_early :
  match Job_worker_failed 5 1 "t" world_running with
  | Ret _ w' =>
      cache world_running !! "1_1_status" = Some (CStr "running")
      /\ cache w' !! "1_1_status" = Some (CStr "failed")
      /\ cache w' !! "1_1_enqueued_tasks" = Some (CInt 1)
  | _ => False
  end.
Proof. vm_compute. repeat split; reflexivity. Qed.

(** ** [Param.val] *)

(** C5, the claim as stated fails: in the scenario of the specification
    [z.val] is 0, not 10. *)
Lemma C5_scenario_value_is_zero :
  match Param_val 5 param_z world_params with
  | Ret v _ => v = VNum (NInt 0) /\ v <> VNum (NInt 10)
  | _ => False
  end.
Proof. vm_compute. split; [reflexivity|discriminate]. Qed.

Lemma fold_m_nil {A B} (acc : B) (body : B -> A -> M B) w :
  fold_m [] acc body w = Ret acc w.
Proof. reflexivity. Qed.

(** A param whose text holds no inliner and whose type is [string] or
    [number] evaluates to its text, or to the number its text denotes,
    whatever names are in scope. *)
Lemma Param_val_literal (fuel : nat) (w : World) (p : Param) (val : Param -> M pval) :
  param_job_id p = None ->
  INLINER_REGEX_findall (param_value p) = [] ->
  (param_pipeline_id p = None
   \/ forall g, In g (Param_globals w) -> exists v, val g w = Ret v w) ->
  Param__expand_vars val p (param_value p) w = Ret (param_value p) w.
Proof.
  intros Hjob Hnone Hscope. unfold Param__expand_vars.
  rewrite Hjob, Hnone. cbn [is_some orb].
  assert (Hfold : forall gs (names : gmap string pval),
            (forall g, In g gs -> exists v, val g w = Ret v w) ->
            exists names',
              fold_m gs names
                (fun names param =>
                   v <- val param ;; ret (<[param_name param := v]> names)) w
              = Ret names' w).
  { induction gs as [|g gs IH]; intros names Hgs; [now exists names|].
    destruct (Hgs g (or_introl eq_refl)) as [v Hv].
    cbn [fold_m]. rewrite bind_assoc, (bind_Ret _ _ _ _ _ Hv), bind_ret_l.
    apply IH. intros g' Hg'. apply Hgs. now right. }
  destruct (param_pipeline_id p) as [pid|] eqn:Epid.
  - destruct Hscope as [Hscope|Hscope]; [discriminate|].
    cbn [is_some]. rewrite bind_assoc, bind_gets.
    destruct (Hfold (Param_globals w)
                (<["False" := VBool false]> (<["True" := VBool true]> ∅)) Hscope)
      as [names' Hn].
    rewrite (bind_Ret _ _ _ _ _ Hn). reflexivity.
  - reflexivity.
Qed.

Lemma Param_val_S (fuel : nat) (self : Param) :
  Param_val (S fuel) self
  = if String.eqb (param_type self) "boolean" then
      ret (VBool (String.eqb (param_value self) "1"))
    else
      val <- Param__expand_vars (Param_val fuel) self (param_value self) ;;
      if String.eqb (param_type self) "number" then
        ret (VNum (_parse_num val))
      else if String.eqb (param_type self) "string_list" then
        ret (VStrList (split_lines val))
      else if String.eqb (param_type self) "number_list" then
        ret (VNumList
               (List.map _parse_num
                  (List.filter (fun l => str_truthy (py_strip l)) (split_lines val))))
      else ret (VStr val).
Proof. reflexivity. Qed.

Lemma Param_val_S_body (fuel : nat) (self : Param) :
  Param_val (S fuel) self = Param_val_body (Param_val fuel) self.
Proof. reflexivity. Qed.

Lemma Param_val_literal_value (fuel : nat) (w : World) (p : Param) :
  param_job_id p = None ->
  INLINER_REGEX_findall (param_value p) = [] ->
  (param_pipeline_id p = None
   \/ forall g, In g (Param_globals w) -> exists v, Param_val fuel g w = Ret v w) ->
  (param_type p = "string" -> Param_val (S fuel) p w = Ret (VStr (param_value p)) w)
  /\ (param_type p = "number" ->
      Param_val (S fuel) p w = Ret (VNum (_parse_num (param_value p))) w).
Proof.
  intros Hjob Hnone Hscope.
  pose proof (Param_val_literal fuel w p (Param_val fuel) Hjob Hnone Hscope) as Hexp.
  split; intros Hty; cbn [Param_val]; rewrite Hty;
    change ("string" =? "boolean")%string with false;
    change ("number" =? "boolean")%string with false; cbv iota;
    rewrite (bind_Ret _ _ _ _ _ Hexp); reflexivity.
Qed.

(** C5 (as amended): with a global param [x] whose raw value is ["2"], a
    pipeline param [y] whose raw value is ["3"] (each of type [string] or
    [number]) and a job param [z] of type [number] whose raw value is
    ["{% x %} + {% y %} + 5"], [z.val] is 0: each inliner is replaced by the
    text of its value, which gives ["2 + 3 + 5"]; that text is no numeric
    literal, and [_parse_num] answers 0 for it. *)
Theorem C5_inliners_are_replaced_not_summed
    (fuel : nat) (w : World) (x y z : Param) (jid pid : Z)
    (job : Job) (pipeline : Pipeline) :
  evaluates_name w "x" -> evaluates_name w "y" ->
  Param_globals w = [x] -> Pipeline_params pid w = [y] ->
  param_name x = "x" -> param_value x = "2" ->
  (param_type x = "string" \/ param_type x = "number") ->
  param_name y = "y" -> param_value y = "3" -> param_job_id y = None ->
  (param_type y = "string" \/ param_type y = "number") ->
  param_type z = "number" -> param_job_id z = Some jid ->
  param_value z = "{% x %} + {% y %} + 5" ->
  lookup_job jid w = Some job -> job_pipeline_id job = Some pid ->
  lookup_pipeline pid w = Some pipeline ->
  Param_val (S (S (S fuel))) z w = Ret (VNum (NInt 0)) w.
Proof.
  intros Hevx Hevy Hglob Hpp Hxn Hxv Hxt Hyn Hyv Hyj Hyt Hzt Hzj Hzv Hjob Hjp Hp.
  assert (Hxg : In x (Param_globals w)) by (rewrite Hglob; now left).
  unfold Param_globals in Hxg. apply filter_In in Hxg as [_ Hxg].
  apply andb_prop in Hxg as [Hxp Hxj].
  apply bool_decide_eq_true in Hxp, Hxj.
  assert (Hx : forall f, exists vx,
             Param_val (S f) x w = Ret vx w /\ pval_text vx = Some "2").
  { intros f.
    destruct (Param_val_literal_value f w x Hxj) as [Hs Hn];
      [now rewrite Hxv | now left |].
    destruct Hxt as [Hxt|Hxt].
    - exists (VStr "2"). rewrite (Hs Hxt), Hxv. now split.
    - exists (VNum (NInt 2)). rewrite (Hn Hxt), Hxv. now split. }
  assert (Hy : exists vy,
             Param_val (S (S fuel)) y w = Ret vy w /\ pval_text vy = Some "3").
  { destruct (Param_val_literal_value (S fuel) w y Hyj) as [Hs Hn];
      [now rewrite Hyv | | ].
    - right. intros g Hg. rewrite Hglob in Hg. destruct Hg as [<-|[]].
      destruct (Hx fuel) as (vx & Hvx & _). now exists vx.
    - destruct Hyt as [Hyt|Hyt].
      + exists (VStr "3"). rewrite (Hs Hyt), Hyv. now split.
      + exists (VNum (NInt 3)). rewrite (Hn Hyt), Hyv. now split. }
  destruct (Hx (S fuel)) as (vx & Hvx & Htx). destruct Hy as (vy & Hvy & Hty).
  pose proof (lookup_pipeline_id _ _ _ Hp) as Hpid.
  rewrite Param_val_S, Hzt.
  change ("number" =? "boolean")%string with false. cbv iota.
  change ("number" =? "number")%string with true. cbv iota.
  unfold Param__expand_vars. rewrite Hzj, Hzv. cbn [is_some orb].
  mnorm. rewrite Hglob. cbn [fold_m]. mnorm.
  mret Hvx.
  mret (Job_find_Some _ _ _ Hjob).
  mret (Job_pipeline_Some _ _ _ _ Hjp Hp).
  rewrite Hpid, Hpp. cbn [fold_m]. mnorm.
  mret Hvy.
  rewrite Hxn, Hyn.
  change (INLINER_REGEX_findall "{% x %} + {% y %} + 5")
    with ["{% x %}"; "{% y %}"].
  cbn [fold_m]. mnorm.
  change (slice_2_m2 "{% x %}") with (" " +:+ "x" +:+ " ").
  rewrite (Hevx _ vx "2");
    [|rewrite lookup_insert_ne by discriminate; apply lookup_insert_eq | exact Htx].
  mnorm.
  change (slice_2_m2 "{% y %}") with (" " +:+ "y" +:+ " ").
  rewrite (Hevy _ vy "3"); [|apply lookup_insert_eq | exact Hty].
  rewrite !bind_ret_l. reflexivity.
Qed.

Lemma demo_world_evaluates_x_and_y ps js scs prms n :
  n = "x" \/ n = "y" -> evaluates_name (demo_world ps js scs prms) n.
Proof.
  intros Hn names v s Hv Hs. cbn [simple_eval_str demo_world].
  unfold demo_simple_eval_str.
  destruct Hn as [-> | ->].
  - change (split_plus (" " +:+ "x" +:+ " ")) with [" x "].
    cbn [fold_left]. unfold demo_atom.
    change (py_strip " x ") with "x". change (parse_digits "x") with (@None Z).
    change (is_identifier "x") with true. cbv iota. rewrite Hv.
    destruct v as [b|[z|l]|t|l|l]; try discriminate; simpl in Hs; congruence.
  - change (split_plus (" " +:+ "y" +:+ " ")) with [" y "].
    cbn [fold_left]. unfold demo_atom.
    change (py_strip " y ") with "y". change (parse_digits "y") with (@None Z).
    change (is_identifier "y") with true. cbv iota. rewrite Hv.
    destruct v as [b|[z|l]|t|l|l]; try discriminate; simpl in Hs; congruence.
Qed.

Lemma C5_inliners_are_replaced_not_summed_witness :
  Param_val 3 param_z world_params = Ret (VNum (NInt 0)) world_params.
Proof.
  apply (C5_inliners_are_replaced_not_summed 0 world_params param_x param_y param_z
           1 1 (demo_job 1 "a") demo_pipeline);
    try reflexivity;
    try (left; reflexivity);
    apply demo_world_evaluates_x_and_y; [left|right]; reflexivity.
Defined.

(** ** [Job.start] *)

Lemma Job__start_condition_is_fulfuilled_eq w sc st :
  effective_status w (sc_preceding_job_id sc) = Some st ->
  Job__start_condition_is_fulfuilled sc w = Ret (edge_satisfied (sc_condition sc) st) w.
Proof.
  intros Hst. unfold Job__start_condition_is_fulfuilled, edge_satisfied.
  mret (Job_get_status_eq _ _ _ Hst).
  destruct (String.eqb (sc_condition sc) "success").
  - now destruct (status_is st "failed").
  - destruct (String.eqb (sc_condition sc) "fail"); [|reflexivity].
    now destruct (status_is st "succeeded").
Qed.

Lemma Job_start_S fuel jid :
  Job_start (S fuel) jid
  = (status <- Job_get_status jid ;;
     if negb (status_is status "waiting") then ret false
     else
       scs <- gets (Job_start_conditions jid) ;;
       r <- for_return scs
              (fun start_condition =>
                 ok <- Job__start_condition_is_fulfuilled start_condition ;;
                 if ok then
                   st <- Job_get_status (sc_preceding_job_id start_condition) ;;
                   if negb (status_in st ["succeeded"; "failed"])
                   then ret (Some false) else ret None
                 else
                   Job_set_failed_status jid ;;;
                   Job__start_dependent_jobs fuel jid ;;;
                   ret (Some false)) ;;
       match r with
       | Some b => ret b
       | None => Job_run fuel jid ;;; ret true
       end).
Proof. reflexivity. Qed.

Lemma start_loop fuel jid w scs v :
  start_verdict w scs = Some v ->
  for_return scs
    (fun start_condition =>
       ok <- Job__start_condition_is_fulfuilled start_condition ;;
       if ok then
         st <- Job_get_status (sc_preceding_job_id start_condition) ;;
         if negb (status_in st ["succeeded"; "failed"])
         then ret (Some false) else ret None
       else
         Job_set_failed_status jid ;;;
         Job__start_dependent_jobs fuel jid ;;;
         ret (Some false)) w
  = match v with
    | EdgePass => Ret None w
    | EdgePending => Ret (Some false) w
    | EdgeViolated =>
        (Job_set_failed_status jid ;;;
         Job__start_dependent_jobs fuel jid ;;;
         ret (Some false)) w
    end.
Proof.
  revert v. induction scs as [|sc scs IH]; intros v Hv.
  - injection Hv as <-. reflexivity.
  - cbn [start_verdict] in Hv. cbn [for_return]. unfold verdict_of in Hv.
    destruct (effective_status w (sc_preceding_job_id sc)) as [st|] eqn:Hst;
      [|discriminate].
    mnorm. mret (Job__start_condition_is_fulfuilled_eq _ _ _ Hst).
    destruct (edge_satisfied (sc_condition sc) st).
    + mnorm. mret (Job_get_status_eq _ _ _ Hst). unfold terminal in Hv.
      destruct (status_in st ["succeeded"; "failed"]); cbn [negb].
      * mnorm. now apply IH.
      * injection Hv as <-. reflexivity.
    + injection Hv as <-. unfold bind.
      destruct (Job_set_failed_status jid w) as [[] w1|e w1|];
        [|reflexivity|reflexivity].
      destruct (Job__start_dependent_jobs fuel jid w1) as [[] w2|e w2|]; reflexivity.
Qed.

(** C2 (as amended): for a job whose effective status is [waiting],
    [start] goes through the inbound start conditions in order and the first
    one that does not pass decides.  If that edge is satisfied but its
    preceding job is not terminal, [start] answers [False] and changes
    nothing; if that edge is not satisfied, [start] marks the job failed
    with [set_failed_status], starts the dependent jobs and answers [False];
    if every edge is satisfied with a terminal preceding job, [start] calls
    [run] and answers [True].  (Satisfied: [success] needs a preceding
    status other than [failed], [fail] one other than [succeeded], any other
    condition is always satisfied.) *)
Theorem C2_start_follows_first_deciding_edge
    (fuel : nat) (jid : Z) (w : World) (v : edge_verdict) :
  effective_status w jid = Some (CStr "waiting") ->
  start_verdict w (Job_start_conditions jid w) = Some v ->
  Job_start (S fuel) jid w
  = match v with
    | EdgePending => Ret false w
    | EdgeViolated =>
        (Job_set_failed_status jid ;;;
         Job__start_dependent_jobs fuel jid ;;;
         ret false) w
    | EdgePass => (Job_run fuel jid ;;; ret true) w
    end.
Proof.
  intros Hst Hv. rewrite Job_start_S.
  mret (Job_get_status_eq _ _ _ Hst).
  change (negb (status_is (CStr "waiting") "waiting")) with false. cbv iota.
  rewrite bind_gets. destruct v.
  - mret (start_loop fuel jid w _ _ Hv). reflexivity.
  - mret (start_loop fuel jid w _ _ Hv). reflexivity.
  - unfold bind at 1. rewrite (start_loop fuel jid w _ _ Hv).
    unfold bind. destruct (Job_set_failed_status jid w) as [[] w1|e w1|];
      [|reflexivity|reflexivity].
    destruct (Job__start_dependent_jobs fuel jid w1) as [[] w2|e w2|]; reflexivity.
Qed.

Lemma C2_start_follows_first_deciding_edge_witness :
  effective_status world_violated 2 = Some (CStr "waiting")
  /\ start_verdict world_violated (Job_start_conditions 2 world_violated)
     = Some EdgeViolated
  /\ Job_start 5 2 world_violated
     = (Job_set_failed_status 2 ;;; Job__start_dependent_jobs 4 2 ;;; ret false)
         world_violated.
Proof.
  split; [reflexivity|]. split; [reflexivity|].
  apply (C2_start_follows_first_deciding_edge 4 2 world_violated EdgeViolated);
    reflexivity.
Defined.

(** On that world the violated edge makes [start] answer [False] with the
    job marked failed and the pipeline finished. *)
Lemma start_on_violated_edge_example :
  match Job_start 5 2 world_violated with
  | Ret b w' =>
      b = false
      /\ effective_status w' 2 = Some (CStr "failed")
      /\ cache w' !! "1_failed_jobs" = Some (CInt 1)
      /\ pipeline_status <$> lookup_pipeline 1 w' = Some "failed"
  | _ => False
  end.
Proof. vm_compute. repeat split; reflexivity. Qed.

(** C2, the claim as stated fails: job 3 has an inbound edge that is not
    satisfied (its preceding job 2 has failed under [success]), yet [start]
    answers [False] without marking job 3 failed, because the edge before
    it is satisfied with a preceding job that is still running. *)
Lemma C2_pending_edge_shadows_violated_edge :
  verdict_of world_two_edges (mkStartCondition 2 3 2 "success") = Some EdgeViolated
  /\ In (mkStartCondition 2 3 2 "success") (Job_start_conditions 3 world_two_edges)
  /\ match Job_start 5 3 world_two_edges with
     | Ret b w' =>
         b = false
         /\ effective_status w' 3 = Some (CStr "waiting")
         /\ cache w' !! "1_failed_jobs" = None
     | _ => False
     end.
Proof.
  split; [reflexivity|]. split; [right; left; reflexivity|].
  vm_compute. repeat split; reflexivity.
Qed.

(** ** Outcomes of computations *)

Lemma wp_ret T {A} (a : A) w (Q : A -> World -> Prop) E : Q a w -> wp T (ret a) w Q E.
Proof. auto. Qed.

Lemma wp_raise T {A} e w (Q : A -> World -> Prop) (E : World -> Prop) :
  E w -> wp T (raise e) w Q E.
Proof. auto. Qed.

Lemma wp_gets T {A} (f : World -> A) w (Q : A -> World -> Prop) E :
  Q (f w) w -> wp T (gets f) w Q E.
Proof. auto. Qed.

Lemma wp_modify T (f : World -> World) w (Q : unit -> World -> Prop) E :
  Q tt (f w) -> wp T (modify f) w Q E.
Proof. auto. Qed.

Lemma wp_datetime_now T w (Q : Z -> World -> Prop) E :
  Q (clock w (ticks w)) (set_ticks S w) -> wp T datetime_now w Q E.
Proof. auto. Qed.

Lemma wp_bind T {A B} (m : M A) (k : A -> M B) w (Q : B -> World -> Prop) E :
  wp T m w (fun a w' => wp T (k a) w' Q E) E -> wp T (bind m k) w Q E.
Proof. unfold wp, bind. now destruct (m w). Qed.

Lemma wp_mono T {A} (m : M A) w (Q Q' : A -> World -> Prop) (E E' : World -> Prop) :
  wp T m w Q E -> (forall a w', Q a w' -> Q' a w') -> (forall w', E w' -> E' w') ->
  wp T m w Q' E'.
Proof. unfold wp. destruct (m w); auto. Qed.

Lemma wp_reads T {A} (m : M A) w (Q : A -> World -> Prop) (E : World -> Prop) :
  reads T m -> (forall a, Q a w) -> E w -> wp T m w Q E.
Proof.
  intros Hm HQ HE. specialize (Hm w). unfold wp in *.
  destruct (m w) as [a w'|e w'|]; subst; auto.
Qed.

Lemma wp_keeps T {A} (m : M A) w (I : World -> Prop) :
  keeps T I m -> I w -> wp T m w (fun _ => I) I.
Proof. intros Hm HI. exact (Hm w HI). Qed.

Lemma wp_Job_find T jid w (Q : Job -> World -> Prop) (E : World -> Prop) :
  (forall self, lookup_job jid w = Some self -> Q self w) -> E w ->
  wp T (Job_find jid) w Q E.
Proof. intros HQ HE. unfold wp, Job_find. destruct (lookup_job jid w); auto. Qed.

Lemma wp_Job_pipeline T self w (Q : Pipeline -> World -> Prop) (E : World -> Prop) :
  (forall pipeline,
     job_pipeline_id self = Some (pipeline_id_ pipeline) ->
     lookup_pipeline (pipeline_id_ pipeline) w = Some pipeline -> Q pipeline w) ->
  E w -> wp T (Job_pipeline self) w Q E.
Proof.
  intros HQ HE. unfold wp, Job_pipeline.
  destruct (job_pipeline_id self) as [pid|] eqn:Hpid; [|exact HE].
  unfold Pipeline_find. destruct (lookup_pipeline pid w) as [p|] eqn:Hp; [|exact HE].
  pose proof (lookup_pipeline_id _ _ _ Hp) as <-. now apply HQ.
Qed.

Lemma wp_Job_get_status T jid w (Q : cval -> World -> Prop) (E : World -> Prop) :
  (forall st, effective_status w jid = Some st -> Q st w) -> E w ->
  wp T (Job_get_status jid) w Q E.
Proof.
  intros HQ HE. unfold wp.
  destruct (effective_status w jid) as [st|] eqn:Hst.
  - rewrite (Job_get_status_eq _ _ _ Hst). now apply HQ.
  - unfold effective_status in Hst. unfold Job_get_status.
    destruct (lookup_job jid w) eqn:Hjob; [discriminate|].
    unfold bind, Job_find. now rewrite Hjob.
Qed.

Lemma wp_cache_update T key fn w (Q : unit -> World -> Prop) (E : World -> Prop) :
  (forall v, fn (cache w !! key) = inr v -> Q tt (set_cache_map (insert key v) w)) ->
  E w -> wp T (memcache_set_cache_with_value_function key fn) w Q E.
Proof.
  intros HQ HE. unfold wp, memcache_set_cache_with_value_function.
  destruct (fn (cache w !! key)); auto.
Qed.

(** [for x in xs], with [I] while the loop goes on and [Q] once it has
    returned. *)
Lemma wp_for_return T {A R} (xs : list A) (body : A -> M (option R))
    (I Q E : World -> Prop) w :
  (forall x w', I w' ->
     wp T (body x) w' (fun r w'' => match r with Some _ => Q w'' | None => I w'' end) E) ->
  I w ->
  wp T (for_return xs body) w
    (fun r w' => match r with Some _ => Q w' | None => I w' end) E.
Proof.
  intros Hb. revert w. induction xs as [|x xs IH]; intros w HI; [exact HI|].
  cbn [for_return]. apply wp_bind.
  eapply wp_mono; [apply (Hb x w HI)| |auto].
  intros [r|] w' H; [exact H|]. now apply IH.
Qed.

(** ** Computations that only read *)

Lemma reads_ret T {A} (a : A) : reads T (ret a).
Proof. intros w. reflexivity. Qed.

Lemma reads_raise T {A} e : reads T (@raise A e).
Proof. intros w. reflexivity. Qed.

Lemma reads_gets T {A} (f : World -> A) : reads T (gets f).
Proof. intros w. reflexivity. Qed.

Lemma reads_bind T {A B} (m : M A) (k : A -> M B) :
  reads T m -> (forall a, reads T (k a)) -> reads T (bind m k).
Proof.
  intros Hm Hk w. apply wp_bind.
  eapply wp_mono; [apply Hm| |auto]. intros a w' ->. apply Hk.
Qed.

Lemma reads_fold_m T {A B} (xs : list A) (acc : B) (body : B -> A -> M B) :
  (forall b x, reads T (body b x)) -> reads T (fold_m xs acc body).
Proof.
  intros Hb. revert acc. induction xs as [|x xs IH]; intros acc.
  - apply reads_ret.
  - cbn [fold_m]. apply reads_bind; [apply Hb|]. intros b. apply IH.
Qed.

Lemma reads_Job_find T jid : reads T (Job_find jid).
Proof. intros w. apply wp_Job_find; auto. Qed.

Lemma reads_Pipeline_find T pid : reads T (Pipeline_find pid).
Proof. intros w. unfold wp, Pipeline_find. now destruct (lookup_pipeline pid w). Qed.

Lemma reads_Job_pipeline T self : reads T (Job_pipeline self).
Proof. intros w. apply wp_Job_pipeline; auto. Qed.

Lemma reads_memcache_get T key d : reads T (memcache_get key d).
Proof. apply reads_gets. Qed.

Lemma reads_Job_get_status T jid : reads T (Job_get_status jid).
Proof. intros w. apply wp_Job_get_status; auto. Qed.

Lemma reads_Job__start_condition_is_fulfuilled T sc :
  reads T (Job__start_condition_is_fulfuilled sc).
Proof.
  unfold Job__start_condition_is_fulfuilled.
  apply reads_bind; [apply reads_Job_get_status|]. intros st.
  repeat (match goal with |- reads _ (if ?c then _ else _) => destruct c end);
    apply reads_ret.
Qed.

Lemma reads_expand_vars T (val : Param -> M pval) self value :
  (forall p, reads T (val p)) -> reads T (Param__expand_vars val self value).
Proof.
  intros Hval. unfold Param__expand_vars.
  assert (Hstep : forall (names : gmap string pval) (param : Param),
            reads T (v <- val param ;; ret (<[param_name param := v]> names))).
  { intros names param. apply reads_bind; [apply Hval|].
    intros v. apply reads_ret. }
  apply reads_bind.
  { destruct (is_some (param_job_id self) || is_some (param_pipeline_id self)).
    - apply reads_bind; [apply reads_gets|]. intros gs. now apply reads_fold_m.
    - apply reads_ret. }
  intros names. apply reads_bind.
  { destruct (param_job_id self) as [jid|]; [|apply reads_ret].
    apply reads_bind; [apply reads_Job_find|]. intros job.
    apply reads_bind; [apply reads_Job_pipeline|]. intros pipeline.
    apply reads_bind; [apply reads_gets|]. intros pparams.
    now apply reads_fold_m. }
  intros names'. apply reads_fold_m. intros value' inliner.
  apply reads_bind; [apply reads_gets|]. intros ev.
  destruct (ev (slice_2_m2 inliner) names'); [apply reads_raise|apply reads_ret].
Qed.

Lemma reads_Param_val_body T (val : Param -> M pval) (p : Param) :
  reads T (Param__expand_vars val p (param_value p)) -> reads T (Param_val_body val p).
Proof.
  intros Hexp. unfold Param_val_body.
  destruct (String.eqb (param_type p) "boolean"); [apply reads_ret|].
  apply reads_bind; [exact Hexp|]. intros v.
  repeat (match goal with |- reads _ (if ?c then _ else _) => destruct c end);
    apply reads_ret.
Qed.

(** [Param.val] only reads, whatever the fuel. *)
Lemma reads_Param_val fuel p : reads True (Param_val fuel p).
Proof.
  revert p. induction fuel as [|fuel IH]; intros p; [intros w; exact I|].
  rewrite Param_val_S_body. apply reads_Param_val_body. now apply reads_expand_vars.
Qed.

(** *** [Param.val] returns when every param has one scope *)

Lemma wp_fold_m_reads T {A B} (xs : list A) (acc : B) (body : B -> A -> M B) w :
  (forall b x, In x xs ->
     wp T (body b x) w (fun _ w' => w' = w) (fun w' => w' = w)) ->
  wp T (fold_m xs acc body) w (fun _ w' => w' = w) (fun w' => w' = w).
Proof.
  revert acc. induction xs as [|x xs IH]; intros acc Hb; [reflexivity|].
  cbn [fold_m]. apply wp_bind.
  eapply wp_mono; [apply Hb; now left| |auto].
  intros b w' ->. apply IH. intros b' x' Hx'. apply Hb. now right.
Qed.

Lemma wp_names_step T (val : Param -> M pval) (names : gmap string pval) param w :
  wp T (val param) w (fun _ w' => w' = w) (fun w' => w' = w) ->
  wp T (v <- val param ;; ret (<[param_name param := v]> names)) w
    (fun _ w' => w' = w) (fun w' => w' = w).
Proof.
  intros H. apply wp_bind. eapply wp_mono; [exact H| |auto].
  intros v w' ->. reflexivity.
Qed.

Lemma wp_expand_vars T (val : Param -> M pval) self value w :
  (is_some (param_job_id self) || is_some (param_pipeline_id self) = true ->
   forall g, In g (Param_globals w) ->
             wp T (val g) w (fun _ w' => w' = w) (fun w' => w' = w)) ->
  (is_some (param_job_id self) = true ->
   forall q, In q (params w) -> is_some (param_pipeline_id q) = true ->
             wp T (val q) w (fun _ w' => w' = w) (fun w' => w' = w)) ->
  wp T (Param__expand_vars val self value) w (fun _ w' => w' = w) (fun w' => w' = w).
Proof.
  intros Hg Hq. unfold Param__expand_vars. apply wp_bind.
  eapply wp_mono with (Q := fun _ w' => w' = w) (E := fun w' => w' = w); [| |auto].
  { destruct (is_some (param_job_id self) || is_some (param_pipeline_id self));
      [|reflexivity].
    apply wp_bind, wp_gets. apply wp_fold_m_reads. intros b g Hin.
    apply wp_names_step. now apply Hg. }
  intros names w' ->. apply wp_bind.
  eapply wp_mono with (Q := fun _ w' => w' = w) (E := fun w' => w' = w); [| |auto].
  { destruct (param_job_id self) as [jid|]; [|reflexivity].
    apply wp_bind, wp_Job_find; [|reflexivity]. intros job _.
    apply wp_bind, wp_Job_pipeline; [|reflexivity]. intros pipeline _ _.
    apply wp_bind, wp_gets. apply wp_fold_m_reads. intros b q Hin.
    apply wp_names_step. apply Hq; [reflexivity| |].
    - unfold Pipeline_params in Hin.
      apply (Permutation_in _ (merge_sort_Permutation _ _)) in Hin.
      now apply filter_In in Hin as [Hin _].
    - unfold Pipeline_params in Hin.
      apply (Permutation_in _ (merge_sort_Permutation _ _)) in Hin.
      apply filter_In in Hin as [_ Hin]. apply bool_decide_eq_true in Hin.
      now rewrite Hin. }
  intros names' w' ->. apply wp_fold_m_reads. intros v inliner _.
  apply wp_bind, wp_gets.
  destruct (simple_eval_str w (slice_2_m2 inliner) names'); reflexivity.
Qed.

Lemma wp_Param_val_typed T (val : Param -> M pval) (p : Param) w :
  wp T (Param__expand_vars val p (param_value p)) w
    (fun _ w' => w' = w) (fun w' => w' = w) ->
  wp T (Param_val_body val p) w (fun _ w' => w' = w) (fun w' => w' = w).
Proof.
  intros Hexp. unfold Param_val_body.
  destruct (String.eqb (param_type p) "boolean"); [reflexivity|].
  apply wp_bind. eapply wp_mono; [exact Hexp| |auto]. intros v w' ->.
  repeat (match goal with |- wp _ (if ?c then _ else _) _ _ _ => destruct c end);
    reflexivity.
Qed.

Lemma Param_val_returns (fuel : nat) (p : Param) (w : World) :
  scoped_params w -> (3 <= fuel)%nat ->
  wp False (Param_val fuel p) w (fun _ w' => w' = w) (fun w' => w' = w).
Proof.
  intros Hscoped Hfuel.
  assert (L1 : forall n g,
            param_job_id g = None -> param_pipeline_id g = None ->
            wp False (Param_val (S n) g) w (fun _ w' => w' = w) (fun w' => w' = w)).
  { intros n g Hj Hp. rewrite Param_val_S_body. apply wp_Param_val_typed.
    apply wp_expand_vars; rewrite Hj, ?Hp; discriminate. }
  assert (Lg : forall n g, In g (Param_globals w) ->
            wp False (Param_val (S n) g) w (fun _ w' => w' = w) (fun w' => w' = w)).
  { intros n g Hin. unfold Param_globals in Hin.
    apply filter_In in Hin as [_ Hin]. apply andb_prop in Hin as [H1 H2].
    apply bool_decide_eq_true in H1, H2. now apply L1. }
  assert (L2 : forall n q,
            param_job_id q = None ->
            wp False (Param_val (S (S n)) q) w
              (fun _ w' => w' = w) (fun w' => w' = w)).
  { intros n q Hj. rewrite Param_val_S_body. apply wp_Param_val_typed.
    apply wp_expand_vars; [intros _ g Hin; now apply Lg|rewrite Hj; discriminate]. }
  destruct fuel as [|[|[|n]]]; try lia.
  rewrite Param_val_S_body. apply wp_Param_val_typed.
  apply wp_expand_vars; [intros _ g Hin; now apply Lg|].
  intros _ q Hin Hpipe. apply L2.
  destruct (Hscoped q Hin) as [H|H]; [exact H|]. rewrite H in Hpipe. discriminate.
Qed.

(** ** Invariants of the handlers *)

Lemma keeps_ret T (I : World -> Prop) {A} (a : A) : keeps T I (ret a).
Proof. intros w HI. exact HI. Qed.

Lemma keeps_raise T (I : World -> Prop) {A} e : keeps T I (@raise A e).
Proof. intros w HI. exact HI. Qed.

Lemma keeps_preserves (I : World -> Prop) {A} (m : M A) : keeps True I m -> preserves I m.
Proof. intros H w HI. specialize (H w HI). unfold wp, post in *. now destruct (m w). Qed.

Lemma keeps_reads T (I : World -> Prop) {A} (m : M A) : reads T m -> keeps T I m.
Proof. intros Hm w HI. apply wp_reads; auto. Qed.

Lemma keeps_bind T (I : World -> Prop) {A B} (m : M A) (k : A -> M B) :
  keeps T I m -> (forall a, keeps T I (k a)) -> keeps T I (bind m k).
Proof.
  intros Hm Hk w HI. apply wp_bind.
  eapply wp_mono; [apply (Hm w HI)| |auto]. intros a w' HI'. now apply Hk.
Qed.

Lemma keeps_for_each T (I : World -> Prop) {A} (xs : list A) (body : A -> M unit) :
  (forall x, keeps T I (body x)) -> keeps T I (for_each xs body).
Proof.
  intros Hb. induction xs as [|x xs IH]; [apply keeps_ret|].
  cbn [for_each]. apply keeps_bind; [apply Hb|]. intros _. exact IH.
Qed.

Lemma keeps_for_return T (I : World -> Prop) {A R} (xs : list A)
    (body : A -> M (option R)) :
  (forall x, keeps T I (body x)) -> keeps T I (for_return xs body).
Proof.
  intros Hb. induction xs as [|x xs IH]; [apply keeps_ret|].
  cbn [for_return]. apply keeps_bind; [apply Hb|].
  intros [r|]; [apply keeps_ret|exact IH].
Qed.

Lemma keeps_map_m T (I : World -> Prop) {A B} (xs : list A) (f : A -> M B) :
  (forall x, keeps T I (f x)) -> keeps T I (map_m xs f).
Proof.
  intros Hf. induction xs as [|x xs IH]; [apply keeps_ret|].
  cbn [map_m]. apply keeps_bind; [apply Hf|]. intros y.
  apply keeps_bind; [exact IH|]. intros ys. apply keeps_ret.
Qed.

Lemma keeps_try_except T (I : World -> Prop) {A} (m : M A) caught handler :
  keeps T I m -> (forall e, keeps T I (handler e)) ->
  keeps T I (try_except m caught handler).
Proof.
  intros Hm Hh w HI. specialize (Hm w HI). unfold wp, try_except in *.
  destruct (m w) as [a w'|e w'|]; auto.
  destruct (caught e); auto. exact (Hh e w' Hm).
Qed.

Lemma keeps_modify T (I : World -> Prop) (f : World -> World) :
  (forall w, I w -> I (f w)) -> keeps T I (modify f).
Proof. intros Hf w HI. now apply Hf. Qed.

Lemma keeps_Param_val_True (I : World -> Prop) fuel p : keeps True I (Param_val fuel p).
Proof. apply keeps_reads, reads_Param_val. Qed.

Lemma keeps_Param_val_False (I : World -> Prop) fuel p :
  (forall w, I w -> scoped_params w) -> (3 <= fuel)%nat ->
  keeps False I (Param_val fuel p).
Proof.
  intros Hsc Hfuel w HI.
  eapply wp_mono; [apply Param_val_returns; [now apply Hsc|exact Hfuel]| |];
    cbv beta; intros; now subst.
Qed.

Section Handlers.

Variable T : Prop.
Variable Inv : World -> Prop.
Hypothesis HInv : job_invariant Inv.

Lemma Inv_other w w' :
  cache w' = cache w -> jobs w' = jobs w -> params w' = params w ->
  start_conditions w' = start_conditions w -> Inv w -> Inv w'.
Proof. apply (inv_frame Inv HInv). Qed.

Lemma keeps_datetime_now : keeps T Inv datetime_now.
Proof. intros w HI. unfold wp, datetime_now. now apply (Inv_other w). Qed.

Lemma keeps_uuid4 : keeps T Inv uuid_uuid4.
Proof. intros w HI. unfold wp, uuid_uuid4. now apply (Inv_other w). Qed.

Lemma keeps_update_pipeline pid f : keeps T Inv (update_pipeline pid f).
Proof. apply keeps_modify. intros w HI. now apply (Inv_other w). Qed.

Lemma keeps_log_struct entry : keeps T Inv (log_struct entry).
Proof. apply keeps_modify. intros w HI. now apply (Inv_other w). Qed.

Lemma keeps_taskqueue_add task : keeps T Inv (taskqueue_add task).
Proof.
  unfold taskqueue_add. apply keeps_bind; [|intros; apply keeps_ret].
  apply keeps_modify. intros w HI. now apply (Inv_other w).
Qed.

Lemma keeps_set_status self s :
  s <> "waiting" -> keeps T Inv (memcache_set_cache (job_status_key self) (CStr s)).
Proof. intros Hs. apply keeps_modify. intros w. now apply (inv_status Inv HInv). Qed.

Lemma keeps_list_update self fn :
  keeps T Inv (memcache_set_cache_with_value_function (job_list_key self) fn).
Proof.
  intros w HI. apply wp_cache_update; [|exact HI].
  intros v _. now apply (inv_list Inv HInv).
Qed.

Lemma keeps_enqueued_update self fn :
  keeps T Inv (memcache_set_cache_with_value_function (job_enqueued_key self) fn).
Proof.
  intros w HI. apply wp_cache_update; [|exact HI].
  intros v _. now apply (inv_enqueued Inv HInv).
Qed.

Lemma keeps_Pipeline__finish pid : keeps T Inv (Pipeline__finish pid).
Proof.
  unfold Pipeline__finish.
  apply keeps_bind; [apply keeps_reads, reads_gets|]. intros sinks.
  apply keeps_bind.
  { apply keeps_for_return. intros job.
    apply keeps_bind; [apply keeps_reads, reads_Job_get_status|].
    intros st. destruct (status_is st "failed"); apply keeps_ret. }
  intros r. apply keeps_bind; [apply keeps_datetime_now|]. intros t.
  apply keeps_bind; [apply keeps_update_pipeline|]. intros _.
  unfold NotificationMailer_finished_pipeline.
  apply keeps_bind; [apply keeps_reads, reads_Pipeline_find|].
  intros p. apply keeps_modify. intros w HI. now apply (Inv_other w).
Qed.

Lemma keeps_Pipeline_job_finished pid : keeps T Inv (Pipeline_job_finished pid).
Proof.
  unfold Pipeline_job_finished.
  apply keeps_bind; [apply keeps_reads, reads_gets|]. intros js.
  apply keeps_bind.
  { apply keeps_for_return. intros job.
    apply keeps_bind; [apply keeps_reads, reads_Job_get_status|].
    intros st. destruct (negb _); apply keeps_ret. }
  intros [b|]; [apply keeps_ret|].
  apply keeps_bind; [apply keeps_Pipeline__finish|].
  intros; apply keeps_ret.
Qed.

(** The tail shared by [set_failed_status] and [set_succeeded_status]:
    decrement [remaining_jobs], write the status, stamp the row. *)
Lemma wp_settle_status jid self pipeline s w (k : M unit) :
  s <> "waiting" -> keeps T Inv k ->
  job_pipeline_id self = Some (pipeline_id_ pipeline) -> Inv w ->
  wp T (n <- gets (fun w => Z.of_nat (length (Pipeline_jobs (pipeline_id_ pipeline) w))) ;;
        Job__decrease_value_cache self CACHE_KEY_REMAINING_JOBS (Some n) ;;;
        memcache_set_cache (job_status_key self) (CStr s) ;;;
        t <- datetime_now ;;
        update_job jid (job_with_status s t) ;;;
        k) w (fun _ => Inv) Inv.
Proof.
  intros Hs Hk Hpid HI.
  apply wp_bind, wp_gets. apply wp_bind.
  unfold Job__decrease_value_cache. fold (job_remaining_key self).
  apply wp_cache_update; [|exact HI]. intros v Hv.
  pose proof (inv_remaining Inv HInv w self _ v HI Hpid Hv) as HI1.
  apply wp_bind, wp_modify.
  pose proof (inv_status Inv HInv _ self s Hs HI1) as HI2.
  apply wp_bind, wp_datetime_now. apply wp_bind, wp_modify.
  apply wp_keeps; [exact Hk|].
  apply (inv_job_status Inv HInv); [exact Hs|].
  eapply Inv_other; [| | | |exact HI2]; reflexivity.
Qed.

Lemma keeps_Job_set_failed_status jid : keeps T Inv (Job_set_failed_status jid).
Proof.
  intros w HI. unfold Job_set_failed_status.
  apply wp_bind, wp_Job_find; [|exact HI]. intros self Hjob.
  apply wp_bind. unfold Job__increase_value_cache. fold (job_failed_key self).
  apply wp_cache_update; [|exact HI]. intros v Hv.
  pose proof (inv_failed Inv HInv w self v HI Hv) as HI1.
  apply wp_bind, wp_Job_pipeline; [|exact HI1]. intros pipeline Hpid Hp.
  apply (wp_settle_status jid self pipeline "failed");
    [discriminate|apply keeps_update_pipeline|exact Hpid|exact HI1].
Qed.

Lemma keeps_Job_set_succeeded_status jid : keeps T Inv (Job_set_succeeded_status jid).
Proof.
  intros w HI. unfold Job_set_succeeded_status.
  apply wp_bind, wp_Job_find; [|exact HI]. intros self Hjob.
  apply wp_bind, wp_Job_pipeline; [|exact HI]. intros pipeline Hpid Hp.
  apply wp_bind, wp_gets. apply wp_bind.
  unfold Job__decrease_value_cache. fold (job_remaining_key self).
  apply wp_cache_update; [|exact HI]. intros v Hv.
  pose proof (inv_remaining Inv HInv w self _ v HI Hpid Hv) as HI1.
  apply wp_bind, wp_modify.
  assert (Hs : "succeeded" <> "waiting") by discriminate.
  pose proof (inv_status Inv HInv _ self "succeeded" Hs HI1) as HI2.
  apply wp_bind, wp_datetime_now. apply wp_modify.
  apply (inv_job_status Inv HInv); [exact Hs|].
  eapply Inv_other; [| | | |exact HI2]; reflexivity.
Qed.

Lemma keeps_Job_enqueue jid worker_class worker_params delay :
  keeps T Inv (Job_enqueue jid worker_class worker_params delay).
Proof.
  unfold Job_enqueue.
  apply keeps_bind; [apply keeps_reads, reads_Job_get_status|].
  intros st. destruct (negb _); [apply keeps_ret|].
  apply keeps_bind; [apply keeps_reads, reads_Job_find|]. intros self.
  apply keeps_bind; [apply keeps_reads, reads_Job_pipeline|].
  intros pipeline. apply keeps_bind; [apply keeps_uuid4|]. intros u.
  apply keeps_bind; [apply keeps_list_update|].
  intros _. apply keeps_bind; [apply keeps_taskqueue_add|]. intros task.
  apply keeps_bind.
  { apply keeps_modify. intros w HI.
    exact (inv_job_count Inv HInv w jid (fun j => job_enqueued_workers_count j + 1) HI). }
  intros _. apply keeps_bind; [|intros; apply keeps_ret].
  apply keeps_enqueued_update.
Qed.

Lemma keeps_Job_run fuel jid :
  (forall p, keeps T Inv (Param_val fuel p)) -> keeps T Inv (Job_run fuel jid).
Proof.
  intros Hparam. unfold Job_run. apply keeps_bind.
  { apply keeps_modify. intros w HI.
    exact (inv_job_count Inv HInv w jid (fun _ => 0) HI). }
  intros _. apply keeps_bind; [apply keeps_reads, reads_Job_find|].
  intros self. apply keeps_bind; [now apply keeps_set_status|].
  intros _. apply keeps_bind; [apply keeps_reads, reads_gets|].
  intros ps. apply keeps_bind.
  { apply keeps_map_m. intros p.
    apply keeps_bind; [apply Hparam|]. intros; apply keeps_ret. }
  intros wps. apply keeps_bind; [apply keeps_Job_enqueue|].
  intros; apply keeps_ret.
Qed.

Lemma keeps_Job_stop jid : keeps T Inv (Job_stop jid).
Proof.
  unfold Job_stop.
  apply keeps_bind; [apply keeps_reads, reads_Job_find|]. intros self.
  destruct (String.eqb (job_status self) "waiting");
    [|destruct (String.eqb (job_status self) "running"); [|apply keeps_ret]];
    (apply keeps_bind; [apply keeps_datetime_now|]; intros t;
     apply keeps_bind; [|intros; apply keeps_ret];
     apply keeps_modify; intros w HI; now apply (inv_job_status Inv HInv)).
Qed.

Lemma keeps_start_dependent_jobs_with (start : Z -> M bool) jid :
  (forall j, keeps T Inv (start j)) ->
  keeps T Inv (start_dependent_jobs_with start jid).
Proof.
  intros Hstart. unfold start_dependent_jobs_with.
  apply keeps_bind; [apply keeps_reads, reads_Job_find|]. intros self.
  apply keeps_bind; [apply keeps_reads, reads_gets|].
  intros deps. apply keeps_bind.
  { apply keeps_for_each. intros job.
    apply keeps_bind; [apply Hstart|]. intros; apply keeps_ret. }
  intros _. apply keeps_bind; [apply keeps_reads, reads_Job_pipeline|].
  intros pipeline. apply keeps_bind; [apply keeps_Pipeline_job_finished|].
  intros; apply keeps_ret.
Qed.

Lemma keeps_Job_start_S fuel jid :
  (forall p, keeps T Inv (Param_val fuel p)) ->
  (forall j, keeps T Inv (Job_start fuel j)) ->
  keeps T Inv (Job_start (S fuel) jid).
Proof.
  intros Hparam IH. rewrite Job_start_S.
  apply keeps_bind; [apply keeps_reads, reads_Job_get_status|].
  intros st. destruct (negb _); [apply keeps_ret|].
  apply keeps_bind; [apply keeps_reads, reads_gets|]. intros scs.
  apply keeps_bind.
  { apply keeps_for_return. intros sc.
    apply keeps_bind;
      [apply keeps_reads, reads_Job__start_condition_is_fulfuilled|].
    intros [|].
    - apply keeps_bind; [apply keeps_reads, reads_Job_get_status|].
      intros st'. destruct (negb _); apply keeps_ret.
    - apply keeps_bind; [apply keeps_Job_set_failed_status|]. intros _.
      apply keeps_bind; [|intros; apply keeps_ret].
      now apply keeps_start_dependent_jobs_with. }
  intros [b|]; [apply keeps_ret|].
  apply keeps_bind; [now apply keeps_Job_run|]. intros; apply keeps_ret.
Qed.

Lemma keeps_Job_worker_succeeded fuel jid task_name :
  (forall j, keeps T Inv (Job_start fuel j)) ->
  keeps T Inv (Job_worker_succeeded fuel jid task_name).
Proof.
  intros Hstart. unfold Job_worker_succeeded.
  apply keeps_bind; [apply keeps_reads, reads_Job_find|]. intros self.
  apply keeps_bind; [apply keeps_list_update|]. intros _.
  apply keeps_bind; [apply keeps_enqueued_update|]. intros _.
  apply keeps_bind; [apply keeps_reads, reads_memcache_get|].
  intros v. destruct (bool_decide _); [|apply keeps_ret].
  apply keeps_bind; [apply keeps_reads, reads_Job_get_status|].
  intros st. apply keeps_bind;
    [|intros; now apply keeps_start_dependent_jobs_with].
  destruct (negb _);
    [apply keeps_Job_set_succeeded_status|apply keeps_Job_set_failed_status].
Qed.

Lemma keeps_Job_worker_failed fuel jid task_name :
  (forall j, keeps T Inv (Job_start fuel j)) ->
  keeps T Inv (Job_worker_failed fuel jid task_name).
Proof.
  intros Hstart. unfold Job_worker_failed.
  apply keeps_bind; [apply keeps_reads, reads_Job_find|]. intros self.
  apply keeps_bind; [apply keeps_list_update|]. intros _.
  apply keeps_bind; [apply keeps_enqueued_update|]. intros _.
  apply keeps_bind; [apply keeps_Job_set_failed_status|].
  intros _. apply keeps_bind; [apply keeps_reads, reads_memcache_get|].
  intros v. destruct (bool_decide _); [|apply keeps_ret].
  now apply keeps_start_dependent_jobs_with.
Qed.

Lemma keeps_Pipeline_stop pid : keeps T Inv (Pipeline_stop pid).
Proof.
  unfold Pipeline_stop.
  apply keeps_bind; [apply keeps_reads, reads_Pipeline_find|].
  intros self. destruct (negb _); [apply keeps_ret|].
  apply keeps_bind; [apply keeps_reads, reads_gets|]. intros js.
  apply keeps_bind.
  { apply keeps_for_each. intros job.
    apply keeps_bind; [apply keeps_Job_stop|]. intros; apply keeps_ret. }
  intros _. apply keeps_bind; [apply keeps_reads, reads_gets|].
  intros js'. apply keeps_bind.
  { apply keeps_for_return. intros job.
    apply keeps_bind; [apply keeps_reads, reads_Job_get_status|].
    intros st. destruct (negb _); [|apply keeps_ret].
    apply keeps_bind; [apply keeps_datetime_now|]. intros t.
    apply keeps_bind; [apply keeps_update_pipeline|].
    intros; apply keeps_ret. }
  intros [b|]; [apply keeps_ret|].
  apply keeps_bind; [apply keeps_Pipeline__finish|].
  intros; apply keeps_ret.
Qed.

End Handlers.

Section Starting.

Variable T : Prop.
Variable Inv : World -> Prop.
Hypothesis HJob : job_invariant Inv.
Hypothesis HWait :
  forall w self, Inv w ->
    Inv (set_cache_map (insert (job_status_key self) (CStr "waiting")) w).

Lemma keeps_Job_prepare_for_start jid : keeps T Inv (Job_prepare_for_start jid).
Proof.
  unfold Job_prepare_for_start.
  apply keeps_bind; [apply keeps_reads, reads_Job_get_status|].
  intros st. destruct (negb _); [apply keeps_ret|].
  apply keeps_bind; [apply keeps_reads, reads_Job_find|].
  intros self. apply keeps_bind; [|intros; apply keeps_ret].
  apply keeps_modify. intros w. apply HWait.
Qed.

Lemma keeps_Job_get_ready fuel jid :
  (forall p, keeps T Inv (Param_val fuel p)) -> keeps T Inv (Job_get_ready fuel jid).
Proof.
  intros Hparam. unfold Job_get_ready.
  apply keeps_bind; [apply keeps_reads, reads_Job_find|].
  intros self. apply keeps_bind; [apply keeps_reads, reads_gets|].
  intros ps. apply keeps_bind.
  - apply keeps_for_return. intros param. apply keeps_try_except.
    + apply keeps_bind; [apply Hparam|]. intros; apply keeps_ret.
    + intros e. apply keeps_bind; [apply keeps_log_struct, HJob|].
      intros; apply keeps_ret.
  - intros [b|]; [apply keeps_ret|].
    apply keeps_bind; [apply keeps_Job_prepare_for_start|].
    intros [|]; [apply keeps_ret|apply keeps_raise].
Qed.

(** [Pipeline.start] on a pipeline that can be started: what holds once the
    cache is reset holds whatever the call answers. *)
Lemma wp_Pipeline_start_of_reset fuel pid w self :
  (forall p, keeps T Inv (Param_val fuel p)) ->
  (forall j, keeps T Inv (Job_start fuel j)) ->
  lookup_pipeline pid w = Some self ->
  startable_pipeline_status (pipeline_status self) = true ->
  Inv (set_cache_map (fun _ => cache_after_get_ready pid w) w) ->
  wp T (Pipeline_start fuel pid) w (fun _ => Inv) Inv.
Proof.
  intros Hparam Hstart Hp Hst HI. unfold Pipeline_start.
  apply wp_bind. unfold wp at 1. rewrite (Pipeline_find_Some _ _ _ Hp), Hst.
  cbn [negb]. apply wp_bind. unfold wp at 1. rewrite Pipeline_get_ready_eq.
  apply wp_keeps; [|exact HI].
  apply keeps_bind; [apply keeps_reads, reads_gets|]. intros js.
  destruct (length js <? 1)%nat; [apply keeps_ret|].
  apply keeps_bind.
  { apply keeps_for_return. intros job.
    apply keeps_bind; [apply keeps_reads, reads_Job_get_status|].
    intros st. destruct (negb _); apply keeps_ret. }
  intros [b|]; [apply keeps_ret|].
  apply keeps_bind.
  { apply keeps_for_return. intros job.
    apply keeps_bind; [now apply keeps_Job_get_ready|].
    intros ok. destruct (negb ok); apply keeps_ret. }
  intros [b|]; [apply keeps_ret|].
  apply keeps_bind.
  { apply keeps_for_each. intros job.
    apply keeps_bind; [apply Hstart|]. intros; apply keeps_ret. }
  intros _. apply keeps_bind; [apply keeps_datetime_now, HJob|].
  intros t.
  apply keeps_bind; [apply keeps_update_pipeline, HJob|].
  intros; apply keeps_ret.
Qed.

End Starting.

Lemma keeps_Pipeline_start T (Inv : World -> Prop) (HInv : start_invariant Inv) fuel pid :
  (forall p, keeps T Inv (Param_val fuel p)) ->
  (forall j, keeps T Inv (Job_start fuel j)) ->
  keeps T Inv (Pipeline_start fuel pid).
Proof.
  intros Hparam Hstart w HI.
  destruct (lookup_pipeline pid w) as [self|] eqn:Hp.
  - destruct (startable_pipeline_status (pipeline_status self)) eqn:Hst.
    + apply (wp_Pipeline_start_of_reset T Inv (inv_job _ HInv) (inv_waiting _ HInv)
               fuel pid w self Hparam Hstart Hp Hst).
      now apply (inv_get_ready Inv HInv).
    + unfold wp, Pipeline_start.
      rewrite (bind_Ret _ _ _ _ _ (Pipeline_find_Some _ _ _ Hp)), Hst. exact HI.
  - unfold wp, Pipeline_start, bind, Pipeline_find. rewrite Hp. exact HI.
Qed.

(** With fuel to spare or not, [Job.start] keeps what its single writes
    keep. *)
Lemma keeps_Job_start_True (Inv : World -> Prop) fuel jid :
  job_invariant Inv -> keeps True Inv (Job_start fuel jid).
Proof.
  intros HInv. revert jid. induction fuel as [|fuel IH]; intros jid.
  - intros w _. exact I.
  - apply keeps_Job_start_S; [exact HInv| |exact IH].
    intros p. apply keeps_Param_val_True.
Qed.

(** ** The counters of a pipeline *)

Lemma run_ops_reachable fuel os w0 w w' :
  reachable w0 w -> run_ops fuel os w = Some w' -> reachable w0 w'.
Proof.
  revert w. induction os as [|o os IH]; intros w Hw Hrun.
  - now injection Hrun as <-.
  - cbn [run_ops] in Hrun.
    destruct (world_after (run_op fuel o w)) as [w1|] eqn:E; [|discriminate].
    apply (IH w1); [|exact Hrun]. now apply (reach_step w0 w fuel o).
Qed.

Lemma Pipeline_jobs_map pid (f : Job -> Job) w :
  (forall j, job_pipeline_id (f j) = job_pipeline_id j) ->
  length (Pipeline_jobs pid (set_jobs (List.map f) w)) = length (Pipeline_jobs pid w).
Proof.
  intros Hf. unfold Pipeline_jobs. world_simpl.
  induction (jobs w) as [|j js IH]; [reflexivity|].
  cbn [List.map List.filter]. rewrite Hf.
  destruct (bool_decide _); cbn [length]; now rewrite IH.
Qed.

Lemma counters_bounded_frame pid w w' :
  cache w' = cache w ->
  length (Pipeline_jobs pid w') = length (Pipeline_jobs pid w) ->
  counters_bounded pid w -> counters_bounded pid w'.
Proof. unfold counters_bounded. intros -> ->. auto. Qed.

Lemma counters_bounded_other_key pid w key v :
  key <> pipeline_failed_key pid -> key <> pipeline_remaining_key pid ->
  counters_bounded pid w -> counters_bounded pid (set_cache_map (insert key v) w).
Proof.
  intros H1 H2. unfold counters_bounded. world_simpl.
  change (Pipeline_jobs pid (set_cache_map (insert key v) w)) with (Pipeline_jobs pid w).
  now rewrite !lookup_insert_ne by assumption.
Qed.

Lemma job_key_prefix_inj self pid key :
  job_pipeline_id self = Some pid ->
  forall pid', Job__get_pipeline_prefix self +:+ key = (pretty pid' +:+ "_") +:+ key ->
               pid' = pid.
Proof.
  intros Hpid pid' Heq. unfold Job__get_pipeline_prefix in Heq. rewrite Hpid in Heq.
  cbn [py_str_int] in Heq.
  apply string_app_suffix_inj in Heq as [Heq _]; [|reflexivity].
  apply string_app_suffix_inj in Heq as [Heq _]; [|reflexivity].
  symmetry. now apply (inj pretty).
Qed.

Lemma prefix_nonempty s : s +:+ "_" <> "".
Proof. destruct s; discriminate. Qed.

Lemma unprefixed_neq (pid : Z) key : key <> (pretty pid +:+ "_") +:+ key.
Proof. intros H. symmetry in H. revert H. apply string_app_prefix_neq, prefix_nonempty. Qed.

Lemma counters_bounded_jobs pid w w' :
  cache w' = cache w -> jobs w' = jobs w ->
  counters_bounded pid w -> counters_bounded pid w'.
Proof.
  intros Hc Hj. apply counters_bounded_frame; [exact Hc|].
  unfold Pipeline_jobs. now rewrite Hj.
Qed.

Lemma counters_bounded_status pid w self v :
  counters_bounded pid w ->
  counters_bounded pid (set_cache_map (insert (job_status_key self) v) w).
Proof. apply counters_bounded_other_key; key_neq. Qed.

Lemma counters_bounded_list pid w self v :
  counters_bounded pid w ->
  counters_bounded pid (set_cache_map (insert (job_list_key self) v) w).
Proof. apply counters_bounded_other_key; key_neq. Qed.

Lemma counters_bounded_enqueued pid w self v :
  counters_bounded pid w ->
  counters_bounded pid (set_cache_map (insert (job_enqueued_key self) v) w).
Proof. apply counters_bounded_other_key; key_neq. Qed.

Lemma counters_bounded_failed pid w self v :
  counters_bounded pid w ->
  increase_handler None (cache w !! job_failed_key self) = inr v ->
  counters_bounded pid (set_cache_map (insert (job_failed_key self) v) w).
Proof.
  intros [Hf Hr] Hv. unfold counters_bounded. world_simpl.
  change (Pipeline_jobs pid (set_cache_map _ w)) with (Pipeline_jobs pid w).
  split.
  - destruct (decide (job_failed_key self = pipeline_failed_key pid)) as [E|E].
    + rewrite E in *. rewrite lookup_insert_eq.
      destruct (cache w !! pipeline_failed_key pid) as [[n|s|l]|];
        try contradiction.
      * unfold increase_handler in Hv. simpl in Hv.
        destruct (Z.eqb_spec n 0); injection Hv as <-; lia.
      * injection Hv as <-. lia.
    + now rewrite lookup_insert_ne.
  - rewrite lookup_insert_ne by key_neq. exact Hr.
Qed.

Lemma counters_bounded_remaining pid w self pid' v :
  counters_bounded pid w -> job_pipeline_id self = Some pid' ->
  decrease_handler (Some (Z.of_nat (length (Pipeline_jobs pid' w))))
    (cache w !! job_remaining_key self) = inr v ->
  counters_bounded pid (set_cache_map (insert (job_remaining_key self) v) w).
Proof.
  intros [Hf Hr] Hpid Hv. unfold counters_bounded. world_simpl.
  change (Pipeline_jobs pid (set_cache_map _ w)) with (Pipeline_jobs pid w).
  split.
  - rewrite lookup_insert_ne by key_neq. exact Hf.
  - destruct (decide (job_remaining_key self = pipeline_remaining_key pid)) as [E|E].
    + pose proof (job_key_prefix_inj self pid' _ Hpid pid E) as ->.
      rewrite E in *. rewrite lookup_insert_eq.
      set (N := Z.of_nat (length (Pipeline_jobs pid' w))) in *.
      assert (0 <= N) by (subst N; lia).
      unfold decrease_handler in Hv. cbn [truthy_int default] in Hv.
      destruct (cache w !! pipeline_remaining_key pid') as [[n|s|l]|];
        try contradiction; simpl in Hv.
      * destruct (Z.eqb_spec n 0); destruct (Z.eqb_spec N 0);
          simpl in Hv; injection Hv as <-; lia.
      * destruct (Z.eqb_spec N 0); simpl in Hv; injection Hv as <-; lia.
    + now rewrite lookup_insert_ne.
Qed.

Lemma counters_bounded_job_rows pid w jid (f : Job -> Job) :
  (forall j, job_pipeline_id (f j) = job_pipeline_id j) ->
  counters_bounded pid w ->
  counters_bounded pid
    (set_jobs (List.map (fun j => if job_id_ j =? jid then f j else j)) w).
Proof.
  intros Hf. apply counters_bounded_frame; [reflexivity|].
  apply Pipeline_jobs_map. intros j. destruct (job_id_ j =? jid); [apply Hf|reflexivity].
Qed.

Lemma counters_bounded_get_ready pid w pid' :
  counters_bounded pid w ->
  counters_bounded pid (set_cache_map (fun _ => cache_after_get_ready pid' w) w).
Proof.
  unfold counters_bounded. world_simpl.
  change (Pipeline_jobs pid (set_cache_map _ w)) with (Pipeline_jobs pid w).
  unfold cache_after_get_ready.
  assert (H1 : CACHE_KEY_FAILED_JOBS <> pipeline_failed_key pid)
    by apply unprefixed_neq.
  assert (H2 : CACHE_KEY_REMAINING_JOBS <> pipeline_remaining_key pid)
    by apply unprefixed_neq.
  rewrite !(lookup_insert_ne _ CACHE_KEY_LIST_OF_TASKS_ENQUEUED) by key_neq.
  rewrite (lookup_insert_ne _ CACHE_KEY_REMAINING_JOBS (pipeline_failed_key pid))
    by key_neq.
  rewrite (lookup_insert_ne _ CACHE_KEY_FAILED_JOBS (pipeline_failed_key pid))
    by exact H1.
  rewrite (lookup_insert_ne _ CACHE_KEY_REMAINING_JOBS (pipeline_remaining_key pid))
    by exact H2.
  rewrite (lookup_insert_ne _ CACHE_KEY_FAILED_JOBS (pipeline_remaining_key pid))
    by key_neq.
  auto.
Qed.

Lemma counters_bounded_job_invariant pid : job_invariant (counters_bounded pid).
Proof.
  split.
  - intros w w' Hc Hj _ _. now apply counters_bounded_jobs.
  - intros w self s _. apply counters_bounded_status.
  - intros w self v. apply counters_bounded_list.
  - intros w self v. apply counters_bounded_enqueued.
  - intros w self v. apply counters_bounded_failed.
  - intros w self pid' v. apply counters_bounded_remaining.
  - intros w jid st t _. now apply counters_bounded_job_rows.
  - intros w jid g. now apply counters_bounded_job_rows.
Qed.

Lemma counters_bounded_start_invariant pid : start_invariant (counters_bounded pid).
Proof.
  split.
  - apply counters_bounded_job_invariant.
  - intros w self. apply counters_bounded_status.
  - intros w pid'. apply counters_bounded_get_ready.
Qed.

Lemma counters_bounded_run_op pid fuel o : preserves (counters_bounded pid) (run_op fuel o).
Proof.
  apply keeps_preserves.
  pose proof (counters_bounded_job_invariant pid) as HJ.
  pose proof (counters_bounded_start_invariant pid) as HS.
  assert (Hstart : forall j, keeps True (counters_bounded pid) (Job_start fuel j))
    by (intros j; now apply keeps_Job_start_True).
  destruct o as [p|p|j t|j t]; cbn [run_op].
  - apply keeps_bind; [|intros; apply keeps_ret].
    apply keeps_Pipeline_start; [exact HS| |exact Hstart].
    intros q. apply keeps_Param_val_True.
  - apply keeps_bind; [|intros; apply keeps_ret]. now apply keeps_Pipeline_stop.
  - now apply keeps_Job_worker_succeeded.
  - now apply keeps_Job_worker_failed.
Qed.

(** C6 (as amended): for every pipeline P, in every cache snapshot reachable
    by start, stop, worker_succeeded and worker_failed from a snapshot in
    which they hold (an empty cache, for one), the counters kept under
    [<P>_failed_jobs] and [<P>_remaining_jobs] satisfy [0 <= failed_jobs]
    and [0 <= remaining_jobs <= |jobs(P)|].  No upper bound on
    [failed_jobs] is kept. *)
Theorem C6_counters_bounded_below_and_remaining_above
    (pid : Z) (w0 w : World) :
  counters_bounded pid w0 -> reachable w0 w -> counters_bounded pid w.
Proof.
  intros H0 Hreach. induction Hreach as [|w fuel o w' _ IH Hstep]; [exact H0|].
  pose proof (counters_bounded_run_op pid fuel o w IH) as Hpost.
  unfold post in Hpost. unfold world_after in Hstep.
  destruct (run_op fuel o w) as [a w1|e w1|]; [| |discriminate];
    injection Hstep as <-; exact Hpost.
Qed.

Lemma C6_counters_bounded_below_and_remaining_above_witness :
  counters_bounded 1 world_one_job
  /\ match run_ops 5 [OpStart 1; OpWorkerFailed 1 "my-pipe_a_W_uuid0"] world_one_job with
     | Some w => reachable world_one_job w /\ counters_bounded 1 w
     | None => False
     end.
Proof.
  assert (H0 : counters_bounded 1 world_one_job) by (vm_compute; split; exact I).
  split; [exact H0|].
  destruct (run_ops 5 [OpStart 1; OpWorkerFailed 1 "my-pipe_a_W_uuid0"] world_one_job)
    as [w|] eqn:E; [|vm_compute in E; discriminate].
  assert (Hreach : reachable world_one_job w)
    by (eapply run_ops_reachable; [apply reach_init|exact E]).
  split; [exact Hreach|].
  exact (C6_counters_bounded_below_and_remaining_above 1 world_one_job w H0 Hreach).
Defined.

Lemma failure_delivered_twice :
  match run_ops 5 [OpStart 1; OpWorkerFailed 1 "my-pipe_a_W_uuid0";
                   OpWorkerFailed 1 "my-pipe_a_W_uuid0"] world_one_job with
  | Some w => cache w !! pipeline_failed_key 1 = Some (CInt 2)
              /\ Z.of_nat (length (Pipeline_jobs 1 w)) = 1
  | None => False
  end.
Proof. vm_compute. split; reflexivity. Qed.

(** C6, the claim as stated fails: a pipeline with a single job whose
    failure callback is delivered twice counts two failed jobs. *)
Lemma C6_failed_jobs_exceeds_job_count :
  exists w,
    reachable world_one_job w
    /\ cache w !! pipeline_failed_key 1 = Some (CInt 2)
    /\ Z.of_nat (length (Pipeline_jobs 1 w)) = 1.
Proof.
  pose proof failure_delivered_twice as H.
  destruct (run_ops 5 [OpStart 1; OpWorkerFailed 1 "my-pipe_a_W_uuid0";
                       OpWorkerFailed 1 "my-pipe_a_W_uuid0"] world_one_job)
    as [w|] eqn:E; [|contradiction].
  exists w. split; [eapply run_ops_reachable; [apply reach_init|exact E]|exact H].
Qed.

(** ** Duplicate delivery of [worker_succeeded] *)

Lemma delete_task_handler_absent task_name v :
  holds_list v -> ~ In task_name (list_of v) ->
  delete_task_handler task_name v = inr (CList (list_of v)).
Proof.
  destruct v as [[z|s|l]|]; simpl; try contradiction; intros _ Hnot; [|reflexivity].
  unfold delete_task_handler. simpl. destruct l as [|x l]; [reflexivity|].
  f_equal. f_equal. revert Hnot. generalize (x :: l). clear x l.
  induction l as [|y l IH]; intros Hnot; [reflexivity|].
  cbn [List.filter]. destruct (String.eqb_spec y task_name) as [->|Hne].
  - exfalso. apply Hnot. now left.
  - cbn [negb]. f_equal. apply IH. intros H. apply Hnot. now right.
Qed.

(** C4 (as amended): delivering [worker_succeeded(job, task_name)] again,
    once [task_name] is no longer in the task list, leaves the list as it is
    (removing an absent name is a no-op); and when the enqueued-tasks
    counter is not zero after the duplicate's decrement, the job status,
    [failed_jobs], [remaining_jobs], the job rows and the pipeline rows are
    as they were after the first delivery. *)
Theorem C4_duplicate_success_with_tasks_left
    (fuel : nat) (jid : Z) (task_name : string) (w : World) (self : Job) (cv : cval) :
  lookup_job jid w = Some self ->
  holds_list (cache w !! job_list_key self) ->
  ~ In task_name (list_of (cache w !! job_list_key self)) ->
  decrease_handler (Some (job_enqueued_workers_count self))
    (cache w !! job_enqueued_key self) = inr cv ->
  cv <> CInt 0 ->
  exists w',
    Job_worker_succeeded fuel jid task_name w = Ret tt w'
    /\ list_of (cache w' !! job_list_key self) = list_of (cache w !! job_list_key self)
    /\ (forall jid', effective_status w' jid' = effective_status w jid')
    /\ cache w' !! job_failed_key self = cache w !! job_failed_key self
    /\ cache w' !! job_remaining_key self = cache w !! job_remaining_key self
    /\ jobs w' = jobs w /\ pipelines w' = pipelines w.
Proof.
  intros Hjob Hl Hnot Hc Hnz.
  pose proof (delete_task_handler_absent task_name _ Hl Hnot) as Hdel.
  destruct (worker_succeeded_with_tasks_left fuel jid task_name w self _ cv
              Hjob Hdel Hc Hnz) as (Hrun & Hst).
  eexists. split; [exact Hrun|]. world_simpl.
  split; [|split; [exact Hst|split; [|split; [|split]]]]; try reflexivity.
  - rewrite lookup_insert_ne by key_neq. now rewrite lookup_insert_eq.
  - now rewrite !lookup_insert_ne by key_neq.
  - now rewrite !lookup_insert_ne by key_neq.
Qed.

Lemma C4_duplicate_success_with_tasks_left_witness :
  lookup_job 1 world_running = Some (demo_job 1 "a")
  /\ exists w',
       Job_worker_succeeded 5 1 "t" world_running = Ret tt w'
       /\ list_of (cache w' !! job_list_key (demo_job 1 "a"))
          = list_of (cache world_running !! job_list_key (demo_job 1 "a"))
       /\ (forall jid', effective_status w' jid' = effective_status world_running jid')
       /\ cache w' !! job_failed_key (demo_job 1 "a")
          = cache world_running !! job_failed_key (demo_job 1 "a")
       /\ cache w' !! job_remaining_key (demo_job 1 "a")
          = cache world_running !! job_remaining_key (demo_job 1 "a")
       /\ jobs w' = jobs world_running /\ pipelines w' = pipelines world_running.
Proof.
  split; [reflexivity|].
  apply (C4_duplicate_success_with_tasks_left 5 1 "t" world_running
           (demo_job 1 "a") (CInt 1));
    [reflexivity | exact I | intros [] | reflexivity | discriminate].
Defined.

(** C4, the claim as stated fails: in a started pipeline of two jobs, the
    success callback of the first job's only task leaves [remaining_jobs]
    at 1 when it is delivered once and at 0 when it is delivered twice. *)
Lemma C4_duplicate_success_decrements_remaining_again :
  match run_ops 5 [OpStart 1; OpWorkerSucceeded 1 "my-pipe_a_W_uuid0"] world_two_jobs,
        run_ops 5 [OpStart 1; OpWorkerSucceeded 1 "my-pipe_a_W_uuid0";
                   OpWorkerSucceeded 1 "my-pipe_a_W_uuid0"] world_two_jobs with
  | Some once, Some twice =>
      cache once !! "1_remaining_jobs" = Some (CInt 1)
      /\ cache twice !! "1_remaining_jobs" = Some (CInt 0)
      /\ effective_status once 1 = Some (CStr "succeeded")
      /\ effective_status once 2 = Some (CStr "running")
  | _, _ => False
  end.
Proof. vm_compute. repeat split; reflexivity. Qed.

(** ** The handlers return

    [Job.start] recurses through [_start_dependent_jobs] only after it has
    marked its own job failed, and it goes on only for a job that waits: the
    number of waiting rows bounds the depth.  [Param.val] recurses from a job
    param to the pipeline params to the global params. *)

Lemma filter_length_mono {A} (f g : A -> bool) (l : list A) :
  (forall x, In x l -> f x = true -> g x = true) ->
  (length (List.filter f l) <= length (List.filter g l))%nat.
Proof.
  induction l as [|x l IH]; intros H; [reflexivity|].
  cbn [List.filter].
  assert (IH' : (length (List.filter f l) <= length (List.filter g l))%nat)
    by (apply IH; intros y Hy; apply H; now right).
  destruct (f x) eqn:Hf.
  - rewrite (H x (or_introl eq_refl) Hf). cbn [length]. lia.
  - destruct (g x); cbn [length]; lia.
Qed.

Lemma filter_length_strict {A} (f g : A -> bool) (l : list A) (a : A) :
  (forall x, In x l -> f x = true -> g x = true) ->
  In a l -> g a = true -> f a = false ->
  (length (List.filter f l) < length (List.filter g l))%nat.
Proof.
  induction l as [|x l IH]; intros H Hin Hg Hf; [destruct Hin|].
  cbn [List.filter].
  assert (Hle : (length (List.filter f l) <= length (List.filter g l))%nat)
    by (apply filter_length_mono; intros y Hy; apply H; now right).
  destruct Hin as [->|Hin].
  - rewrite Hf, Hg. cbn [length]. lia.
  - assert (IH' : (length (List.filter f l) < length (List.filter g l))%nat)
      by (apply IH; auto; intros y Hy; apply H; now right).
    destruct (f x) eqn:Hfx.
    + rewrite (H x (or_introl eq_refl) Hfx). cbn [length]. lia.
    + destruct (g x); cbn [length]; lia.
Qed.

Lemma filter_map_length_mono {A} (f g : A -> bool) (h : A -> A) (l : list A) :
  (forall x, In x l -> f (h x) = true -> g x = true) ->
  (length (List.filter f (List.map h l)) <= length (List.filter g l))%nat.
Proof.
  induction l as [|x l IH]; intros H; [reflexivity|].
  cbn [List.map List.filter].
  assert (IH' : (length (List.filter f (List.map h l)) <= length (List.filter g l))%nat)
    by (apply IH; intros y Hy; apply H; now right).
  destruct (f (h x)) eqn:Hf.
  - rewrite (H x (or_introl eq_refl) Hf). cbn [length]. lia.
  - destruct (g x); cbn [length]; lia.
Qed.

Lemma waiting_count_frame w w' :
  cache w' = cache w -> jobs w' = jobs w -> waiting_count w' = waiting_count w.
Proof.
  intros Hc Hj. unfold waiting_count. rewrite Hj. f_equal.
  apply filter_ext. intros j. unfold waiting_row. now rewrite Hc.
Qed.

Lemma waiting_count_other_key w key v :
  (forall j, key <> job_status_key j) ->
  waiting_count (set_cache_map (insert key v) w) = waiting_count w.
Proof.
  intros Hkey. unfold waiting_count. world_simpl. f_equal.
  apply filter_ext. intros j. unfold waiting_row. world_simpl.
  now rewrite lookup_insert_ne by apply Hkey.
Qed.

Lemma waiting_row_set_status w self s j :
  s <> "waiting" ->
  waiting_row (set_cache_map (insert (job_status_key self) (CStr s)) w) j = true ->
  waiting_row w j = true.
Proof.
  intros Hs. unfold waiting_row. world_simpl.
  destruct (decide (job_status_key self = job_status_key j)) as [E|E].
  - rewrite E, lookup_insert_eq. cbn [default status_is].
    intros H. apply String.eqb_eq in H. contradiction.
  - now rewrite lookup_insert_ne by exact E.
Qed.

Lemma waiting_count_set_status w self s :
  s <> "waiting" ->
  (waiting_count (set_cache_map (insert (job_status_key self) (CStr s)) w)
   <= waiting_count w)%nat.
Proof.
  intros Hs. unfold waiting_count. world_simpl. apply filter_length_mono.
  intros j _. now apply waiting_row_set_status.
Qed.

Lemma waiting_count_settled w self s :
  s <> "waiting" -> In self (jobs w) -> waiting_row w self = true ->
  (waiting_count (set_cache_map (insert (job_status_key self) (CStr s)) w)
   < waiting_count w)%nat.
Proof.
  intros Hs Hin Hw. unfold waiting_count. world_simpl.
  apply (filter_length_strict _ _ _ self); [|exact Hin|exact Hw|].
  - intros j _. now apply waiting_row_set_status.
  - unfold waiting_row. world_simpl. rewrite lookup_insert_eq.
    cbn [default status_is]. apply String.eqb_neq. exact Hs.
Qed.

Lemma waiting_count_job_rows w jid (f : Job -> Job) :
  (forall j, job_status_key (f j) = job_status_key j) ->
  (forall j, job_status (f j) = "waiting" -> job_status j = "waiting") ->
  (waiting_count (set_jobs (List.map (fun j => if (job_id_ j =? jid)%Z then f j else j)) w)
   <= waiting_count w)%nat.
Proof.
  intros Hkey Hst. unfold waiting_count. world_simpl. apply filter_map_length_mono.
  intros j _. destruct (job_id_ j =? jid); [|auto].
  unfold waiting_row. world_simpl. rewrite Hkey.
  destruct (cache w !! job_status_key j) as [v|]; [auto|].
  cbn [default status_is]. intros H. apply String.eqb_eq in H.
  apply String.eqb_eq. now apply Hst.
Qed.

Lemma waiting_count_job_status w jid st t :
  st <> "waiting" ->
  (waiting_count
     (set_jobs (List.map (fun j => if (job_id_ j =? jid)%Z then job_with_status st t j else j)) w)
   <= waiting_count w)%nat.
Proof.
  intros Hs. apply (waiting_count_job_rows w jid (job_with_status st t)).
  - reflexivity.
  - intros j H. cbn in H. contradiction.
Qed.

Lemma waiting_count_job_count w jid (g : Job -> Z) :
  (waiting_count
     (set_jobs (List.map (fun j => if (job_id_ j =? jid)%Z then job_with_count (g j) j else j))
        w)
   <= waiting_count w)%nat.
Proof.
  apply (waiting_count_job_rows w jid (fun j => job_with_count (g j) j)).
  - reflexivity.
  - intros j H. exact H.
Qed.

Lemma waiting_count_le_jobs w : (waiting_count w <= length (jobs w))%nat.
Proof. unfold waiting_count. apply List.filter_length_le. Qed.

Lemma waiting_bound_job_invariant k :
  job_invariant (fun w => (waiting_count w <= k)%nat).
Proof.
  split.
  - intros w w' Hc Hj _ _ Hk. now rewrite (waiting_count_frame w w').
  - intros w self s Hs Hk.
    pose proof (waiting_count_set_status w self s Hs). lia.
  - intros w self v Hk.
    rewrite waiting_count_other_key; [exact Hk|]. intros j. key_neq.
  - intros w self v Hk.
    rewrite waiting_count_other_key; [exact Hk|]. intros j. key_neq.
  - intros w self v Hk _.
    rewrite waiting_count_other_key; [exact Hk|]. intros j. key_neq.
  - intros w self pid v Hk _ _.
    rewrite waiting_count_other_key; [exact Hk|]. intros j. key_neq.
  - intros w jid st t Hs Hk.
    pose proof (waiting_count_job_status w jid st t Hs). lia.
  - intros w jid g Hk.
    pose proof (waiting_count_job_count w jid g). lia.
Qed.

Lemma scoped_params_start_invariant : start_invariant scoped_params.
Proof.
  split; [split|..]; try (intros; assumption).
  intros w w' _ _ Hp _ Hsc. unfold scoped_params. now rewrite Hp.
Qed.

Lemma job_invariant_and (I J : World -> Prop) :
  job_invariant I -> job_invariant J -> job_invariant (fun w => I w /\ J w).
Proof.
  intros HI HJ. split.
  - intros w w' Hc Hj Hp Hs [Hi Hj']. split.
    + now apply (inv_frame _ HI w w').
    + now apply (inv_frame _ HJ w w').
  - intros w self s Hs [Hi Hj]. split;
      [now apply (inv_status _ HI)|now apply (inv_status _ HJ)].
  - intros w self v [Hi Hj]. split;
      [now apply (inv_list _ HI)|now apply (inv_list _ HJ)].
  - intros w self v [Hi Hj]. split;
      [now apply (inv_enqueued _ HI)|now apply (inv_enqueued _ HJ)].
  - intros w self v [Hi Hj] Hv. split;
      [now apply (inv_failed _ HI)|now apply (inv_failed _ HJ)].
  - intros w self pid v [Hi Hj] Hpid Hv. split;
      [now apply (inv_remaining _ HI w self pid)|now apply (inv_remaining _ HJ w self pid)].
  - intros w jid st t Hs [Hi Hj]. split;
      [now apply (inv_job_status _ HI)|now apply (inv_job_status _ HJ)].
  - intros w jid g [Hi Hj]. split;
      [now apply (inv_job_count _ HI)|now apply (inv_job_count _ HJ)].
Qed.

Lemma start_invariant_and (I J : World -> Prop) :
  start_invariant I -> start_invariant J -> start_invariant (fun w => I w /\ J w).
Proof.
  intros HI HJ. split.
  - apply job_invariant_and; now apply inv_job.
  - intros w self [Hi Hj]. split;
      [now apply (inv_waiting _ HI)|now apply (inv_waiting _ HJ)].
  - intros w pid [Hi Hj]. split;
      [now apply (inv_get_ready _ HI)|now apply (inv_get_ready _ HJ)].
Qed.

Lemma at_most_waiting_job_invariant k : job_invariant (at_most_waiting k).
Proof.
  apply (job_invariant_and (fun w => (waiting_count w <= k)%nat) scoped_params).
  - apply waiting_bound_job_invariant.
  - apply inv_job, scoped_params_start_invariant.
Qed.

Lemma at_most_waiting_mono k k' w :
  (k <= k')%nat -> at_most_waiting k w -> at_most_waiting k' w.
Proof. unfold at_most_waiting. intros Hk [H Hsc]. split; [lia|exact Hsc]. Qed.

(** [set_failed_status] on a waiting job leaves one waiting row less. *)
Lemma Job_set_failed_status_settles T k jid w st :
  effective_status w jid = Some st -> status_is st "waiting" = true ->
  at_most_waiting (S k) w ->
  wp T (Job_set_failed_status jid) w
    (fun _ => at_most_waiting k) (at_most_waiting (S k)).
Proof.
  intros Hst Hwait HI. pose proof (at_most_waiting_job_invariant (S k)) as HInv.
  pose proof (at_most_waiting_job_invariant k) as HInv'.
  unfold Job_set_failed_status.
  apply wp_bind, wp_Job_find; [|exact HI]. intros self Hjob.
  assert (Hrow : waiting_row w self = true).
  { unfold effective_status in Hst. rewrite Hjob in Hst. injection Hst as <-.
    exact Hwait. }
  pose proof (lookup_job_In _ _ _ Hjob) as Hin.
  apply wp_bind. unfold Job__increase_value_cache. fold (job_failed_key self).
  apply wp_cache_update; [|exact HI]. intros v Hv.
  set (w1 := set_cache_map (insert (job_failed_key self) v) w).
  assert (HI1 : at_most_waiting (S k) w1) by now apply (inv_failed _ HInv).
  assert (Hrow1 : waiting_row w1 self = true).
  { unfold waiting_row, w1. world_simpl. rewrite lookup_insert_ne by key_neq.
    exact Hrow. }
  apply wp_bind, wp_Job_pipeline; [|exact HI1]. intros pipeline Hpid Hp.
  apply wp_bind, wp_gets. apply wp_bind.
  unfold Job__decrease_value_cache. fold (job_remaining_key self).
  apply wp_cache_update; [|exact HI1]. intros v2 Hv2.
  set (w2 := set_cache_map (insert (job_remaining_key self) v2) w1).
  assert (HI2 : at_most_waiting (S k) w2)
    by exact (inv_remaining _ HInv w1 self _ v2 HI1 Hpid Hv2).
  assert (Hrow2 : waiting_row w2 self = true).
  { unfold waiting_row, w2. world_simpl. rewrite lookup_insert_ne by key_neq.
    exact Hrow1. }
  apply wp_bind, wp_modify.
  set (w3 := set_cache_map (insert (job_status_key self) (CStr "failed")) w2).
  assert (HI3 : at_most_waiting k w3).
  { destruct HI2 as [Hk Hsc]. split; [|exact Hsc].
    assert (Hlt : (waiting_count w3 < waiting_count w2)%nat)
      by (apply waiting_count_settled; [discriminate|exact Hin|exact Hrow2]).
    lia. }
  apply wp_bind, wp_datetime_now. apply wp_bind, wp_modify.
  eapply wp_mono;
    [apply (keeps_update_pipeline T _ HInv')|auto|
     intros w'; apply at_most_waiting_mono; lia].
  apply (inv_job_status _ HInv'); [discriminate|].
  eapply (inv_frame _ HInv'); [| | | |exact HI3]; reflexivity.
Qed.

(** With at most [k] waiting rows and [k + 4] units of fuel, [Job.start]
    returns or raises, and leaves at most [k] waiting rows. *)
Lemma keeps_Job_start_fuel fuel :
  forall k jid, (k + 4 <= fuel)%nat ->
    keeps False (at_most_waiting k) (Job_start fuel jid).
Proof.
  induction fuel as [|fuel IH]; intros k jid Hfuel; [lia|].
  pose proof (at_most_waiting_job_invariant k) as HInv.
  assert (Hparam : forall p, keeps False (at_most_waiting k) (Param_val fuel p)).
  { intros p. apply keeps_Param_val_False; [|lia]. now intros w [_ Hsc]. }
  intros w HI. rewrite Job_start_S.
  apply wp_bind, wp_Job_get_status; [|exact HI]. intros st Hst.
  destruct (status_is st "waiting") eqn:Hwait; cbn [negb]; [|exact HI].
  assert (Hpos : exists k', k = S k').
  { destruct k as [|k']; [|now exists k'].
    exfalso. destruct HI as [Hk _]. unfold effective_status in Hst.
    destruct (lookup_job jid w) as [self|] eqn:Hjob; [|discriminate].
    injection Hst as <-.
    assert (Hlt : (0 < waiting_count w)%nat).
    { unfold waiting_count.
      assert (Hin : In self (List.filter (waiting_row w) (jobs w)))
        by (apply filter_In; split; [now apply (lookup_job_In jid)|exact Hwait]).
      destruct (List.filter (waiting_row w) (jobs w)); [destruct Hin|cbn; lia]. }
    lia. }
  destruct Hpos as [k' ->].
  apply wp_bind, wp_gets. apply wp_bind.
  eapply wp_mono with
    (Q := fun r w' => match r with
                      | Some _ => at_most_waiting (S k') w'
                      | None => w' = w
                      end)
    (E := at_most_waiting (S k')).
  - apply (wp_for_return False _ _ (fun w' => w' = w) (at_most_waiting (S k')));
      [|reflexivity].
    intros sc w' ->. apply wp_bind.
    apply wp_reads; [apply reads_Job__start_condition_is_fulfuilled| |exact HI].
    intros [|].
    + apply wp_bind. apply wp_reads; [apply reads_Job_get_status| |exact HI].
      intros st'. destruct (negb _); [exact HI|reflexivity].
    + apply wp_bind.
      eapply wp_mono; [apply (Job_set_failed_status_settles False k' jid w st Hst Hwait HI)
                      | |auto].
      intros u w1 HI1. cbv beta in HI1. apply wp_bind.
      eapply wp_mono with (Q := fun _ => at_most_waiting k') (E := at_most_waiting k').
      * apply wp_keeps; [|exact HI1].
        apply keeps_start_dependent_jobs_with;
          [apply at_most_waiting_job_invariant|].
        intros j. apply IH. lia.
      * intros u' w2 HI2. apply (at_most_waiting_mono k'); [lia|exact HI2].
      * intros w2. apply at_most_waiting_mono. lia.
  - intros [b|] w' H; [exact H|]. subst w'.
    apply wp_bind.
    eapply wp_mono; [apply (keeps_Job_run False _ HInv fuel jid Hparam w HI)| |auto].
    intros u w1 HI1. exact HI1.
  - auto.
Qed.

Lemma sized_at_most_waiting n w : sized n w -> at_most_waiting n w.
Proof.
  intros [Hn Hsc]. split; [|exact Hsc].
  pose proof (waiting_count_le_jobs w). lia.
Qed.

Lemma rows_bound_start_invariant n :
  start_invariant (fun w => (length (jobs w) <= n)%nat).
Proof.
  assert (Hrows : forall w (f : Job -> Job),
            (length (jobs w) <= n)%nat ->
            (length (jobs (set_jobs (List.map f) w)) <= n)%nat).
  { intros w f Hn. world_simpl. now rewrite length_map. }
  split; [split|..]; try (intros; assumption).
  - intros w w' _ Hj _ _ Hn. now rewrite Hj.
  - intros w jid st t _. apply Hrows.
  - intros w jid g. apply Hrows.
Qed.

Lemma sized_start_invariant n : start_invariant (sized n).
Proof.
  apply (start_invariant_and (fun w => (length (jobs w) <= n)%nat) scoped_params).
  - apply rows_bound_start_invariant.
  - apply scoped_params_start_invariant.
Qed.

Lemma keeps_both {A} (I J : World -> Prop) (m : M A) :
  keeps False I m -> keeps True J m -> keeps False (fun w => I w /\ J w) m.
Proof.
  intros HI HJ w [Hi Hj]. specialize (HI w Hi). specialize (HJ w Hj).
  unfold wp in *. destruct (m w); auto.
Qed.

Lemma keeps_sized_Job_start n fuel jid :
  (n + 4 <= fuel)%nat -> keeps False (sized n) (Job_start fuel jid).
Proof.
  intros Hfuel w HI.
  pose proof (keeps_both (at_most_waiting n) (sized n) (Job_start fuel jid)
                (keeps_Job_start_fuel fuel n jid Hfuel)
                (keeps_Job_start_True (sized n) fuel jid
                   (inv_job _ (sized_start_invariant n)))
                w (conj (sized_at_most_waiting n w HI) HI)) as H.
  eapply wp_mono; [exact H| |]; cbv beta; intros; tauto.
Qed.

Lemma keeps_sized_run_op n fuel o :
  (n + 4 <= fuel)%nat -> keeps False (sized n) (run_op fuel o).
Proof.
  intros Hfuel.
  pose proof (sized_start_invariant n) as HS.
  pose proof (inv_job _ HS) as HJ.
  assert (Hparam : forall p, keeps False (sized n) (Param_val fuel p)).
  { intros p. apply keeps_Param_val_False; [|lia]. now intros w' [_ H]. }
  assert (Hstart : forall j, keeps False (sized n) (Job_start fuel j))
    by (intros j; now apply keeps_sized_Job_start).
  destruct o as [p|p|j t|j t]; cbn [run_op].
  - apply keeps_bind; [|intros; apply keeps_ret].
    now apply keeps_Pipeline_start.
  - apply keeps_bind; [|intros; apply keeps_ret]. now apply keeps_Pipeline_stop.
  - now apply keeps_Job_worker_succeeded.
  - now apply keeps_Job_worker_failed.
Qed.

(** * Further properties of the execution core *)

(** ** Operations and what they keep *)

Lemma keeps_run_op T (Inv : World -> Prop) fuel o :
  start_invariant Inv ->
  (forall p, keeps T Inv (Param_val fuel p)) ->
  (forall j, keeps T Inv (Job_start fuel j)) ->
  keeps T Inv (run_op fuel o).
Proof.
  intros HS Hparam Hstart. pose proof (inv_job _ HS) as HJ.
  destruct o as [p|p|j t|j t]; cbn [run_op].
  - apply keeps_bind; [|intros; apply keeps_ret]. now apply keeps_Pipeline_start.
  - apply keeps_bind; [|intros; apply keeps_ret]. now apply keeps_Pipeline_stop.
  - now apply keeps_Job_worker_succeeded.
  - now apply keeps_Job_worker_failed.
Qed.

Lemma keeps_run_op_but_start T (Inv : World -> Prop) fuel o :
  job_invariant Inv -> is_start o = false ->
  (forall j, keeps T Inv (Job_start fuel j)) ->
  keeps T Inv (run_op fuel o).
Proof.
  intros HJ Ho Hstart.
  destruct o as [p|p|j t|j t]; cbn [run_op]; [discriminate|..].
  - apply keeps_bind; [|intros; apply keeps_ret]. now apply keeps_Pipeline_stop.
  - now apply keeps_Job_worker_succeeded.
  - now apply keeps_Job_worker_failed.
Qed.

Lemma world_after_keeps {A} (Inv : World -> Prop) (m : M A) w w' :
  keeps True Inv m -> Inv w -> world_after (m w) = Some w' -> Inv w'.
Proof.
  intros Hk HI Hstep. specialize (Hk w HI). unfold wp in Hk.
  unfold world_after in Hstep.
  destruct (m w) as [a w1|e w1|]; [| |discriminate]; injection Hstep as <-; exact Hk.
Qed.

Lemma reachable_keeps (Inv : World -> Prop) w0 w :
  start_invariant Inv -> Inv w0 -> reachable w0 w -> Inv w.
Proof.
  intros HS H0 Hreach. induction Hreach as [|w fuel o w' _ IH Hstep]; [exact H0|].
  apply (world_after_keeps Inv (run_op fuel o) w w'); [|exact IH|exact Hstep].
  apply keeps_run_op; [exact HS|intros p; apply keeps_Param_val_True|].
  intros j. apply keeps_Job_start_True. now apply inv_job.
Qed.

Lemma scoped_params_nil w : params w = [] -> scoped_params w.
Proof. intros H p Hin. rewrite H in Hin. destruct Hin. Qed.

(** X1: [Job.start] and [Job._start_dependent_jobs] call each other.  When every
    param has one scope at most and the fuel exceeds the number of waiting
    jobs by four, [Job.start] returns or raises, whatever the start
    conditions are (cycles included), and it leaves no more waiting jobs
    than it found. *)
Theorem Job_start_returns (fuel : nat) (jid : Z) (w : World) :
  scoped_params w -> (waiting_count w + 4 <= fuel)%nat ->
  exists w', world_after (Job_start fuel jid w) = Some w'
             /\ (waiting_count w' <= waiting_count w)%nat.
Proof.
  intros Hsc Hfuel.
  pose proof (keeps_Job_start_fuel fuel (waiting_count w) jid Hfuel w
                (conj (le_n _) Hsc)) as H.
  unfold wp in H.
  destruct (Job_start fuel jid w) as [b w'|e w'|]; [| |contradiction];
    exists w'; (split; [reflexivity|exact (proj1 H)]).
Qed.

Lemma Job_start_returns_witness :
  exists w', world_after (Job_start 6 2 world_cycle) = Some w'
             /\ (waiting_count w' <= waiting_count world_cycle)%nat.
Proof.
  apply Job_start_returns; [apply scoped_params_nil; reflexivity|vm_compute; lia].
Defined.

(** On the cyclic world the two jobs that wait for each other both end up
    failed. *)
Lemma Job_start_on_cycle_example :
  match Job_start 6 2 world_cycle with
  | Ret b w' =>
      b = false
      /\ effective_status w' 2 = Some (CStr "failed")
      /\ effective_status w' 3 = Some (CStr "failed")
  | _ => False
  end.
Proof. vm_compute. repeat split; reflexivity. Qed.

(** X2: Every sequence of [Pipeline.start], [Pipeline.stop], [worker_succeeded]
    and [worker_failed] goes through (each call returns or raises) once the
    fuel exceeds the number of job rows by four, when every param has one
    scope at most. *)
Theorem operations_return (fuel : nat) (os : list op) (w : World) :
  scoped_params w -> (length (jobs w) + 4 <= fuel)%nat ->
  exists w', run_ops fuel os w = Some w'.
Proof.
  intros Hsc Hfuel. set (n := length (jobs w)) in *.
  assert (HI : sized n w) by (split; [subst n; lia|exact Hsc]).
  clearbody n. revert w HI Hsc. induction os as [|o os IH]; intros w HI _.
  - now exists w.
  - cbn [run_ops].
    pose proof (keeps_sized_run_op n fuel o Hfuel w HI) as H. unfold wp in H.
    destruct (run_op fuel o w) as [a w1|e w1|]; [| |contradiction];
      cbn [world_after]; apply (IH w1 H), H.
Qed.

Lemma operations_return_witness :
  exists w',
    run_ops 6 [OpStart 1; OpWorkerFailed 1 "t"; OpStop 1; OpWorkerSucceeded 2 "t"]
      world_two_jobs = Some w'.
Proof.
  apply operations_return; [apply scoped_params_nil; reflexivity|vm_compute; lia].
Defined.

(** X3: [Param.val] goes from a job param to the pipeline params and from those
    to the global params: when every param has one scope at most, three
    levels of evaluation are enough for it to return or raise, and it leaves
    the database and the cache as they are. *)
Theorem Param_val_returns_and_only_reads (fuel : nat) (p : Param) (w : World) :
  scoped_params w -> (3 <= fuel)%nat ->
  (exists v, Param_val fuel p w = Ret v w) \/ (exists e, Param_val fuel p w = Raise e w).
Proof.
  intros Hsc Hfuel. pose proof (Param_val_returns fuel p w Hsc Hfuel) as H.
  unfold wp in H.
  destruct (Param_val fuel p w) as [v w'|e w'|]; [left; exists v|right; exists e|];
    now subst.
Qed.

Lemma world_params_scoped : scoped_params world_params.
Proof.
  intros p [<-|[<-|[<-|[]]]]; [now left|now left|now right].
Qed.

Lemma Param_val_returns_and_only_reads_witness :
  (exists v, Param_val 3 param_z world_params = Ret v world_params)
  \/ (exists e, Param_val 3 param_z world_params = Raise e world_params).
Proof.
  apply Param_val_returns_and_only_reads; [exact world_params_scoped|lia].
Defined.

(** ** A param that is its own pipeline param *)

Lemma bind_returned {A B} (m : M A) (k : A -> M B) w :
  returned (bind m k w) = true ->
  exists a w1, m w = Ret a w1 /\ returned (k a w1) = true.
Proof.
  unfold bind. destruct (m w) as [a w1|e w1|]; [|discriminate|discriminate].
  intros H. now exists a, w1.
Qed.

Lemma reads_Ret {A} (m : M A) w a w1 : reads True m -> m w = Ret a w1 -> w1 = w.
Proof. intros Hm H. specialize (Hm w). unfold wp in Hm. now rewrite H in Hm. Qed.

Lemma fold_m_stuck {A B} (xs : list A) (body : B -> A -> M B) w x :
  (forall b y, reads True (body b y)) -> In x xs ->
  (forall b, returned (body b x w) = false) ->
  forall acc, returned (fold_m xs acc body w) = false.
Proof.
  intros Hreads Hin Hstuck. induction xs as [|y xs IH]; intros acc; [destruct Hin|].
  cbn [fold_m].
  match goal with |- returned ?r = false => destruct (returned r) eqn:E end;
    [|reflexivity].
  apply bind_returned in E as (b & w1 & Hb & Hk).
  pose proof (reads_Ret _ _ _ _ (Hreads acc y) Hb) as ->.
  destruct Hin as [->|Hin].
  - specialize (Hstuck acc). rewrite Hb in Hstuck. discriminate.
  - rewrite (IH Hin b) in Hk. discriminate.
Qed.

Lemma Pipeline_params_In pid w p :
  In p (params w) -> param_pipeline_id p = Some pid -> In p (Pipeline_params pid w).
Proof.
  intros Hin Hpid. unfold Pipeline_params.
  apply (Permutation_in _ (Permutation_sym (merge_sort_Permutation _ _))).
  apply filter_In. split; [exact Hin|]. now apply bool_decide_eq_true.
Qed.

(** X4: A param that belongs to a job and, at once, to the pipeline of that job
    is among the pipeline params that [_expand_vars] evaluates for it:
    [Param.val] calls itself without end (or fails before it gets there):
    however deep the evaluation is allowed to go, it has not returned a
    value. *)
Theorem Param_val_self_reference_never_returns
    (fuel : nat) (p : Param) (w : World) (jid pid : Z) (job : Job) :
  param_type p <> "boolean" ->
  In p (params w) -> param_job_id p = Some jid -> param_pipeline_id p = Some pid ->
  lookup_job jid w = Some job -> job_pipeline_id job = Some pid ->
  returned (Param_val fuel p w) = false.
Proof.
  intros Hty Hin Hjid Hpid Hjob Hjp.
  induction fuel as [|fuel IH]; [reflexivity|].
  rewrite Param_val_S_body. unfold Param_val_body.
  destruct (String.eqb (param_type p) "boolean") eqn:Eb;
    [apply String.eqb_eq in Eb; contradiction|].
  match goal with |- returned ?r = false => destruct (returned r) eqn:E end;
    [|reflexivity]. exfalso.
  apply bind_returned in E as (val & w1 & Hexp & _).
  assert (Hret : returned (Param__expand_vars (Param_val fuel) p (param_value p) w) = true)
    by now rewrite Hexp.
  clear Hexp. unfold Param__expand_vars in Hret. rewrite Hjid in Hret.
  apply bind_returned in Hret as (names & w2 & Hglob & Hret).
  assert (w2 = w) as ->.
  { revert Hglob. apply reads_Ret. cbn [is_some orb].
    apply reads_bind; [apply reads_gets|]. intros gs. apply reads_fold_m.
    intros b g. apply reads_bind; [apply reads_Param_val|].
    intros v. apply reads_ret. }
  apply bind_returned in Hret as (names' & w3 & Hpipe & _).
  assert (Hstuck : returned
            ((job <- Job_find jid ;;
              pipeline <- Job_pipeline job ;;
              pparams <- gets (Pipeline_params (pipeline_id_ pipeline)) ;;
              fold_m pparams names
                (fun names param =>
                   v <- Param_val fuel param ;; ret (<[param_name param := v]> names))) w)
            = false).
  { rewrite (bind_Ret _ _ _ _ _ (Job_find_Some _ _ _ Hjob)).
    unfold Job_pipeline. rewrite Hjp. unfold Pipeline_find at 1. unfold bind at 1.
    destruct (lookup_pipeline pid w) as [pipeline|] eqn:Hp; [|reflexivity].
    rewrite bind_gets. rewrite (lookup_pipeline_id _ _ _ Hp).
    apply (fold_m_stuck _ _ w p).
    - intros b g. apply reads_bind; [apply reads_Param_val|].
      intros v. apply reads_ret.
    - now apply Pipeline_params_In.
    - intros b. unfold bind.
      destruct (Param_val fuel p w); [discriminate IH|reflexivity|reflexivity]. }
  rewrite Hpipe in Hstuck. discriminate.
Qed.

Lemma Param_val_self_reference_never_returns_witness :
  returned (Param_val 50 param_loop world_loop) = false.
Proof.
  apply (Param_val_self_reference_never_returns 50 param_loop world_loop 1 1
           (demo_job 1 "a"));
    [discriminate|now left|reflexivity|reflexivity|reflexivity|reflexivity].
Defined.

(** ** Rows that the operations leave alone *)

Lemma same_rows_start_invariant w0 : start_invariant (same_rows w0).
Proof.
  assert (Hrows : forall w jid (f : Job -> Job),
            (forall j, job_identity (f j) = job_identity j) ->
            same_rows w0 w ->
            same_rows w0
              (set_jobs (List.map (fun j => if (job_id_ j =? jid)%Z then f j else j)) w)).
  { intros w jid f Hf (Hj & Hp & Hs). split; [|split; assumption].
    world_simpl. rewrite List.map_map, <- Hj. apply List.map_ext.
    intros j. destruct (job_id_ j =? jid)%Z; [apply Hf|reflexivity]. }
  split; [split|..]; try (intros; assumption).
  - intros w w' _ Hj Hp Hs (H1 & H2 & H3). unfold same_rows.
    now rewrite Hj, Hp, Hs.
  - intros w jid st t _. now apply Hrows.
  - intros w jid g. now apply Hrows.
Qed.

(** X5: [Pipeline.start], [Pipeline.stop], [worker_succeeded] and
    [worker_failed] never add or remove a job row, never change the id, the
    name, the worker class or the pipeline of a job, and never touch the
    params or the start conditions. *)
Theorem operations_keep_rows (w0 w : World) :
  reachable w0 w -> same_rows w0 w.
Proof.
  apply reachable_keeps; [apply same_rows_start_invariant|].
  now split.
Qed.

Lemma operations_keep_rows_witness :
  match run_ops 5 [OpStart 1; OpWorkerFailed 1 "my-pipe_a_W_uuid0"; OpStop 1]
          world_sink_failed with
  | Some w => same_rows world_sink_failed w
  | None => False
  end.
Proof.
  destruct (run_ops 5 [OpStart 1; OpWorkerFailed 1 "my-pipe_a_W_uuid0"; OpStop 1]
              world_sink_failed) as [w|] eqn:E; [|vm_compute in E; discriminate].
  apply (operations_keep_rows world_sink_failed w).
  eapply run_ops_reachable; [apply reach_init|exact E].
Defined.

(** X6: Only [Pipeline.start] makes a job wait: [Pipeline.stop],
    [worker_succeeded] and [worker_failed] (with the jobs they start or fail
    in turn) leave no more waiting jobs than they found. *)
Theorem only_start_makes_jobs_wait (fuel : nat) (o : op) (w w' : World) :
  is_start o = false -> world_after (run_op fuel o w) = Some w' ->
  (waiting_count w' <= waiting_count w)%nat.
Proof.
  intros Ho Hstep.
  apply (world_after_keeps (fun w' => (waiting_count w' <= waiting_count w)%nat)
           (run_op fuel o) w w'); [|lia|exact Hstep].
  apply keeps_run_op_but_start; [apply waiting_bound_job_invariant|exact Ho|].
  intros j. apply keeps_Job_start_True, waiting_bound_job_invariant.
Qed.

Lemma only_start_makes_jobs_wait_witness :
  match world_after (run_op 5 (OpWorkerFailed 1 "t") world_cycle) with
  | Some w' => (waiting_count w' <= waiting_count world_cycle)%nat
  | None => False
  end.
Proof.
  destruct (world_after (run_op 5 (OpWorkerFailed 1 "t") world_cycle)) as [w'|] eqn:E;
    [|vm_compute in E; discriminate].
  exact (only_start_makes_jobs_wait 5 (OpWorkerFailed 1 "t") world_cycle w' eq_refl E).
Defined.

(** ** [Job.get_ready] *)

Lemma get_ready_scan (fuel : nat) (self : Job) (ps : list Param) (w : World) :
  (forall q, In q ps -> exists v, Param_val fuel q w = Ret v w) ->
  for_return ps
    (fun param =>
       try_except (Param_val fuel param ;;; ret None)
         (fun e => bool_decide (e = InvalidExpression) || bool_decide (e = TypeError))
         (fun e =>
            log_struct (mkLogEntry (job_pipeline_id self) (job_id_ self)
                          (job_worker_class self) "ERROR"
                          (param_label param) e) ;;;
            ret (Some false))) w
  = Ret (@None bool) w.
Proof.
  induction ps as [|p ps IH]; intros Hok; [reflexivity|].
  cbn [for_return]. destruct (Hok p (or_introl eq_refl)) as [v Hv].
  unfold bind at 1, try_except, bind at 1. rewrite Hv. cbn [ret].
  apply IH. intros q Hq. apply Hok. now right.
Qed.

(** X7: When every param of the job evaluates and the job is in none of the
    states [idle], [succeeded], [failed], [prepare_for_start] answers
    [False], and the branch of [get_ready] that should log it uses [logger],
    which only the [except] branch binds: the call raises
    [UnboundLocalError] instead of answering [False], and nothing is
    written. *)
Theorem Job_get_ready_unbound_logger
    (fuel : nat) (jid : Z) (w : World) (st : cval) :
  (forall q, In q (Job_params jid w) -> exists v, Param_val fuel q w = Ret v w) ->
  effective_status w jid = Some st ->
  status_in st ["idle"; "succeeded"; "failed"] = false ->
  Job_get_ready fuel jid w = Raise UnboundLocalError w.
Proof.
  intros Hok Hst Hno.
  assert (Hjob : exists self, lookup_job jid w = Some self).
  { unfold effective_status in Hst.
    destruct (lookup_job jid w) as [self|]; [now exists self|discriminate]. }
  destruct Hjob as [self Hjob]. unfold Job_get_ready.
  mret (Job_find_Some _ _ _ Hjob).
  mret (get_ready_scan fuel self _ w Hok).
  unfold Job_prepare_for_start. mnorm. mret (Job_get_status_eq _ _ _ Hst).
  rewrite Hno. cbn [negb]. mnorm. reflexivity.
Qed.

Lemma Job_get_ready_unbound_logger_witness :
  Job_get_ready 5 1 world_running = Raise UnboundLocalError world_running.
Proof.
  apply (Job_get_ready_unbound_logger 5 1 world_running (CStr "running"));
    [intros q []|reflexivity|reflexivity].
Defined.

(** X8: The first param of the job whose evaluation raises [InvalidExpression]
    or [TypeError] ends [get_ready]: one [ERROR] entry naming the label of
    that param is logged, the answer is [False], and the status of the job
    is not touched. *)
Theorem Job_get_ready_bad_param
    (fuel : nat) (jid : Z) (w : World) (self : Job)
    (ps1 ps2 : list Param) (p : Param) (e : exn) :
  lookup_job jid w = Some self ->
  Job_params jid w = ps1 ++ p :: ps2 ->
  (forall q, In q ps1 -> exists v, Param_val fuel q w = Ret v w) ->
  Param_val fuel p w = Raise e w ->
  e = InvalidExpression \/ e = TypeError ->
  Job_get_ready fuel jid w
  = Ret false (set_logs (fun l => l ++ [bad_param_entry self p e]) w).
Proof.
  intros Hjob Hps Hok Hp He. unfold Job_get_ready.
  mret (Job_find_Some _ _ _ Hjob). rewrite Hps. clear Hps.
  induction ps1 as [|q ps1 IH].
  - cbn [app for_return]. unfold bind at 1, bind at 1, try_except, bind at 1.
    rewrite Hp.
    assert (Hc : bool_decide (e = InvalidExpression) || bool_decide (e = TypeError) = true)
      by (destruct He as [->| ->]; reflexivity).
    rewrite Hc. reflexivity.
  - cbn [app for_return]. destruct (Hok q (or_introl eq_refl)) as [v Hv].
    unfold bind at 1, bind at 1, try_except, bind at 1. rewrite Hv. cbn [ret].
    apply IH. intros q' Hq'. apply Hok. now right.
Qed.

Lemma Job_get_ready_bad_param_witness :
  Job_get_ready 3 1 world_bad_param
  = Ret false
      (set_logs (fun l => l ++ [bad_param_entry (demo_job 1 "a") param_bad
                                   InvalidExpression]) world_bad_param).
Proof.
  apply (Job_get_ready_bad_param 3 1 world_bad_param (demo_job 1 "a") [] [] param_bad);
    [reflexivity|reflexivity|intros q []|vm_compute; reflexivity|now left].
Defined.

(** ** [Pipeline.get_ready] *)

Lemma unprefixed_key_neq (self : Job) (key : string) :
  key <> Job__get_pipeline_prefix self +:+ key.
Proof.
  intros H. symmetry in H. revert H.
  apply string_app_prefix_neq, prefix_nonempty.
Qed.

Lemma cache_after_get_ready_other pid w key :
  key <> CACHE_KEY_FAILED_JOBS -> key <> CACHE_KEY_REMAINING_JOBS ->
  key <> CACHE_KEY_LIST_OF_TASKS_ENQUEUED ->
  cache_after_get_ready pid w !! key = cache w !! key.
Proof.
  intros H1 H2 H3. unfold cache_after_get_ready.
  now rewrite !lookup_insert_ne by (intros E; symmetry in E; contradiction).
Qed.

(** X9: [Pipeline.get_ready] writes the keys [failed_jobs], [remaining_jobs] and
    [list_of_tasks_enqueued] as they are, while the jobs read and update
    them under the prefix of their pipeline: the counters, the task list and
    the job statuses that the jobs use are left as the previous run left
    them. *)
Theorem Pipeline_get_ready_keeps_prefixed_keys (pid : Z) (w : World) :
  exists w',
    Pipeline_get_ready pid w = Ret tt w'
    /\ (forall self : Job,
          cache w' !! job_failed_key self = cache w !! job_failed_key self
          /\ cache w' !! job_remaining_key self = cache w !! job_remaining_key self
          /\ cache w' !! job_list_key self = cache w !! job_list_key self
          /\ cache w' !! job_enqueued_key self = cache w !! job_enqueued_key self
          /\ cache w' !! job_status_key self = cache w !! job_status_key self)
    /\ (forall jid, effective_status w' jid = effective_status w jid).
Proof.
  exists (set_cache_map (fun _ => cache_after_get_ready pid w) w).
  split; [apply Pipeline_get_ready_eq|].
  assert (Hkeys : forall self : Job,
            cache_after_get_ready pid w !! job_failed_key self
            = cache w !! job_failed_key self
            /\ cache_after_get_ready pid w !! job_remaining_key self
               = cache w !! job_remaining_key self
            /\ cache_after_get_ready pid w !! job_list_key self
               = cache w !! job_list_key self
            /\ cache_after_get_ready pid w !! job_enqueued_key self
               = cache w !! job_enqueued_key self
            /\ cache_after_get_ready pid w !! job_status_key self
               = cache w !! job_status_key self).
  { intros self. repeat split; apply cache_after_get_ready_other;
      first [ intros E; symmetry in E; revert E; apply unprefixed_key_neq
            | key_neq ]. }
  split; [exact Hkeys|].
  intros jid. unfold effective_status. world_simpl.
  change (lookup_job jid (set_cache_map _ w)) with (lookup_job jid w).
  destruct (lookup_job jid w) as [self|]; [|reflexivity].
  now rewrite (proj2 (proj2 (proj2 (proj2 (Hkeys self))))).
Qed.

(** ** [Pipeline.start] and the keys of the reset *)

Lemma reset_keys_insert n key v w :
  key <> CACHE_KEY_FAILED_JOBS -> key <> CACHE_KEY_REMAINING_JOBS ->
  key <> CACHE_KEY_LIST_OF_TASKS_ENQUEUED ->
  reset_keys n w -> reset_keys n (set_cache_map (insert key v) w).
Proof.
  intros H1 H2 H3 (Hf & Hr & Hl). unfold reset_keys. cbn [cache set_cache_map].
  now rewrite !lookup_insert_ne by assumption.
Qed.

Lemma reset_keys_get_ready pid w :
  reset_keys (length (Pipeline_jobs pid w))
    (set_cache_map (fun _ => cache_after_get_ready pid w) w).
Proof.
  unfold reset_keys, cache_after_get_ready. cbn [cache set_cache_map].
  split; [|split].
  - rewrite !lookup_insert_ne by discriminate. apply lookup_insert_eq.
  - rewrite lookup_insert_ne by discriminate. apply lookup_insert_eq.
  - apply lookup_insert_eq.
Qed.

(** The key of a job is none of the keys of the reset. *)
Ltac job_key_neq :=
  first [ key_neq
        | apply unprefixed_key_neq
        | intros E; symmetry in E; revert E; apply unprefixed_key_neq
        | intros E; symmetry in E; revert E; key_neq ].

Lemma reset_keys_job_invariant n : job_invariant (reset_keys n).
Proof.
  split.
  - intros w w' Hc _ _ _. unfold reset_keys. now rewrite Hc.
  - intros w self s _. apply reset_keys_insert; job_key_neq.
  - intros w self v. apply reset_keys_insert; job_key_neq.
  - intros w self v. apply reset_keys_insert; job_key_neq.
  - intros w self v HI _. revert HI. apply reset_keys_insert; job_key_neq.
  - intros w self pid v HI _ _. revert HI. apply reset_keys_insert; job_key_neq.
  - intros w jid st t _ HI. exact HI.
  - intros w jid g HI. exact HI.
Qed.

Lemma failed_jobs_at_least_insert self n key v w :
  key <> job_failed_key self ->
  failed_jobs_at_least self n w ->
  failed_jobs_at_least self n (set_cache_map (insert key v) w).
Proof.
  intros Hne (n' & Hle & Hc). exists n'. split; [exact Hle|].
  cbn [cache set_cache_map]. now rewrite lookup_insert_ne.
Qed.

Lemma failed_jobs_at_least_job_invariant self n :
  0 < n -> job_invariant (failed_jobs_at_least self n).
Proof.
  intros Hn. split.
  - intros w w' Hc _ _ _. unfold failed_jobs_at_least. now rewrite Hc.
  - intros w self' s _. apply failed_jobs_at_least_insert; job_key_neq.
  - intros w self' v. apply failed_jobs_at_least_insert; job_key_neq.
  - intros w self' v. apply failed_jobs_at_least_insert; job_key_neq.
  - intros w self' v HI Hv.
    destruct (decide (job_failed_key self' = job_failed_key self)) as [Heq|Hne];
      [|now apply failed_jobs_at_least_insert].
    destruct HI as (n' & Hle & Hc). rewrite Heq, Hc in Hv.
    unfold increase_handler in Hv. cbn in Hv.
    destruct (decide (n' = 0)) as [->|Hz]; [lia|].
    assert (Ht : truthy (Some (CInt n')) = true).
    { cbn. destruct n'; [contradiction|reflexivity..]. }
    exists (n' + 1). split; [lia|].
    cbn [cache set_cache_map]. rewrite Heq, lookup_insert_eq.
    cbn in Ht. rewrite Ht in Hv. now injection Hv as <-.
  - intros w self' pid v HI _ _. revert HI.
    apply failed_jobs_at_least_insert; job_key_neq.
  - intros w jid st t _ HI. exact HI.
  - intros w jid g HI. exact HI.
Qed.

Lemma same_pipeline_counters_get_ready pid w :
  same_pipeline_counters w (set_cache_map (fun _ => cache_after_get_ready pid w) w).
Proof.
  intros self. cbn [cache set_cache_map].
  repeat split; apply cache_after_get_ready_other; job_key_neq.
Qed.

Lemma Pipeline_start_rejected fuel pid w p :
  lookup_pipeline pid w = Some p ->
  startable_pipeline_status (pipeline_status p) = true ->
  start_rejected pid w ->
  Pipeline_start fuel pid w
  = Ret false (set_cache_map (fun _ => cache_after_get_ready pid w) w).
Proof.
  intros Hp Hst Hbad. unfold Pipeline_start.
  rewrite (bind_Ret _ _ _ _ _ (Pipeline_find_Some _ _ _ Hp)).
  rewrite Hst. cbn [negb].
  rewrite (bind_Ret _ _ _ _ _ (Pipeline_get_ready_eq pid w)).
  rewrite bind_gets.
  change (Pipeline_jobs pid (set_cache_map _ w)) with (Pipeline_jobs pid w).
  destruct Hbad as [Hnil | (j & st & Hin & Hj & Hno)].
  - now rewrite Hnil.
  - destruct (Pipeline_jobs pid w) as [|j0 js] eqn:Ejs; [destruct Hin|].
    cbn [length Nat.ltb Nat.leb].
    rewrite (bind_Ret _ _ _ _ _
               (start_scan (set_cache_map (fun _ => cache_after_get_ready pid w) w)
                  (j0 :: js)
                  (fun j' Hj' => Pipeline_jobs_In pid w j'
                                   (eq_ind_r (fun l => In j' l) Hj' Ejs)))).
    assert (Hall : forallb
                     (startableb (set_cache_map
                                    (fun _ => cache_after_get_ready pid w) w))
                     (j0 :: js) = false).
    { apply not_true_is_false. intros Hall.
      rewrite forallb_forall in Hall. specialize (Hall j Hin).
      unfold startableb in Hall.
      rewrite effective_status_get_ready, Hj in Hall. congruence. }
    now rewrite Hall.
Qed.

(** C10: on a pipeline whose status is one of [idle], [finished], [failed],
    [succeeded], [Pipeline.start] writes [failed_jobs = 0],
    [remaining_jobs = |jobs|] and [list_of_tasks_enqueued = []] before any
    check, and these three entries stay so whatever the call answers, since
    nothing else writes them; with fuel for the jobs the call does answer.
    But the keys are written without the prefix of the pipeline, and no
    handler reads them there: a number of failed jobs that the handlers have
    counted under the prefix is still counted after the call, and a call
    that the checks reject answers [False] with nothing written but the
    three keys, the counters and the task list of every pipeline being what
    the previous run left. *)
Theorem C10_start_resets_unprefixed_keys
    (fuel : nat) (pid : Z) (w : World) (p : Pipeline) :
  lookup_pipeline pid w = Some p ->
  startable_pipeline_status (pipeline_status p) = true ->
  wp True (Pipeline_start fuel pid) w
    (fun _ => reset_keys (length (Pipeline_jobs pid w)))
    (reset_keys (length (Pipeline_jobs pid w)))
  /\ (scoped_params w -> (length (jobs w) + 4 <= fuel)%nat ->
      Pipeline_start fuel pid w <> Timeout)
  /\ (forall self n,
        cache w !! job_failed_key self = Some (CInt n) -> 0 < n ->
        wp True (Pipeline_start fuel pid) w
          (fun _ => failed_jobs_at_least self n) (failed_jobs_at_least self n))
  /\ (start_rejected pid w ->
      exists w',
        Pipeline_start fuel pid w = Ret false w'
        /\ w' = set_cache_map (fun _ => cache w') w
        /\ same_pipeline_counters w w').
Proof.
  intros Hp Hst. split; [|split; [|split]].
  - apply (wp_Pipeline_start_of_reset True _
             (reset_keys_job_invariant _)) with (self := p);
      [|intros q; apply keeps_Param_val_True
       |intros j; apply keeps_Job_start_True, reset_keys_job_invariant
       |exact Hp|exact Hst|apply reset_keys_get_ready].
    intros w' self. apply reset_keys_insert; job_key_neq.
  - intros Hsc Hfuel.
    assert (Hsized : sized (length (jobs w)) w) by (split; [lia|exact Hsc]).
    pose proof (keeps_Pipeline_start False (sized (length (jobs w)))
                  (sized_start_invariant _) fuel pid) as Hk.
    specialize (Hk (fun q => keeps_Param_val_False _ fuel q
                               (fun w' H => proj2 H) ltac:(lia))).
    specialize (Hk (fun j => keeps_sized_Job_start _ fuel j Hfuel) w Hsized).
    unfold wp in Hk. now destruct (Pipeline_start fuel pid w).
  - intros self n Hc Hn.
    apply (wp_Pipeline_start_of_reset True _
             (failed_jobs_at_least_job_invariant self n Hn)) with (self := p);
      [|intros q; apply keeps_Param_val_True
       |intros j; now apply keeps_Job_start_True, failed_jobs_at_least_job_invariant
       |exact Hp|exact Hst|].
    + intros w' self'. apply failed_jobs_at_least_insert; job_key_neq.
    + exists n. split; [lia|]. cbn [cache set_cache_map]. rewrite <- Hc.
      apply cache_after_get_ready_other; job_key_neq.
  - intros Hbad. eexists. split; [now apply (Pipeline_start_rejected fuel pid w p)|].
    split; [reflexivity|apply same_pipeline_counters_get_ready].
Qed.

(** The second start of a pipeline whose only job has failed: the call is
    accepted, and the handlers still find one failed job and no remaining
    job. *)
Lemma start_after_failed_run :
  match Pipeline_start 5 1 world_after_failed_run with
  | Ret b w' =>
      b = true
      /\ cache w' !! "failed_jobs" = Some (CInt 0)
      /\ cache w' !! "remaining_jobs" = Some (CInt 1)
      /\ cache w' !! "1_failed_jobs" = Some (CInt 1)
      /\ cache w' !! "1_remaining_jobs" = Some (CInt 0)
      /\ effective_status w' 1 = Some (CStr "running")
  | _ => False
  end.
Proof. vm_compute. repeat split; reflexivity. Qed.

(** The same from a pipeline that has never run: a run in which the job
    fails, then a second start.  The second run begins with one failed job
    and no remaining job on the counters of the handlers. *)
Lemma second_run_begins_with_old_counters :
  match run_ops 5 [OpStart 1; OpWorkerFailed 1 "my-pipe_a_W_uuid0"; OpStart 1]
          world_one_job with
  | Some w =>
      cache w !! "1_failed_jobs" = Some (CInt 1)
      /\ cache w !! "1_remaining_jobs" = Some (CInt 0)
      /\ cache w !! "failed_jobs" = Some (CInt 0)
      /\ cache w !! "remaining_jobs" = Some (CInt 1)
      /\ List.map pipeline_status (pipelines w) = ["running"]
  | None => False
  end.
Proof. vm_compute. repeat split; reflexivity. Qed.

Lemma C10_start_resets_unprefixed_keys_witness :
  match Pipeline_start 5 1 world_after_failed_run with
  | Ret _ w' | Raise _ w' =>
      reset_keys 1 w' /\ failed_jobs_at_least (demo_job 1 "a") 1 w'
  | Timeout => False
  end
  /\ exists w',
       Pipeline_start 5 1 world_running = Ret false w'
       /\ w' = set_cache_map (fun _ => cache w') world_running
       /\ same_pipeline_counters world_running w'.
Proof.
  split.
  - destruct (C10_start_resets_unprefixed_keys 5 1 world_after_failed_run
                (pipeline_with_status "failed" None demo_pipeline) eq_refl eq_refl)
      as (H1 & H2 & H3 & _).
    assert (Hsc : scoped_params world_after_failed_run) by (intros q []).
    specialize (H2 Hsc ltac:(cbn; lia)).
    specialize (H3 (demo_job 1 "a") 1 ltac:(vm_compute; reflexivity) ltac:(lia)).
    unfold wp in H1, H3.
    change (length (Pipeline_jobs 1 world_after_failed_run)) with 1%nat in H1.
    destruct (Pipeline_start 5 1 world_after_failed_run);
      [now split|now split|now elim H2].
  - apply (C10_start_resets_unprefixed_keys 5 1 world_running demo_pipeline
             eq_refl eq_refl).
    right. exists (demo_job 1 "a"), (CStr "running").
    split; [left; reflexivity | split; reflexivity].
Defined.

(** ** Counters and task names in the cache *)

Lemma set_cache_twice key (v1 v2 : cval) w :
  set_cache_map (insert key v2) (set_cache_map (insert key v1) w)
  = set_cache_map (insert key v2) w.
Proof. destruct w. unfold set_cache_map. cbn. f_equal. apply insert_insert_eq. Qed.

Lemma set_cache_same key (v : cval) w :
  cache w !! key = Some v -> set_cache_map (insert key v) w = w.
Proof. destruct w. unfold set_cache_map. cbn. intros H. f_equal. now apply insert_id. Qed.

(** X10: [_increase_value_cache] followed by [_decrease_value_cache] on the same
    key gives the counter back, whatever the defaults are, provided the
    cached counter is an integer other than 0 and -1: at 0 the increase
    takes the counter for missing, and at -1 the decrease does. *)
Theorem increase_then_decrease_restores
    (self : Job) (key : string) (d1 d2 : option Z) (w : World) (z : Z) :
  cache w !! (Job__get_pipeline_prefix self +:+ key) = Some (CInt z) ->
  z <> 0 -> z <> -1 ->
  (Job__increase_value_cache self key d1 ;;;
   Job__decrease_value_cache self key d2) w = Ret tt w.
Proof.
  intros Hz H0 H1. unfold Job__increase_value_cache, Job__decrease_value_cache.
  set (k := Job__get_pipeline_prefix self +:+ key) in *.
  assert (Hinc : increase_handler d1 (cache w !! k) = inr (CInt (z + 1))).
  { rewrite Hz. unfold increase_handler. cbn [truthy].
    destruct (Z.eqb_spec z 0); [contradiction|reflexivity]. }
  mret (cache_update_inr k _ w _ Hinc).
  assert (Hdec : decrease_handler d2
                   (cache (set_cache_map (insert k (CInt (z + 1))) w) !! k)
                 = inr (CInt z)).
  { world_simpl. rewrite lookup_insert_eq. unfold decrease_handler. cbn [truthy].
    destruct (Z.eqb_spec (z + 1) 0); [lia|]. cbn [negb]. do 2 f_equal. lia. }
  rewrite (cache_update_inr k _ _ _ Hdec). f_equal.
  rewrite set_cache_twice. now apply set_cache_same.
Qed.

Lemma increase_then_decrease_restores_witness :
  (Job__increase_value_cache (demo_job 1 "a") CACHE_KEY_FAILED_JOBS None ;;;
   Job__decrease_value_cache (demo_job 1 "a") CACHE_KEY_FAILED_JOBS (Some 7))
    world_counting
  = Ret tt world_counting.
Proof.
  apply (increase_then_decrease_restores (demo_job 1 "a") CACHE_KEY_FAILED_JOBS
           None (Some 7) world_counting 2); [reflexivity|lia|lia].
Defined.

(** At -1 the pair does not give the counter back: the increase stores 0,
    which the decrease takes for a missing counter and replaces by its
    default. *)
Lemma increase_then_decrease_at_minus_one
    (self : Job) (key : string) (d1 : option Z) (n : Z) (w : World) :
  cache w !! (Job__get_pipeline_prefix self +:+ key) = Some (CInt (-1)) ->
  n <> 0 ->
  (Job__increase_value_cache self key d1 ;;;
   Job__decrease_value_cache self key (Some n)) w
  = Ret tt (set_cache_map (insert (Job__get_pipeline_prefix self +:+ key) (CInt (n - 1))) w).
Proof.
  intros Hz Hn. unfold Job__increase_value_cache, Job__decrease_value_cache.
  set (k := Job__get_pipeline_prefix self +:+ key) in *.
  assert (Hinc : increase_handler d1 (cache w !! k) = inr (CInt 0))
    by (rewrite Hz; reflexivity).
  mret (cache_update_inr k _ w _ Hinc).
  assert (Hdec : decrease_handler (Some n)
                   (cache (set_cache_map (insert k (CInt 0)) w) !! k)
                 = inr (CInt (n - 1))).
  { world_simpl. rewrite lookup_insert_eq. unfold decrease_handler.
    cbn [truthy truthy_int default Z.eqb negb].
    destruct (Z.eqb_spec n 0); [contradiction|reflexivity]. }
  rewrite (cache_update_inr k _ _ _ Hdec). f_equal. apply set_cache_twice.
Qed.

Lemma filter_app_last {A} (f : A -> bool) (l : list A) (x : A) :
  f x = false -> List.filter f (l ++ [x]) = List.filter f l.
Proof.
  intros Hx. rewrite List.filter_app. cbn [List.filter]. rewrite Hx.
  apply app_nil_r.
Qed.

(** X11: [_add_task_name_cache] followed by [_delete_task_name_cache] of the same
    name leaves the task list without any entry of that name: the entry just
    added goes, and so does every earlier entry that is equal to it. *)
Theorem add_then_delete_task_name (self : Job) (t : string) (w : World) :
  holds_list (cache w !! job_list_key self) ->
  (Job__add_task_name_cache self t ;;; Job__delete_task_name_cache self t) w
  = Ret tt
      (set_cache_map
         (insert (job_list_key self)
            (CList (List.filter (fun task => negb (String.eqb task t))
                      (list_of (cache w !! job_list_key self))))) w).
Proof.
  intros Hl. unfold Job__add_task_name_cache, Job__delete_task_name_cache.
  fold (job_list_key self). set (k := job_list_key self) in *.
  assert (Ht : negb (String.eqb t t) = false) by now rewrite String.eqb_refl.
  assert (Hadd : add_task_handler t (cache w !! k)
                 = inr (CList (list_of (cache w !! k) ++ [t]))).
  { destruct (cache w !! k) as [[z|s|[|x l]]|]; try contradiction; reflexivity. }
  mret (cache_update_inr k _ w _ Hadd).
  assert (Hdel : delete_task_handler t
                   (cache (set_cache_map
                             (insert k (CList (list_of (cache w !! k) ++ [t]))) w) !! k)
                 = inr (CList (List.filter (fun task => negb (String.eqb task t))
                                 (list_of (cache w !! k))))).
  { world_simpl. rewrite lookup_insert_eq. unfold delete_task_handler.
    assert (Hne : truthy (Some (CList (list_of (cache w !! k) ++ [t]))) = true)
      by (cbn [truthy]; now destruct (list_of (cache w !! k))).
    rewrite Hne. now rewrite (filter_app_last _ _ t Ht). }
  rewrite (cache_update_inr k _ _ _ Hdel). f_equal. apply set_cache_twice.
Qed.

Lemma add_then_delete_task_name_witness :
  (Job__add_task_name_cache (demo_job 1 "a") "t1" ;;;
   Job__delete_task_name_cache (demo_job 1 "a") "t1") world_counting
  = Ret tt
      (set_cache_map
         (insert (job_list_key (demo_job 1 "a"))
            (CList (List.filter (fun task => negb (String.eqb task "t1"))
                      (list_of (cache world_counting !! job_list_key (demo_job 1 "a"))))))
         world_counting).
Proof.
  apply (add_then_delete_task_name (demo_job 1 "a") "t1" world_counting).
  vm_compute. exact I.
Defined.

(** ** Task names *)

Lemma escape_char_kept c : task_name_char (escape_char c) = true.
Proof.
  unfold escape_char. fold (task_name_char c).
  destruct (task_name_char c) eqn:E; [exact E|reflexivity].
Qed.

Lemma escape_char_fixed c : task_name_char c = true -> escape_char c = c.
Proof. unfold escape_char. fold (task_name_char c). now intros ->. Qed.

(** X12: The escaped task name of [Job.enqueue] has the length of the raw name
    and consists of characters of [-_0-9a-zA-Z] only; a name that consists
    of such characters is left as it is, so that escaping twice is escaping
    once. *)
Theorem escape_task_name_safe (task_name : string) :
  String.length (escape_task_name task_name) = String.length task_name
  /\ string_forall task_name_char (escape_task_name task_name) = true
  /\ (string_forall task_name_char task_name = true ->
      escape_task_name task_name = task_name)
  /\ escape_task_name (escape_task_name task_name) = escape_task_name task_name.
Proof.
  unfold escape_task_name.
  induction task_name as [|c s (IH1 & IH2 & IH3 & IH4)]; [now repeat split|].
  cbn [string_map string_forall String.length]. repeat split.
  - now rewrite IH1.
  - now rewrite escape_char_kept, IH2.
  - intros H. apply andb_prop in H as [Hc Hs].
    now rewrite (escape_char_fixed c Hc), (IH3 Hs).
  - now rewrite (escape_char_fixed _ (escape_char_kept c)), IH4.
Qed.

(** ** Decimal texts and cache keys *)

Lemma string_forall_impl (P Q : ascii -> bool) s :
  (forall c, P c = true -> Q c = true) ->
  string_forall P s = true -> string_forall Q s = true.
Proof.
  intros HPQ. induction s as [|c s IH]; [reflexivity|].
  cbn [string_forall]. intros H. apply andb_prop in H as [Hc Hs].
  now rewrite (HPQ c Hc), (IH Hs).
Qed.

Lemma pretty_N_char_digit (d : N) : is_digit (pretty_N_char d) = true.
Proof. unfold pretty_N_char. now repeat case_match. Qed.

Lemma pretty_N_char_value (d : N) :
  (d < 10)%N -> Z.of_N (N_of_ascii (pretty_N_char d) - 48) = Z.of_N d.
Proof.
  intros Hd.
  assert (d = 0 \/ d = 1 \/ d = 2 \/ d = 3 \/ d = 4 \/ d = 5 \/ d = 6 \/ d = 7
          \/ d = 8 \/ d = 9)%N as H by lia.
  repeat (destruct H as [->|H]; [reflexivity|]). now subst.
Qed.

Lemma pretty_N_go_digits (x : N) (s : string) :
  string_forall is_digit s = true -> string_forall is_digit (pretty_N_go x s) = true.
Proof.
  revert s. induction (N.lt_wf_0 x) as [x _ IH]; intros s Hs.
  destruct (decide (0 < x)%N) as [Hx|Hx].
  - rewrite pretty_N_go_step by exact Hx. apply IH; [now apply N.div_lt|].
    cbn [string_forall]. now rewrite pretty_N_char_digit.
  - assert (x = 0%N) as -> by lia. now rewrite pretty_N_go_0.
Qed.

Lemma pretty_N_digits (x : N) : string_forall is_digit (pretty x) = true.
Proof.
  unfold pretty, pretty_N. case_decide; [reflexivity|].
  now apply pretty_N_go_digits.
Qed.

Lemma pretty_Z_sign_or_digit (z : Z) : string_forall sign_or_digit (pretty z) = true.
Proof.
  assert (Hd : forall c, is_digit c = true -> sign_or_digit c = true).
  { intros c Hc. unfold sign_or_digit. rewrite Hc. apply orb_true_r. }
  destruct z as [|x|x]; [reflexivity|..].
  - apply (string_forall_impl is_digit); [exact Hd|]. apply (pretty_N_digits (Npos x)).
  - change (pretty (Zneg x)) with (String "-" (pretty (Npos x))).
    cbn [string_forall]. change (sign_or_digit "-") with true. cbn [andb].
    apply (string_forall_impl is_digit); [exact Hd|]. apply (pretty_N_digits (Npos x)).
Qed.

Lemma sign_or_digit_not_underscore c : sign_or_digit c = true -> not_underscore c = true.
Proof.
  destruct c as [[] [] [] [] [] [] [] []]; intros H; vm_compute in H;
    try discriminate H; reflexivity.
Qed.

Lemma py_str_int_no_underscore (x : option Z) :
  string_forall not_underscore (py_str_int x) = true.
Proof.
  destruct x as [z|]; [|reflexivity]. cbn [py_str_int].
  apply (string_forall_impl sign_or_digit);
    [exact sign_or_digit_not_underscore|apply pretty_Z_sign_or_digit].
Qed.

Lemma py_str_int_inj (x y : option Z) : py_str_int x = py_str_int y -> x = y.
Proof.
  destruct x as [a|], y as [b|]; cbn [py_str_int]; intros H.
  - f_equal. now apply (inj pretty).
  - pose proof (pretty_Z_sign_or_digit a) as Ha. rewrite H in Ha. discriminate Ha.
  - pose proof (pretty_Z_sign_or_digit b) as Hb. rewrite <- H in Hb. discriminate Hb.
  - reflexivity.
Qed.

(** Two texts that agree up to and including their first underscore. *)
Lemma split_at_underscore (a b r r' : string) :
  string_forall not_underscore a = true -> string_forall not_underscore b = true ->
  a +:+ String "_" r = b +:+ String "_" r' -> a = b /\ r = r'.
Proof.
  revert b. induction a as [|c a IH]; intros [|d b] Ha Hb H.
  - injection H as ->. now split.
  - rewrite string_app_nil_l, string_app_cons in H. injection H as <- _.
    cbn [string_forall] in Hb. discriminate Hb.
  - rewrite string_app_nil_l, string_app_cons in H. injection H as -> _.
    cbn [string_forall] in Ha. discriminate Ha.
  - rewrite !string_app_cons in H. injection H as -> H.
    cbn [string_forall] in Ha, Hb.
    apply andb_prop in Ha as [_ Ha]. apply andb_prop in Hb as [_ Hb].
    destruct (IH b Ha Hb H) as [-> ->]. now split.
Qed.

Lemma pipeline_prefix_inj (j1 j2 : Job) :
  Job__get_pipeline_prefix j1 = Job__get_pipeline_prefix j2 ->
  job_pipeline_id j1 = job_pipeline_id j2.
Proof.
  unfold Job__get_pipeline_prefix. intros H.
  apply string_app_suffix_inj in H as [H _]; [|reflexivity].
  now apply py_str_int_inj.
Qed.

Lemma job_key_inj (j1 j2 : Job) (suffix : string) :
  Job__get_pipeline_prefix j1 +:+ Job__get_job_prefix j1 +:+ suffix
  = Job__get_pipeline_prefix j2 +:+ Job__get_job_prefix j2 +:+ suffix ->
  job_pipeline_id j1 = job_pipeline_id j2 /\ job_id_ j1 = job_id_ j2.
Proof.
  unfold Job__get_pipeline_prefix, Job__get_job_prefix. intros H.
  rewrite !string_app_assoc in H.
  change ("_" +:+ ?x) with (String "_" x) in H.
  apply split_at_underscore in H as [Hp H]; try apply py_str_int_no_underscore.
  split; [now apply py_str_int_inj|].
  apply string_app_suffix_inj in H as [H _]; [|reflexivity].
  now apply (inj pretty).
Qed.

(** X13: Cache keys do not collide: jobs that differ in their id or in their
    pipeline have different status keys and different enqueued-tasks keys
    (the underscore after each number keeps [1_23_status] and [12_3_status]
    apart), and jobs of different pipelines use different counters and task
    lists. *)
Theorem job_cache_keys_distinct (j1 j2 : Job) :
  job_pipeline_id j1 <> job_pipeline_id j2 \/ job_id_ j1 <> job_id_ j2 ->
  job_status_key j1 <> job_status_key j2
  /\ job_enqueued_key j1 <> job_enqueued_key j2
  /\ (job_pipeline_id j1 <> job_pipeline_id j2 ->
      job_failed_key j1 <> job_failed_key j2
      /\ job_remaining_key j1 <> job_remaining_key j2
      /\ job_list_key j1 <> job_list_key j2).
Proof.
  intros Hne.
  assert (Hkey : forall suffix,
            Job__get_pipeline_prefix j1 +:+ Job__get_job_prefix j1 +:+ suffix
            <> Job__get_pipeline_prefix j2 +:+ Job__get_job_prefix j2 +:+ suffix).
  { intros suffix H. apply job_key_inj in H as [H1 H2].
    destruct Hne as [Hne|Hne]; contradiction. }
  split; [apply Hkey|]. split; [apply Hkey|].
  intros Hp.
  assert (Hpre : forall suffix,
            Job__get_pipeline_prefix j1 +:+ suffix
            <> Job__get_pipeline_prefix j2 +:+ suffix).
  { intros suffix H. apply string_app_suffix_inj in H as [H _]; [|reflexivity].
    now apply pipeline_prefix_inj in H. }
  repeat split; apply Hpre.
Qed.

Lemma job_cache_keys_distinct_witness :
  job_status_key (mkJob 23 None "idle" None None (Some 1) 0)
    <> job_status_key (mkJob 3 None "idle" None None (Some 12) 0)
  /\ job_enqueued_key (mkJob 23 None "idle" None None (Some 1) 0)
       <> job_enqueued_key (mkJob 3 None "idle" None None (Some 12) 0)
  /\ (job_pipeline_id (mkJob 23 None "idle" None None (Some 1) 0)
        <> job_pipeline_id (mkJob 3 None "idle" None None (Some 12) 0) ->
      job_failed_key (mkJob 23 None "idle" None None (Some 1) 0)
        <> job_failed_key (mkJob 3 None "idle" None None (Some 12) 0)
      /\ job_remaining_key (mkJob 23 None "idle" None None (Some 1) 0)
           <> job_remaining_key (mkJob 3 None "idle" None None (Some 12) 0)
      /\ job_list_key (mkJob 23 None "idle" None None (Some 1) 0)
           <> job_list_key (mkJob 3 None "idle" None None (Some 12) 0)).
Proof.
  apply job_cache_keys_distinct. right. cbn. lia.
Defined.

(** ** [_parse_num] on the text of an integer *)

Lemma string_app_nil_r s : s +:+ "" = s.
Proof. induction s as [|c s IH]; [reflexivity|]. now rewrite string_app_cons, IH. Qed.

Lemma rev_app_rev_app (s t u : string) :
  String.rev_app (String.rev_app s t) u = String.rev_app t (s +:+ u).
Proof.
  revert t. induction s as [|a s IH]; intros t; [reflexivity|].
  cbn [String.rev_app]. rewrite IH. reflexivity.
Qed.

Lemma string_rev_involutive s : String.rev (String.rev s) = s.
Proof.
  unfold String.rev. rewrite rev_app_rev_app. cbn [String.rev_app].
  apply string_app_nil_r.
Qed.

Lemma string_forall_rev_app P s t :
  string_forall P (String.rev_app s t) = string_forall P s && string_forall P t.
Proof.
  revert t. induction s as [|a s IH]; intros t; [reflexivity|].
  cbn [String.rev_app string_forall]. rewrite IH. cbn [string_forall].
  destruct (P a), (string_forall P s), (string_forall P t); reflexivity.
Qed.

Lemma lstrip_fixed s : string_forall not_space s = true -> lstrip s = s.
Proof.
  destruct s as [|c s]; [reflexivity|]. cbn [string_forall lstrip].
  intros H. apply andb_prop in H as [Hc _]. unfold not_space in Hc.
  now destruct (Ascii.is_space c).
Qed.

Lemma py_strip_fixed s : string_forall not_space s = true -> py_strip s = s.
Proof.
  intros H. unfold py_strip. rewrite (lstrip_fixed s H).
  rewrite lstrip_fixed; [apply string_rev_involutive|].
  unfold String.rev. rewrite string_forall_rev_app, H. reflexivity.
Qed.

Lemma sign_or_digit_not_space c : sign_or_digit c = true -> not_space c = true.
Proof.
  destruct c as [[] [] [] [] [] [] [] []]; intros H; vm_compute in H;
    try discriminate H; reflexivity.
Qed.

Lemma digits_value_pretty_go (x : N) :
  exists k : Z, 0 <= k /\
    forall s acc, digits_value acc (pretty_N_go x s)
                  = digits_value (acc * 10 ^ k + Z.of_N x) s.
Proof.
  induction (N.lt_wf_0 x) as [x _ IH].
  destruct (decide (0 < x)%N) as [Hx|Hx].
  - destruct (IH (x `div` 10)%N (N.div_lt x 10 Hx eq_refl)) as (k & Hk & Hgo).
    exists (k + 1). split; [lia|]. intros s acc.
    rewrite pretty_N_go_step by exact Hx. rewrite Hgo.
    cbn [digits_value]. rewrite pretty_N_char_digit.
    rewrite pretty_N_char_value by (apply N.mod_lt; lia).
    f_equal. rewrite Z.pow_add_r by lia.
    rewrite (N.div_mod x 10) at 3 by lia. rewrite N2Z.inj_add, N2Z.inj_mul. lia.
  - assert (x = 0%N) as -> by lia. exists 0. split; [lia|]. intros s acc.
    rewrite pretty_N_go_0. f_equal. cbn. lia.
Qed.

Lemma parse_digits_pretty_N (x : N) : parse_digits (pretty x) = Some (Z.of_N x).
Proof.
  unfold pretty, pretty_N. case_decide as Hx; [now subst|].
  destruct (digits_value_pretty_go x) as (k & _ & Hgo).
  specialize (Hgo "" 0). cbn [digits_value] in Hgo. rewrite Z.mul_0_l, Z.add_0_l in Hgo.
  unfold parse_digits. destruct (pretty_N_go x "") as [|c s] eqn:E; [|exact Hgo].
  cbn [digits_value] in Hgo. injection Hgo as Hgo. lia.
Qed.

Lemma py_int_unsigned (s : string) :
  string_forall is_digit s = true -> py_int s = parse_digits s.
Proof.
  intros Hs. unfold py_int. rewrite py_strip_fixed.
  - destruct s as [|c d]; [reflexivity|]. cbn [string_forall] in Hs.
    apply andb_prop in Hs as [Hc _].
    destruct c as [[] [] [] [] [] [] [] []]; vm_compute in Hc;
      try discriminate Hc; reflexivity.
  - apply (string_forall_impl is_digit); [|exact Hs].
    intros c Hc. apply sign_or_digit_not_space. unfold sign_or_digit.
    rewrite Hc. apply orb_true_r.
Qed.

Lemma py_int_pretty (z : Z) : py_int (pretty z) = Some z.
Proof.
  destruct z as [|x|x]; [reflexivity|..].
  - change (pretty (Zpos x)) with (pretty (Npos x)).
    rewrite py_int_unsigned by apply pretty_N_digits.
    apply (parse_digits_pretty_N (Npos x)).
  - unfold py_int. rewrite py_strip_fixed.
    + change (pretty (Zneg x)) with (String "-" (pretty (Npos x))).
      cbv beta iota. rewrite (parse_digits_pretty_N (Npos x)). reflexivity.
    + apply (string_forall_impl sign_or_digit);
        [exact sign_or_digit_not_space|apply pretty_Z_sign_or_digit].
Qed.

(** X14: [_parse_num] reads back the decimal text of every integer: for each
    [z], [_parse_num(str(z))] is the [int] [z], also when the text is
    negative. *)
Theorem parse_num_of_int_text (z : Z) : _parse_num (pretty z) = NInt z.
Proof. unfold _parse_num. now rewrite py_int_pretty. Qed.

(** ** Inliners *)

Lemma inliner_close_cons (c : ascii) (s : string) :
  inliner_close (String c s)
  = match (if Ascii.eqb c "%"
           then match s with
                | String d r => if Ascii.eqb d "}" then Some r else None
                | EmptyString => None
                end
           else None) with
    | Some r => Some (EmptyString, r)
    | None =>
        if is_newline c then None
        else match inliner_close s with
             | Some (inner, rest) => Some (String c inner, rest)
             | None => None
             end
    end.
Proof.
  destruct c as [[] [] [] [] [] [] [] []]; try reflexivity.
  destruct s as [|d r]; [reflexivity|].
  destruct d as [[] [] [] [] [] [] [] []]; reflexivity.
Qed.

Lemma inliner_close_spec (s : string) :
  forall inner rest,
    inliner_close s = Some (inner, rest) ->
    s = inner +:+ "%}" +:+ rest /\ string_forall not_newline inner = true.
Proof.
  induction s as [|c s IH]; intros inner rest H; [discriminate|].
  rewrite inliner_close_cons in H.
  assert (Hfall :
            (if is_newline c then None
             else match inliner_close s with
                  | Some (inner, rest) => Some (String c inner, rest)
                  | None => None
                  end) = Some (inner, rest) ->
            String c s = inner +:+ "%}" +:+ rest
            /\ string_forall not_newline inner = true).
  { destruct (is_newline c) eqn:Hnl; [discriminate|].
    destruct (inliner_close s) as [[i r]|]; [|discriminate].
    intros E. injection E as <- <-. destruct (IH i r eq_refl) as [-> Hi].
    split; [reflexivity|]. cbn [string_forall]. unfold not_newline at 1.
    now rewrite Hnl, Hi. }
  destruct (Ascii.eqb_spec c "%") as [->|Hc]; [|exact (Hfall H)].
  destruct s as [|d r]; [exact (Hfall H)|].
  destruct (Ascii.eqb_spec d "}") as [->|Hd]; [|exact (Hfall H)].
  injection H as <- <-. now split.
Qed.

Lemma inliner_at_spec (s m rest : string) :
  inliner_at s = Some (m, rest) ->
  exists body,
    body <> "" /\ string_forall not_newline body = true
    /\ m = "{%" +:+ body +:+ "%}" /\ s = m +:+ rest.
Proof.
  destruct s as [|a s]; [discriminate|].
  destruct a as [[] [] [] [] [] [] [] []]; try discriminate.
  destruct s as [|b s]; [discriminate|].
  destruct b as [[] [] [] [] [] [] [] []]; try discriminate.
  destruct s as [|c s]; [discriminate|].
  cbv beta iota delta [inliner_at]. destruct (is_newline c) eqn:Hnl; [discriminate|].
  destruct (inliner_close s) as [[inner r]|] eqn:E; [|discriminate].
  intros H. injection H as <- <-. destruct (inliner_close_spec s inner r E) as [-> Hi].
  exists (String c inner). split; [discriminate|]. split.
  - cbn [string_forall]. unfold not_newline at 1. now rewrite Hnl, Hi.
  - split; [reflexivity|].
    change ("{%" +:+ ?x) with (String "{" (String "%" x)).
    rewrite !string_app_cons. do 3 f_equal. now rewrite string_app_assoc.
Qed.

Lemma findall_go_spec (fuel : nat) :
  forall s m,
    In m (findall_go fuel s) ->
    exists body,
      body <> "" /\ string_forall not_newline body = true
      /\ m = "{%" +:+ body +:+ "%}".
Proof.
  induction fuel as [|fuel IH]; intros s m Hin; [destruct Hin|].
  cbn [findall_go] in Hin. destruct s as [|c s]; [destruct Hin|].
  destruct (inliner_at (String c s)) as [[m' rest]|] eqn:E.
  - destruct Hin as [<-|Hin]; [|now apply (IH rest)].
    destruct (inliner_at_spec _ _ _ E) as (body & H1 & H2 & H3 & _).
    now exists body.
  - now apply (IH s).
Qed.

Lemma substring_prefix (b t : string) :
  String.substring 0 (String.length b) (b +:+ t) = b.
Proof.
  induction b as [|c b IH]; [now destruct t|].
  rewrite string_app_cons. cbn [String.length String.substring]. now rewrite IH.
Qed.

Lemma slice_of_inliner (body : string) : slice_2_m2 ("{%" +:+ body +:+ "%}") = body.
Proof.
  unfold slice_2_m2.
  change ("{%" +:+ ?x) with (String "{" (String "%" x)).
  cbn [String.length String.substring]. rewrite string_app_length.
  replace (S (S (String.length body + String.length "%}")) - 4)%nat
    with (String.length body) by (cbn [String.length]; lia).
  apply substring_prefix.
Qed.

(** X15: Every inliner that [_INLINER_REGEX.findall] gives to [_expand_vars] is
    an opening [{%], a non-empty body without a line break and a closing
    [%}], and [inliner[2:-2]], the expression handed to the evaluator, is
    that body. *)
Theorem inliners_are_delimited_bodies (value m : string) :
  In m (INLINER_REGEX_findall value) ->
  exists body,
    body <> "" /\ string_forall not_newline body = true
    /\ m = "{%" +:+ body +:+ "%}" /\ slice_2_m2 m = body.
Proof.
  intros Hin. destruct (findall_go_spec _ _ _ Hin) as (body & H1 & H2 & ->).
  exists body. repeat split; try assumption. apply slice_of_inliner.
Qed.

Lemma inliners_are_delimited_bodies_witness :
  exists body,
    body <> "" /\ string_forall not_newline body = true
    /\ "{% y %}" = "{%" +:+ body +:+ "%}" /\ slice_2_m2 "{% y %}" = body.
Proof.
  apply (inliners_are_delimited_bodies "{% x %} + {% y %} + 5" "{% y %}").
  vm_compute. right. left. reflexivity.
Defined.

Lemma inliner_at_no_brace (c : ascii) (s : string) :
  not_brace c = true -> inliner_at (String c s) = None.
Proof.
  destruct c as [[] [] [] [] [] [] [] []]; intros H; vm_compute in H;
    try discriminate H; reflexivity.
Qed.

Lemma findall_go_no_brace (fuel : nat) (s : string) :
  string_forall not_brace s = true -> findall_go fuel s = [].
Proof.
  revert s. induction fuel as [|fuel IH]; intros s Hs; [reflexivity|].
  destruct s as [|c s]; [reflexivity|]. cbn [string_forall] in Hs.
  apply andb_prop in Hs as [Hc Hs]. cbn [findall_go].
  rewrite (inliner_at_no_brace c s Hc). now apply IH.
Qed.

(** X16: A param of type [number] that belongs to no job and no pipeline and
    whose value is the decimal text of an integer evaluates to that
    integer, whatever the other params and the evaluator are: without an
    opening brace there is no inliner to expand. *)
Theorem Param_val_of_integer_text (fuel : nat) (w : World) (p : Param) (z : Z) :
  param_type p = "number" -> param_job_id p = None -> param_pipeline_id p = None ->
  param_value p = pretty z ->
  Param_val (S fuel) p w = Ret (VNum (NInt z)) w.
Proof.
  intros Hty Hjob Hpipe Hval.
  assert (Hnone : INLINER_REGEX_findall (param_value p) = []).
  { apply findall_go_no_brace. rewrite Hval.
    apply (string_forall_impl sign_or_digit); [|apply pretty_Z_sign_or_digit].
    intros c. destruct c as [[] [] [] [] [] [] [] []]; intros H; vm_compute in H;
      try discriminate H; reflexivity. }
  destruct (Param_val_literal_value fuel w p Hjob Hnone (or_introl Hpipe)) as [_ Hnum].
  rewrite (Hnum Hty), Hval. unfold _parse_num. now rewrite py_int_pretty.
Qed.

Lemma Param_val_of_integer_text_witness :
  Param_val 1 (mkParam 9 "n" "number" None None None "-42") world_params
  = Ret (VNum (NInt (-42))) world_params.
Proof.
  apply (Param_val_of_integer_text 0 world_params
           (mkParam 9 "n" "number" None None None "-42") (-42)); reflexivity.
Defined.

(** ** [Job.destroy] *)

Lemma existsb_id_in (ids : list Z) (i : Z) : id_in ids i = true <-> In i ids.
Proof.
  unfold id_in. rewrite existsb_exists. split.
  - intros (x & Hx & E). apply Z.eqb_eq in E. now subst.
  - intros H. exists i. split; [exact H|apply Z.eqb_refl].
Qed.

Lemma filter_all {A} (l : list A) : List.filter (fun _ => true) l = l.
Proof. induction l as [|x l IH]; [reflexivity|]. cbn [List.filter]. now f_equal. Qed.

Lemma destroy_if_nonempty_sc (ids : list Z) w :
  (if nonempty ids then StartCondition_destroy ids else ret tt) w
  = Ret tt (set_start_conditions
              (List.filter (fun sc => negb (id_in ids (sc_id sc)))) w).
Proof.
  destruct ids as [|i ids]; [|reflexivity]. cbn [nonempty]. unfold ret. f_equal.
  destruct w. unfold set_start_conditions. cbn. f_equal.
  symmetry. apply filter_all.
Qed.

Lemma destroy_if_nonempty_param (ids : list Z) w :
  (if nonempty ids then Param_destroy ids else ret tt) w
  = Ret tt (set_params (List.filter (fun p => negb (id_in ids (param_id p)))) w).
Proof.
  destruct ids as [|i ids]; [|reflexivity]. cbn [nonempty]. unfold ret. f_equal.
  destruct w. unfold set_params. cbn. f_equal.
  symmetry. apply filter_all.
Qed.

(** The world that [Job.destroy] leaves. *)
Lemma Job_destroy_eq (jid : Z) (w : World) :
  Job_destroy jid w
  = Ret tt
      (set_jobs (List.filter (fun j => negb (job_id_ j =? jid)%Z))
         (set_params
            (List.filter
               (fun p => negb (id_in (List.map param_id (Job_params jid w)) (param_id p))))
            (set_start_conditions
               (fun scs =>
                  let scs1 :=
                    List.filter
                      (fun sc => negb (id_in (List.map sc_id (Job_start_conditions jid w))
                                         (sc_id sc))) scs in
                  List.filter
                    (fun sc =>
                       negb (id_in
                               (List.map sc_id
                                  (List.filter
                                     (fun sc => (sc_preceding_job_id sc =? jid)%Z) scs1))
                               (sc_id sc))) scs1)
               w))).
Proof.
  unfold Job_destroy. rewrite bind_gets.
  rewrite (bind_Ret _ _ _ _ _ (destroy_if_nonempty_sc _ w)). rewrite bind_gets.
  rewrite (bind_Ret _ _ _ _ _ (destroy_if_nonempty_sc _ _)). rewrite bind_gets.
  rewrite (bind_Ret _ _ _ _ _ (destroy_if_nonempty_param _ _)).
  destruct w. reflexivity.
Qed.

(** X17: [Job.destroy] cascades: afterwards no job row has the id of the job, no
    start condition names the job on either side, and no param belongs to
    it; every other job row is kept as it is, the pipelines are not touched,
    and neither is the cache, which keeps the entries of the job. *)
Theorem Job_destroy_cascades (jid : Z) (w : World) :
  exists w',
    Job_destroy jid w = Ret tt w'
    /\ lookup_job jid w' = None
    /\ (forall sc, In sc (start_conditions w') -> sc_mentions jid sc = false)
    /\ (forall p, In p (params w') -> param_job_id p <> Some jid)
    /\ jobs w' = List.filter (fun j => negb (job_id_ j =? jid)%Z) (jobs w)
    /\ pipelines w' = pipelines w
    /\ cache w' = cache w.
Proof.
  eexists. split; [apply Job_destroy_eq|].
  split; [|split; [|split; [|split; [reflexivity|split; reflexivity]]]].
  - unfold lookup_job. cbn [jobs set_jobs].
    destruct (List.find _ _) as [j|] eqn:E; [|reflexivity].
    apply find_some in E as [Hin Hj]. apply filter_In in Hin as [_ Hne].
    rewrite Hj in Hne. discriminate.
  - intros sc Hin. cbn in Hin.
    apply filter_In in Hin as [Hin H2]. pose proof Hin as Hin1.
    apply filter_In in Hin as [Hin H1].
    unfold sc_mentions. apply orb_false_intro.
    + destruct (sc_job_id sc =? jid)%Z eqn:E; [|reflexivity]. exfalso.
      apply negb_true_iff in H1. apply not_true_iff_false in H1. apply H1.
      apply existsb_id_in. apply in_map. unfold Job_start_conditions.
      apply filter_In. now split.
    + destruct (sc_preceding_job_id sc =? jid)%Z eqn:E; [|reflexivity]. exfalso.
      apply negb_true_iff in H2. apply not_true_iff_false in H2. apply H2.
      apply existsb_id_in. apply in_map. apply filter_In. now split.
  - intros p Hin Hp. cbn in Hin.
    apply filter_In in Hin as [Hin H1].
    apply negb_true_iff in H1. apply not_true_iff_false in H1. apply H1.
    apply existsb_id_in. apply in_map. unfold Job_params.
    apply filter_In. split; [exact Hin|]. now apply bool_decide_eq_true.
Qed.

Lemma filter_twice {A} (f g : A -> bool) (l : list A) :
  List.filter g (List.filter f l) = List.filter (fun x => f x && g x) l.
Proof.
  induction l as [|x l IH]; [reflexivity|]. cbn [List.filter].
  destruct (f x); cbn [andb List.filter]; [destruct (g x)|]; now rewrite IH.
Qed.

Lemma filter_by_ids {A} (f : A -> Z) (P : A -> bool) (l : list A) :
  NoDup (List.map f l) ->
  List.filter (fun x => negb (id_in (List.map f (List.filter P l)) (f x))) l
  = List.filter (fun x => negb (P x)) l.
Proof.
  intros Hnd. apply filter_ext_in. intros x Hx. f_equal.
  destruct (P x) eqn:HP.
  - apply existsb_id_in. apply in_map. apply filter_In. now split.
  - apply not_true_iff_false. intros H. apply existsb_id_in in H.
    apply in_map_iff in H as (y & Hfy & Hy). apply filter_In in Hy as [Hy HPy].
    assert (y = x) as ->; [|congruence].
    clear -Hnd Hx Hy Hfy. induction l as [|a l IH]; [destruct Hx|].
    cbn [List.map] in Hnd. apply NoDup_cons in Hnd as [Hna Hnd'].
    rewrite list_elem_of_In in Hna.
    destruct Hx as [->|Hx], Hy as [->|Hy]; [reflexivity| | |now apply IH].
    + exfalso. apply Hna. rewrite <- Hfy. now apply in_map.
    + exfalso. apply Hna. rewrite Hfy. now apply in_map.
Qed.

(** X18: When the ids of the start conditions and of the params are keys (no two
    rows share one), [Job.destroy] removes nothing else: the start
    conditions left are those that do not mention the job, and the params
    left are those of the other jobs, of the pipelines and the global
    ones. *)
Theorem Job_destroy_removes_nothing_else (jid : Z) (w : World) :
  NoDup (List.map sc_id (start_conditions w)) ->
  NoDup (List.map param_id (params w)) ->
  exists w',
    Job_destroy jid w = Ret tt w'
    /\ start_conditions w'
       = List.filter (fun sc => negb (sc_mentions jid sc)) (start_conditions w)
    /\ params w' = List.filter (fun p => negb (param_of_job jid p)) (params w).
Proof.
  intros Hsc Hp. eexists. split; [apply Job_destroy_eq|]. split.
  - cbn. unfold Job_start_conditions.
    rewrite (filter_by_ids sc_id (fun sc => (sc_job_id sc =? jid)%Z)) by exact Hsc.
    rewrite (filter_by_ids sc_id (fun sc => (sc_preceding_job_id sc =? jid)%Z)).
    + rewrite filter_twice. apply filter_ext. intros sc. unfold sc_mentions.
      now destruct (sc_job_id sc =? jid)%Z, (sc_preceding_job_id sc =? jid)%Z.
    + clear -Hsc. induction (start_conditions w) as [|a l IH]; [constructor|].
      cbn [List.map] in Hsc. apply NoDup_cons in Hsc as [Ha Hl].
      rewrite list_elem_of_In in Ha.
      cbn [List.filter]. destruct (negb _); [|now apply IH].
      cbn [List.map]. apply NoDup_cons. split; [|now apply IH].
      rewrite list_elem_of_In. intros Hin. apply Ha.
      apply in_map_iff in Hin as (y & Hy & Hin). apply filter_In in Hin as [Hin _].
      rewrite <- Hy. now apply in_map.
  - cbn. unfold Job_params.
    now rewrite (filter_by_ids param_id
                   (fun p => bool_decide (param_job_id p = Some jid))).
Qed.

Lemma Job_destroy_removes_nothing_else_witness :
  exists w',
    Job_destroy 1 world_with_relations = Ret tt w'
    /\ start_conditions w'
       = List.filter (fun sc => negb (sc_mentions 1 sc))
           (start_conditions world_with_relations)
    /\ params w'
       = List.filter (fun p => negb (param_of_job 1 p)) (params world_with_relations).
Proof.
  apply Job_destroy_removes_nothing_else; cbn;
    repeat (apply NoDup_cons; split; [rewrite list_elem_of_In; cbn; intuition lia|]);
    apply NoDup_nil_2.
Defined.

(** ** [Pipeline.stop] *)

Lemma NoDup_map_inj {A B} (f : A -> B) (l : list A) (a b : A) :
  List.NoDup (List.map f l) -> In a l -> In b l -> f a = f b -> a = b.
Proof.
  induction l as [|x l IH]; intros Hnd Ha Hb Hf; [destruct Ha|].
  cbn in Hnd. apply List.NoDup_cons_iff in Hnd as [Hx Hnd].
  destruct Ha as [->|Ha], Hb as [->|Hb]; [reflexivity| | |now apply IH].
  - exfalso. apply Hx. rewrite Hf. now apply in_map.
  - exfalso. apply Hx. rewrite <- Hf. now apply in_map.
Qed.

Lemma lookup_job_of_id (jid : Z) (w : World) :
  In jid (List.map job_id_ (jobs w)) -> exists self, lookup_job jid w = Some self.
Proof.
  intros H. apply in_map_iff in H as (j & <- & Hin). now apply In_lookup_job.
Qed.

Lemma lookup_job_unique (w : World) (j : Job) :
  List.NoDup (List.map job_id_ (jobs w)) -> In j (jobs w) ->
  lookup_job (job_id_ j) w = Some j.
Proof.
  intros Hnd Hin. destruct (In_lookup_job j w Hin) as [self Hself].
  rewrite Hself. f_equal.
  apply (NoDup_map_inj job_id_ (jobs w)); [exact Hnd| |exact Hin|].
  - now apply lookup_job_In in Hself.
  - now apply lookup_job_id in Hself.
Qed.

(** *** Rows in step *)

Lemma Forall2_same {A} (R : A -> A -> Prop) (l : list A) :
  (forall a, R a a) -> Forall2 R l l.
Proof. intros H. induction l; constructor; auto. Qed.

Lemma Forall2_map_In {A B} (R R' : A -> B -> Prop) (g : B -> B) l l1 :
  Forall2 R l l1 ->
  (forall a b, In b l1 -> R a b -> R' a (g b)) ->
  Forall2 R' l (List.map g l1).
Proof.
  induction 1 as [|a b l l1 Hab _ IH]; intros Hg; cbn; constructor.
  - apply Hg; [now left|exact Hab].
  - apply IH. intros a' b' Hin. apply Hg. now right.
Qed.

Lemma Forall2_filter_both {A B} (R : A -> B -> Prop) (f : A -> bool) (g : B -> bool)
    l l1 :
  Forall2 R l l1 -> (forall a b, R a b -> f a = g b) ->
  Forall2 R (List.filter f l) (List.filter g l1).
Proof.
  intros HF Hfg. induction HF as [|a b l l1 Hab _ IH]; cbn; [constructor|].
  rewrite (Hfg a b Hab). destruct (g b); [constructor; assumption|exact IH].
Qed.

Lemma Forall2_forallb {A B} (R : A -> B -> Prop) (f : A -> bool) (g : B -> bool)
    l l1 :
  Forall2 R l l1 -> (forall a b, In a l -> In b l1 -> R a b -> f a = g b) ->
  forallb f l = forallb g l1.
Proof.
  induction 1 as [|a b l l1 Hab _ IH]; intros Hfg; cbn; [reflexivity|].
  rewrite (Hfg a b (or_introl eq_refl) (or_introl eq_refl) Hab). f_equal.
  apply IH. intros a' b' Ha' Hb'. apply Hfg; now right.
Qed.

Lemma Forall2_existsb {A B} (R : A -> B -> Prop) (f : A -> bool) (g : B -> bool)
    l l1 :
  Forall2 R l l1 -> (forall a b, In a l -> In b l1 -> R a b -> f a = g b) ->
  existsb f l = existsb g l1.
Proof.
  induction 1 as [|a b l l1 Hab _ IH]; intros Hfg; cbn; [reflexivity|].
  rewrite (Hfg a b (or_introl eq_refl) (or_introl eq_refl) Hab). f_equal.
  apply IH. intros a' b' Ha' Hb'. apply Hfg; now right.
Qed.

Lemma stopped_status_idem s : stopped_status (stopped_status s) = stopped_status s.
Proof.
  unfold stopped_status.
  destruct (String.eqb s "waiting") eqn:E1; [reflexivity|].
  destruct (String.eqb s "running") eqn:E2; [reflexivity|].
  now rewrite E1, E2.
Qed.

Lemma stopped_row_id D j j1 : stopped_row D j j1 -> job_id_ j1 = job_id_ j.
Proof. intros (H & _). unfold job_identity in H. now injection H. Qed.

Lemma stopped_row_pipeline D j j1 :
  stopped_row D j j1 -> job_pipeline_id j1 = job_pipeline_id j.
Proof. intros (H & _). unfold job_identity in H. now injection H. Qed.

Lemma stopped_row_key D j j1 : stopped_row D j j1 -> job_status_key j1 = job_status_key j.
Proof.
  intros H. unfold job_status_key, Job__get_pipeline_prefix, Job__get_job_prefix.
  now rewrite (stopped_row_id _ _ _ H), (stopped_row_pipeline _ _ _ H).
Qed.

Lemma stopped_rows_ids D l l1 :
  Forall2 (stopped_row D) l l1 -> List.map job_id_ l1 = List.map job_id_ l.
Proof.
  induction 1 as [|j j1 l l1 H _ IH]; [reflexivity|].
  cbn. now rewrite IH, (stopped_row_id _ _ _ H).
Qed.

Lemma stopped_rows_In D l l1 j1 :
  Forall2 (stopped_row D) l l1 -> In j1 l1 ->
  exists j, In j l /\ stopped_row D j j1.
Proof.
  induction 1 as [|a b l l1 Hab _ IH]; intros Hin; [destruct Hin|].
  destruct Hin as [<-|Hin].
  - exists a. split; [now left|exact Hab].
  - destruct (IH Hin) as (j & Hj & HR). exists j. split; [now right|exact HR].
Qed.

Lemma stopped_rows_In_l D l l1 j :
  Forall2 (stopped_row D) l l1 -> In j l ->
  exists j1, In j1 l1 /\ stopped_row D j j1.
Proof.
  induction 1 as [|a b l l1 Hab _ IH]; intros Hin; [destruct Hin|].
  destruct Hin as [<-|Hin].
  - exists b. split; [now left|exact Hab].
  - destruct (IH Hin) as (j1 & Hj & HR). exists j1. split; [now right|exact HR].
Qed.

(** One more job is stopped: the rows of its id take the status that the
    stop gives them. *)
Lemma stopped_rows_step D jid l l1 (g : Job -> Job) :
  Forall2 (stopped_row D) l l1 ->
  (forall j1, In j1 l1 ->
     job_identity (g j1) = job_identity j1
     /\ job_enqueued_workers_count (g j1) = job_enqueued_workers_count j1
     /\ job_status (g j1)
        = if (job_id_ j1 =? jid)%Z then stopped_status (job_status j1)
          else job_status j1) ->
  Forall2 (stopped_row (D ++ [jid])) l (List.map g l1).
Proof.
  intros HF Hg. apply (Forall2_map_In (stopped_row D)); [exact HF|].
  intros j j1 Hin HR. pose proof (stopped_row_id _ _ _ HR) as Hid.
  destruct HR as (Hi & Hc & Hs). destruct (Hg j1 Hin) as (Hi' & Hc' & Hs').
  split; [congruence|]. split; [congruence|].
  rewrite Hs', Hid, Hs. unfold id_in. rewrite existsb_app. cbn [existsb].
  rewrite orb_false_r.
  destruct (job_id_ j =? jid)%Z.
  - rewrite orb_true_r. destruct (existsb _ D); [apply stopped_status_idem|reflexivity].
  - now rewrite orb_false_r.
Qed.

Lemma Job_stop_step w w1 D jid :
  List.NoDup (List.map job_id_ (jobs w)) ->
  In jid (List.map job_id_ (jobs w)) ->
  Forall2 (stopped_row D) (jobs w) (jobs w1) ->
  exists b w2,
    Job_stop jid w1 = Ret b w2
    /\ cache w2 = cache w1 /\ pipelines w2 = pipelines w1
    /\ start_conditions w2 = start_conditions w1
    /\ Forall2 (stopped_row (D ++ [jid])) (jobs w) (jobs w2).
Proof.
  intros Hnd Hin HF.
  pose proof (stopped_rows_ids _ _ _ HF) as Hids.
  assert (Hin1 : In jid (List.map job_id_ (jobs w1))) by now rewrite Hids.
  destruct (lookup_job_of_id jid w1 Hin1) as [self Hself].
  assert (Huniq : forall j1, In j1 (jobs w1) -> job_id_ j1 = jid -> j1 = self).
  { intros j1 Hj1 Hid. apply (NoDup_map_inj job_id_ (jobs w1));
      [now rewrite Hids|exact Hj1|now apply lookup_job_In in Hself|].
    rewrite Hid. symmetry. now apply lookup_job_id in Hself. }
  unfold Job_stop. rewrite (bind_Ret _ _ _ _ _ (Job_find_Some _ _ _ Hself)).
  destruct (String.eqb (job_status self) "waiting") eqn:Ew;
    [|destruct (String.eqb (job_status self) "running") eqn:Er].
  - rewrite bind_datetime_now. unfold update_job. rewrite bind_modify.
    eexists _, _. split; [reflexivity|]. repeat (split; [reflexivity|]).
    cbn [jobs set_jobs set_ticks]. apply stopped_rows_step; [exact HF|].
    intros j1 Hj1. destruct (Z.eqb_spec (job_id_ j1) jid) as [E|E];
      [|now repeat split].
    repeat split. rewrite (Huniq j1 Hj1 E). unfold stopped_status. now rewrite Ew.
  - rewrite bind_datetime_now. unfold update_job. rewrite bind_modify.
    eexists _, _. split; [reflexivity|]. repeat (split; [reflexivity|]).
    cbn [jobs set_jobs set_ticks]. apply stopped_rows_step; [exact HF|].
    intros j1 Hj1. destruct (Z.eqb_spec (job_id_ j1) jid) as [E|E];
      [|now repeat split].
    repeat split. rewrite (Huniq j1 Hj1 E). unfold stopped_status. now rewrite Ew, Er.
  - exists false, w1. split; [reflexivity|]. repeat (split; [reflexivity|]).
    rewrite <- (List.map_id (jobs w1)). apply stopped_rows_step; [exact HF|].
    intros j1 Hj1. repeat split.
    destruct (Z.eqb_spec (job_id_ j1) jid) as [E|E]; [|reflexivity].
    rewrite (Huniq j1 Hj1 E). unfold stopped_status. now rewrite Ew, Er.
Qed.

Lemma stop_loop w :
  List.NoDup (List.map job_id_ (jobs w)) ->
  forall js D w1,
    (forall j, In j js -> In (job_id_ j) (List.map job_id_ (jobs w))) ->
    Forall2 (stopped_row D) (jobs w) (jobs w1) ->
    exists w2,
      for_each js (fun job => Job_stop (job_id_ job) ;;; ret tt) w1 = Ret tt w2
      /\ cache w2 = cache w1 /\ pipelines w2 = pipelines w1
      /\ start_conditions w2 = start_conditions w1
      /\ Forall2 (stopped_row (D ++ List.map job_id_ js)) (jobs w) (jobs w2).
Proof.
  intros Hnd. induction js as [|x js IH]; intros D w1 Hjs HF.
  - exists w1. cbn. rewrite app_nil_r. now repeat split.
  - destruct (Job_stop_step w w1 D (job_id_ x) Hnd (Hjs x (or_introl eq_refl)) HF)
      as (b & w2 & Hr & Hc & Hp & Hs & HF2).
    destruct (IH (D ++ [job_id_ x]) w2 (fun j Hj => Hjs j (or_intror Hj)) HF2)
      as (w3 & Hr3 & Hc3 & Hp3 & Hs3 & HF3).
    exists w3. split.
    { cbn [for_each]. rewrite bind_assoc, (bind_Ret _ _ _ _ _ Hr), bind_ret_l.
      exact Hr3. }
    repeat (split; [congruence|]).
    cbn [List.map]. now rewrite <- app_assoc in HF3.
Qed.

(** *** The second loop and the aggregate *)

Lemma stop_scan pid w (js : list Job) :
  (forall j, In j js -> In j (jobs w)) ->
  for_return js
    (fun job =>
       st <- Job_get_status (job_id_ job) ;;
       if negb (status_in st ["succeeded"; "failed"]) then
         t <- datetime_now ;;
         update_pipeline pid (pipeline_with_status "stopping" (Some t)) ;;;
         ret (Some true)
       else ret None) w
  = if forallb (terminalb w) js then Ret None w
    else Ret (Some true)
           (set_pipelines
              (List.map (fun q => if (pipeline_id_ q =? pid)%Z
                                  then pipeline_with_status "stopping"
                                         (Some (clock w (ticks w))) q
                                  else q))
              (set_ticks S w)).
Proof.
  induction js as [|j js IH]; intros Hin; [reflexivity|].
  cbn [for_return forallb].
  destruct (effective_status_In w j (Hin j (or_introl eq_refl))) as [st Hst].
  rewrite bind_assoc, (bind_Ret _ _ _ _ _ (Job_get_status_eq _ _ _ Hst)).
  unfold terminalb at 1. rewrite Hst.
  destruct (status_in st _); cbn [negb andb].
  - rewrite bind_ret_l. apply IH. intros j' Hj'. apply Hin. now right.
  - rewrite bind_assoc, bind_datetime_now. unfold update_pipeline.
    rewrite bind_assoc, bind_modify, bind_ret_l. reflexivity.
Qed.

Lemma Pipeline__finish_eq (pid : Z) (w : World) (p : Pipeline) :
  lookup_pipeline pid w = Some p ->
  exists w',
    Pipeline__finish pid w = Ret tt w'
    /\ lookup_pipeline pid w'
       = Some (pipeline_with_status
                 (if existsb (failedb w) (Pipeline_sink_jobs pid w)
                  then "failed" else "succeeded")
                 (Some (clock w (ticks w))) p)
    /\ cache w' = cache w /\ jobs w' = jobs w
    /\ start_conditions w' = start_conditions w.
Proof.
  intros Hp.
  set (status := if existsb (failedb w) (Pipeline_sink_jobs pid w)
                 then "failed" else "succeeded").
  set (p' := pipeline_with_status status (Some (clock w (ticks w))) p).
  set (w1 := set_pipelines
               (List.map (fun q => if (pipeline_id_ q =? pid)%Z
                                   then pipeline_with_status status
                                          (Some (clock w (ticks w))) q
                                   else q))
               (set_ticks S w)).
  assert (Hlk : lookup_pipeline pid w1 = Some p').
  { unfold lookup_pipeline, w1. cbn [pipelines set_pipelines set_ticks].
    apply (find_map_update pid
             (pipeline_with_status status (Some (clock w (ticks w))))); [reflexivity|].
    exact Hp. }
  exists (set_mails (fun l => l ++ [p']) w1).
  split; [|split; [exact Hlk|now repeat split]].
  unfold Pipeline__finish. rewrite bind_gets.
  rewrite (bind_Ret _ _ _ _ _
             (finish_scan w _ (fun j => Pipeline_sink_jobs_In pid w j))).
  replace (default "succeeded"
             (if existsb (failedb w) (Pipeline_sink_jobs pid w)
              then Some "failed" else None)) with status
    by (subst status; now destruct (existsb _ _)).
  rewrite bind_datetime_now. unfold update_pipeline. rewrite bind_modify.
  unfold NotificationMailer_finished_pipeline. fold w1.
  rewrite (bind_Ret _ _ _ _ _ (Pipeline_find_Some _ _ _ Hlk)).
  reflexivity.
Qed.

(** What a job of the pipeline reports once the jobs of the pipeline are
    stopped. *)
Lemma effective_status_stopped w w1 D j j1 :
  List.NoDup (List.map job_id_ (jobs w)) ->
  cache w1 = cache w ->
  Forall2 (stopped_row D) (jobs w) (jobs w1) ->
  In j1 (jobs w1) -> stopped_row D j j1 -> id_in D (job_id_ j) = true ->
  effective_status w1 (job_id_ j1) = Some (status_after_stop w j).
Proof.
  intros Hnd Hc HF Hin HR HD.
  assert (Hnd1 : List.NoDup (List.map job_id_ (jobs w1)))
    by now rewrite (stopped_rows_ids _ _ _ HF).
  unfold effective_status. rewrite (lookup_job_unique w1 j1 Hnd1 Hin).
  unfold status_after_stop.
  rewrite Hc, (stopped_row_key _ _ _ HR).
  destruct HR as (_ & _ & Hs). now rewrite Hs, HD.
Qed.

Lemma all_settled_forallb w pid :
  forallb (fun j => status_in (status_after_stop w j) ["succeeded"; "failed"])
    (Pipeline_jobs pid w) = true
  <-> all_settled w pid.
Proof. unfold all_settled. now rewrite forallb_forall. Qed.

Lemma sink_failed_after_stop_existsb w pid :
  existsb (fun j => status_is (status_after_stop w j) "failed")
    (Pipeline_sink_jobs pid w) = true
  <-> sink_failed_after_stop w pid.
Proof.
  unfold sink_failed_after_stop. rewrite existsb_exists.
  split; intros (j & Hj & H); exists j.
  - split; [now apply Pipeline_sink_jobs_spec|now apply status_is_true].
  - split; [now apply Pipeline_sink_jobs_spec|now apply status_is_true].
Qed.

Lemma Pipeline_jobs_ids pid w j :
  In j (Pipeline_jobs pid w) ->
  id_in (List.map job_id_ (Pipeline_jobs pid w)) (job_id_ j) = true.
Proof. intros H. apply existsb_id_in. now apply in_map. Qed.

(** X19: [Pipeline.stop] on a running pipeline whose job rows have distinct ids
    answers [True] and does not raise.  It stops every job of the pipeline:
    in the rows, a waiting job becomes failed and a running one stopping,
    and nothing else changes but the time stamps; the cache is left as it
    is.  The pipeline is then left [stopping] exactly when some job of the
    pipeline reports a status other than [succeeded] and [failed];
    otherwise it is left [failed] when some sink job reports [failed], and
    [succeeded] when none does. *)
Theorem Pipeline_stop_of_running (pid : Z) (w : World) (p : Pipeline) :
  lookup_pipeline pid w = Some p -> pipeline_status p = "running" ->
  List.NoDup (List.map job_id_ (jobs w)) ->
  exists w' p',
    Pipeline_stop pid w = Ret true w'
    /\ lookup_pipeline pid w' = Some p'
    /\ (pipeline_status p' = "stopping" <-> ~ all_settled w pid)
    /\ (pipeline_status p' = "failed"
        <-> all_settled w pid /\ sink_failed_after_stop w pid)
    /\ (pipeline_status p' = "succeeded"
        <-> all_settled w pid /\ ~ sink_failed_after_stop w pid)
    /\ Forall2 (stopped_row (List.map job_id_ (Pipeline_jobs pid w))) (jobs w) (jobs w')
    /\ cache w' = cache w /\ start_conditions w' = start_conditions w.
Proof.
  intros Hp Hrun Hnd.
  destruct (stop_loop w Hnd (Pipeline_jobs pid w) [] w)
    as (w1 & Hloop & Hc1 & Hp1 & Hs1 & HF1).
  { intros j Hj. apply in_map. now apply Pipeline_jobs_In in Hj. }
  { apply Forall2_same. intros a. now repeat split. }
  cbn [app] in HF1. set (D := List.map job_id_ (Pipeline_jobs pid w)) in *.
  assert (HFp : Forall2 (stopped_row D) (Pipeline_jobs pid w) (Pipeline_jobs pid w1)).
  { unfold Pipeline_jobs. apply Forall2_filter_both; [exact HF1|].
    intros j j1 HR. now rewrite (stopped_row_pipeline _ _ _ HR). }
  assert (Hst : forall j j1,
            In j (Pipeline_jobs pid w) -> In j1 (Pipeline_jobs pid w1) ->
            stopped_row D j j1 ->
            effective_status w1 (job_id_ j1) = Some (status_after_stop w j)).
  { intros j j1 Hj Hj1 HR.
    apply (effective_status_stopped w w1 D); [exact Hnd|exact Hc1|exact HF1| |exact HR|].
    - now apply Pipeline_jobs_In in Hj1.
    - now apply Pipeline_jobs_ids. }
  assert (Hterm : forallb (terminalb w1) (Pipeline_jobs pid w1)
                  = forallb (fun j => status_in (status_after_stop w j)
                                        ["succeeded"; "failed"])
                      (Pipeline_jobs pid w)).
  { symmetry. apply (Forall2_forallb (stopped_row D)); [exact HFp|].
    intros j j1 Hj Hj1 HR. unfold terminalb. now rewrite (Hst j j1 Hj Hj1 HR). }
  assert (Hlk1 : lookup_pipeline pid w1 = Some p)
    by (unfold lookup_pipeline; now rewrite Hp1).
  pose proof (stop_scan pid w1 (Pipeline_jobs pid w1)
                (fun j => Pipeline_jobs_In pid w1 j)) as Hscan.
  unfold Pipeline_stop.
  rewrite (bind_Ret _ _ _ _ _ (Pipeline_find_Some _ _ _ Hp)).
  rewrite Hrun. cbn [String.eqb Ascii.eqb Bool.eqb negb].
  rewrite bind_gets, (bind_Ret _ _ _ _ _ Hloop), bind_gets.
  destruct (forallb (terminalb w1) (Pipeline_jobs pid w1)) eqn:Et.
  - assert (Hall : all_settled w pid) by (apply all_settled_forallb; congruence).
    rewrite (bind_Ret _ _ _ _ _ Hscan).
    destruct (Pipeline__finish_eq pid w1 p Hlk1) as (w2 & Hfin & Hlk2 & Hc2 & Hj2 & Hs2).
    rewrite (bind_Ret _ _ _ _ _ Hfin).
    assert (Hsink : existsb (failedb w1) (Pipeline_sink_jobs pid w1)
                    = existsb (fun j => status_is (status_after_stop w j) "failed")
                        (Pipeline_sink_jobs pid w)).
    { symmetry. apply (Forall2_existsb (stopped_row D)).
      - unfold Pipeline_sink_jobs. apply Forall2_filter_both; [exact HFp|].
        intros j j1 HR. now rewrite Hs1, (stopped_row_id _ _ _ HR).
      - intros j j1 Hj Hj1 HR. unfold failedb.
        unfold Pipeline_sink_jobs in Hj, Hj1.
        apply filter_In in Hj as [Hj _]. apply filter_In in Hj1 as [Hj1 _].
        now rewrite (Hst j j1 Hj Hj1 HR). }
    rewrite Hsink in Hlk2.
    eexists w2, _. split; [reflexivity|]. split; [exact Hlk2|].
    cbn [pipeline_status pipeline_with_status].
    pose proof (sink_failed_after_stop_existsb w pid) as Hsf.
    destruct (existsb _ (Pipeline_sink_jobs pid w)).
    + assert (Hf : sink_failed_after_stop w pid) by now apply Hsf.
      split; [split; [discriminate|intros H; now elim H]|].
      split; [split; [now intros _|reflexivity]|].
      split; [split; [discriminate|intros [_ H]; now elim H]|].
      split; [now rewrite Hj2|]. split; congruence.
    + assert (Hf : ~ sink_failed_after_stop w pid)
        by (intros H; apply Hsf in H; discriminate).
      split; [split; [discriminate|intros H; now elim H]|].
      split; [split; [discriminate|intros [_ H]; now elim Hf]|].
      split; [split; [now intros _|reflexivity]|].
      split; [now rewrite Hj2|]. split; congruence.
  - assert (Hall : ~ all_settled w pid).
    { intros H. apply all_settled_forallb in H. congruence. }
    rewrite (bind_Ret _ _ _ _ _ Hscan).
    eexists _, (pipeline_with_status "stopping" (Some (clock w1 (ticks w1))) p).
    split; [reflexivity|]. split.
    { unfold lookup_pipeline. cbn [pipelines set_pipelines set_ticks].
      apply (find_map_update pid
               (pipeline_with_status "stopping" (Some (clock w1 (ticks w1)))));
        [reflexivity|exact Hlk1]. }
    cbn [pipeline_status pipeline_with_status].
    split; [split; [now intros _|reflexivity]|].
    split; [split; [discriminate|intros [H _]; now elim Hall]|].
    split; [split; [discriminate|intros [H _]; now elim Hall]|].
    split; [exact HF1|]. split; [exact Hc1|exact Hs1].
Qed.

Lemma Pipeline_stop_of_running_witness :
  exists w' p',
    Pipeline_stop 1 world_stopping = Ret true w'
    /\ lookup_pipeline 1 w' = Some p'
    /\ (pipeline_status p' = "stopping" <-> ~ all_settled world_stopping 1)
    /\ (pipeline_status p' = "failed"
        <-> all_settled world_stopping 1 /\ sink_failed_after_stop world_stopping 1)
    /\ (pipeline_status p' = "succeeded"
        <-> all_settled world_stopping 1 /\ ~ sink_failed_after_stop world_stopping 1)
    /\ Forall2 (stopped_row (List.map job_id_ (Pipeline_jobs 1 world_stopping)))
         (jobs world_stopping) (jobs w')
    /\ cache w' = cache world_stopping
    /\ start_conditions w' = start_conditions world_stopping.
Proof.
  apply (Pipeline_stop_of_running 1 world_stopping
           (pipeline_with_status "running" None demo_pipeline));
    [reflexivity|reflexivity|].
  repeat constructor; cbn; intuition lia.
Defined.

(** In [world_stopping] the waiting job is marked failed by the stop, so
    that every job is settled and the pipeline is finished at once: the
    sink jobs [b] and [c] have failed. *)
Lemma Pipeline_stop_of_waiting_job :
  match Pipeline_stop 1 world_stopping with
  | Ret b w' =>
      b = true
      /\ option_map pipeline_status (lookup_pipeline 1 w') = Some "failed"
      /\ List.map job_status (jobs w') = ["succeeded"; "failed"; "idle"]
  | _ => False
  end.
Proof. vm_compute. repeat split; reflexivity. Qed.

(** ** [Job.run] *)

Lemma reads_map_m T {A B} (xs : list A) (f : A -> M B) :
  (forall x, reads T (f x)) -> reads T (map_m xs f).
Proof.
  intros Hf. induction xs as [|x xs IH]; [apply reads_ret|].
  cbn [map_m]. apply reads_bind; [apply Hf|]. intros y.
  apply reads_bind; [exact IH|]. intros ys. apply reads_ret.
Qed.

(** What [Job.enqueue] does for a running job. *)
Lemma Job_enqueue_running (jid : Z) (w : World) (self : Job) (pid : Z)
    (pipeline : Pipeline) (worker_class : option string)
    (worker_params : list (string * pval)) (delay : Z) :
  lookup_job jid w = Some self ->
  effective_status w jid = Some (CStr "running") ->
  job_pipeline_id self = Some pid -> lookup_pipeline pid w = Some pipeline ->
  holds_list (cache w !! job_list_key self) ->
  holds_int (cache w !! job_enqueued_key self) ->
  exists task w',
    Job_enqueue jid worker_class worker_params delay w = Ret (Some task) w'
    /\ task_name_ task = next_task_name self pipeline w
    /\ cache w' !! job_status_key self = cache w !! job_status_key self
    /\ cache w' !! job_enqueued_key self
       = Some (CInt (int_of (cache w !! job_enqueued_key self) + 1))
    /\ taskqueue w' = taskqueue w ++ [task]
    /\ lookup_job jid w'
       = Some (job_with_count (job_enqueued_workers_count self + 1) self).
Proof.
  intros Hjob Hst Hpid Hp Hl Hc.
  pose proof (lookup_job_id _ _ _ Hjob) as Hid.
  eexists. eexists. split.
  - unfold Job_enqueue.
    rewrite (bind_Ret _ _ _ _ _ (Job_get_status_eq _ _ _ Hst)).
    change (negb (status_is (CStr "running") "running")) with false. cbv iota.
    rewrite (bind_Ret _ _ _ _ _ (Job_find_Some _ _ _ Hjob)).
    rewrite (bind_Ret _ _ _ _ _ (Job_pipeline_Some _ _ _ _ Hpid Hp)).
    rewrite bind_uuid4.
    unfold Job__add_task_name_cache. fold (job_list_key self).
    erewrite (bind_Ret (memcache_set_cache_with_value_function _ _))
      by (apply cache_update_inr; world_simpl; apply (add_task_handler_list _ _ Hl)).
    unfold taskqueue_add. rewrite bind_assoc, bind_modify, bind_ret_l.
    unfold update_job. rewrite bind_modify.
    unfold Job__increase_value_cache. fold (job_enqueued_key self).
    erewrite (bind_Ret (memcache_set_cache_with_value_function _ _))
      by (apply cache_update_inr; world_simpl;
          rewrite lookup_insert_ne by (unfold job_list_key; key_neq);
          apply (increase_handler_int _ Hc)).
    unfold ret. reflexivity.
  - world_simpl. split; [reflexivity|]. split; [|split; [|split]].
    + rewrite !lookup_insert_ne by (unfold job_list_key; key_neq). reflexivity.
    + now rewrite lookup_insert_eq.
    + reflexivity.
    + unfold lookup_job. world_simpl.
      apply (find_map_update_job jid
               (fun j => job_with_count (job_enqueued_workers_count j + 1) j));
        [reflexivity|exact Hjob].
Qed.

(** X22: [Job.run] sets the cached status to [running] before it evaluates the
    params of the job.  When it returns, one task has been added to the
    queue, the row counts one enqueued worker, whatever it counted before,
    and the cached [enqueued_tasks] counter is one more than it was: [run]
    resets the row but not the cache.  When the evaluation of a param
    raises, the exception leaves [run] with the job marked [running] and no
    task in the queue. *)
Theorem Job_run_marks_running_before_params
    (fuel : nat) (jid pid : Z) (w : World) (self : Job) (pipeline : Pipeline) :
  lookup_job jid w = Some self ->
  job_pipeline_id self = Some pid -> lookup_pipeline pid w = Some pipeline ->
  holds_list (cache w !! job_list_key self) ->
  holds_int (cache w !! job_enqueued_key self) ->
  match Job_run fuel jid w with
  | Ret _ w' =>
      effective_status w' jid = Some (CStr "running")
      /\ lookup_job jid w' = Some (job_with_count 1 self)
      /\ cache w' !! job_enqueued_key self
         = Some (CInt (int_of (cache w !! job_enqueued_key self) + 1))
      /\ length (taskqueue w') = S (length (taskqueue w))
  | Raise _ w' =>
      effective_status w' jid = Some (CStr "running")
      /\ lookup_job jid w' = Some (job_with_count 0 self)
      /\ taskqueue w' = taskqueue w
  | Timeout => True
  end.
Proof.
  intros Hjob Hpid Hp Hl Hc.
  set (self0 := job_with_count 0 self).
  set (w1 := set_jobs
               (List.map (fun j => if (job_id_ j =? jid)%Z then job_with_count 0 j else j))
               w).
  set (w2 := set_cache_map (insert (job_status_key self0) (CStr "running")) w1).
  assert (Hjob1 : lookup_job jid w1 = Some self0).
  { unfold lookup_job, w1. world_simpl.
    apply (find_map_update_job jid (job_with_count 0)); [reflexivity|exact Hjob]. }
  assert (Hjob2 : lookup_job jid w2 = Some self0) by exact Hjob1.
  assert (Hst2 : effective_status w2 jid = Some (CStr "running")).
  { unfold effective_status. rewrite Hjob2. unfold w2. world_simpl.
    now rewrite lookup_insert_eq. }
  assert (Hl2 : holds_list (cache w2 !! job_list_key self0)).
  { unfold w2, w1. world_simpl.
    rewrite lookup_insert_ne by (unfold job_list_key; key_neq). exact Hl. }
  assert (Hc2 : holds_int (cache w2 !! job_enqueued_key self0)).
  { unfold w2, w1. world_simpl. rewrite lookup_insert_ne by key_neq. exact Hc. }
  assert (Hcv : cache w2 !! job_enqueued_key self0 = cache w !! job_enqueued_key self).
  { unfold w2, w1. world_simpl. now rewrite lookup_insert_ne by key_neq. }
  unfold Job_run, update_job. rewrite bind_modify. fold w1.
  rewrite (bind_Ret _ _ _ _ _ (Job_find_Some _ _ _ Hjob1)).
  unfold memcache_set_cache. rewrite bind_modify. fold w2. rewrite bind_gets.
  assert (Hreads : reads True
            (map_m (Job_params jid w2)
               (fun p => v <- Param_val fuel p ;; ret (param_name p, v)))).
  { apply reads_map_m. intros p. apply reads_bind; [apply reads_Param_val|].
    intros v. apply reads_ret. }
  specialize (Hreads w2). unfold wp in Hreads. unfold bind at 1.
  destruct (map_m _ _ w2) as [wps w3|e w3|]; [subst w3|subst w3|exact I].
  - destruct (Job_enqueue_running jid w2 self0 pid pipeline
                (job_worker_class self0) wps 0 Hjob2 Hst2 Hpid Hp Hl2 Hc2)
      as (task & w' & Hrun & _ & Hs' & He' & Hq' & Hj').
    rewrite (bind_Ret _ _ _ _ _ Hrun). cbn [ret].
    split; [|split; [exact Hj'|split]].
    + unfold effective_status. rewrite Hj'.
      change (job_status_key (job_with_count _ self0)) with (job_status_key self0).
      rewrite Hs'. unfold w2. world_simpl. now rewrite lookup_insert_eq.
    + change (job_enqueued_key self) with (job_enqueued_key self0).
      rewrite He'. now rewrite Hcv.
    + rewrite Hq'. rewrite length_app. cbn [length]. unfold w2, w1. world_simpl. lia.
  - split; [exact Hst2|]. split; [exact Hjob2|reflexivity].
Qed.

Lemma Job_run_marks_running_before_params_witness :
  match Job_run 3 1 world_rerun_bad_param with
  | Ret _ w' =>
      effective_status w' 1 = Some (CStr "running")
      /\ lookup_job 1 w' = Some (job_with_count 1 (demo_job 1 "a"))
      /\ cache w' !! job_enqueued_key (demo_job 1 "a")
         = Some (CInt (int_of (cache world_rerun_bad_param
                                 !! job_enqueued_key (demo_job 1 "a")) + 1))
      /\ length (taskqueue w') = S (length (taskqueue world_rerun_bad_param))
  | Raise _ w' =>
      effective_status w' 1 = Some (CStr "running")
      /\ lookup_job 1 w' = Some (job_with_count 0 (demo_job 1 "a"))
      /\ taskqueue w' = taskqueue world_rerun_bad_param
  | Timeout => True
  end.
Proof.
  apply (Job_run_marks_running_before_params 3 1 1 world_rerun_bad_param
           (demo_job 1 "a") demo_pipeline);
    [reflexivity|reflexivity|reflexivity|exact I|exact I].
Defined.

(** The two outcomes on the example worlds: a rerun counts three tasks in
    the cache for one task enqueued, and a bad param leaves the job
    [running] without a task. *)
Lemma Job_run_examples :
  match Job_run 3 1 world_rerun, Job_run 3 1 world_rerun_bad_param with
  | Ret _ w', Raise e w'' =>
      cache w' !! "1_1_enqueued_tasks" = Some (CInt 3)
      /\ length (taskqueue w') = 1%nat
      /\ e = InvalidExpression
      /\ effective_status w'' 1 = Some (CStr "running")
      /\ taskqueue w'' = []
  | _, _ => False
  end.
Proof. vm_compute. repeat split; reflexivity. Qed.

(** ** [Job.assign_start_conditions] *)

Lemma parse_values_Ret int_text args ids w :
  List.map (fun a => int_of_scalar int_text (arg_preceding_job_id a)) args
  = List.map Some ids ->
  map_m args (StartCondition_parse_value int_text) w
  = Ret (combine ids (List.map arg_condition args)) w.
Proof.
  revert ids. induction args as [|a args IH]; intros [|i ids] H; try discriminate;
    [reflexivity|].
  cbn in H. injection H as Ha Hr.
  cbn [map_m]. unfold StartCondition_parse_value at 1. rewrite Ha. mnorm.
  now rewrite (bind_Ret _ _ _ _ _ (IH _ Hr)).
Qed.


Lemma combine_fst {A B} (l : list A) (l' : list B) :
  length l = length l' -> List.map fst (combine l l') = l.
Proof.
  revert l'. induction l as [|a l IH]; intros [|b l'] H; try discriminate; [reflexivity|].
  cbn. f_equal. apply IH. now injection H.
Qed.

Lemma only_start_conditions_differ_set f w :
  only_start_conditions_differ w (set_start_conditions f w).
Proof. reflexivity. Qed.

Lemma only_start_conditions_differ_refl w : only_start_conditions_differ w w.
Proof. now destruct w. Qed.

Lemma only_start_conditions_differ_trans w w1 w2 :
  only_start_conditions_differ w w1 -> only_start_conditions_differ w1 w2 ->
  only_start_conditions_differ w w2.
Proof.
  unfold only_start_conditions_differ. intros H1 H2. rewrite H2 at 1. now rewrite H1 at 1.
Qed.

(** *** The rows of a table of start conditions *)

Lemma first_of_preceding jid x w :
  In x (preceding_ids jid w) ->
  exists sc, StartCondition_first jid x w = Some sc
             /\ In sc (start_conditions w)
             /\ sc_job_id sc = jid /\ sc_preceding_job_id sc = x.
Proof.
  unfold preceding_ids, Job_start_conditions, StartCondition_first. intros H.
  apply in_map_iff in H as (r & Hr & Hin). apply filter_In in Hin as [Hin Hj].
  destruct (find _ (start_conditions w)) as [sc|] eqn:Hf.
  - exists sc. split; [reflexivity|]. apply find_some in Hf as [Hs Hb].
    apply andb_true_iff in Hb as [H1 H2]. split; [exact Hs|]. split; lia.
  - exfalso. pose proof (find_none _ _ Hf r Hin) as Hn. cbv beta in Hn.
    rewrite Hj in Hn. cbn in Hn. lia.
Qed.

Lemma save_row_id sc c r : sc_id (save_row sc c r) = sc_id r.
Proof. unfold save_row. now destruct (sc_id r =? sc_id sc). Qed.

Lemma save_row_job sc c r : sc_job_id (save_row sc c r) = sc_job_id r.
Proof. unfold save_row. now destruct (sc_id r =? sc_id sc). Qed.

Lemma save_row_preceding sc c r :
  sc_preceding_job_id (save_row sc c r) = sc_preceding_job_id r.
Proof. unfold save_row. now destruct (sc_id r =? sc_id sc). Qed.

Lemma filter_map_commute {A} (f : A -> bool) (g : A -> A) (l : list A) :
  (forall x, f (g x) = f x) ->
  List.filter f (List.map g l) = List.map g (List.filter f l).
Proof.
  intros H. induction l as [|a l IH]; [reflexivity|].
  cbn. rewrite H. destruct (f a); cbn; now rewrite IH.
Qed.

Lemma map_filter_by {A B} (f : A -> B) (p : B -> bool) (l : list A) :
  List.map f (List.filter (fun x => p (f x)) l) = List.filter p (List.map f l).
Proof.
  induction l as [|a l IH]; [reflexivity|].
  cbn. destruct (p (f a)); cbn; now rewrite IH.
Qed.

Lemma preceding_ids_create next_id jid i c w :
  preceding_ids jid
    (set_start_conditions
       (fun scs => scs ++ [mkStartCondition (next_id scs) jid i c]) w)
  = preceding_ids jid w ++ [i].
Proof.
  unfold preceding_ids, Job_start_conditions. cbn [start_conditions set_start_conditions].
  rewrite List.filter_app, List.map_app. cbn. now rewrite Z.eqb_refl.
Qed.

Lemma Job_conditions_create next_id jid i c w :
  Job_conditions jid
    (set_start_conditions
       (fun scs => scs ++ [mkStartCondition (next_id scs) jid i c]) w)
  = Job_conditions jid w ++ [(i, c)].
Proof.
  unfold Job_conditions, Job_start_conditions. cbn [start_conditions set_start_conditions].
  rewrite List.filter_app, List.map_app. cbn. now rewrite Z.eqb_refl.
Qed.

Lemma other_rows_create next_id jid i c w :
  other_rows jid
    (set_start_conditions
       (fun scs => scs ++ [mkStartCondition (next_id scs) jid i c]) w)
  = other_rows jid w.
Proof.
  unfold other_rows. cbn [start_conditions set_start_conditions].
  rewrite List.filter_app. cbn. rewrite Z.eqb_refl. cbn. apply app_nil_r.
Qed.

Lemma preceding_ids_save jid sc c w :
  preceding_ids jid (set_start_conditions (List.map (save_row sc c)) w)
  = preceding_ids jid w.
Proof.
  unfold preceding_ids, Job_start_conditions. cbn [start_conditions set_start_conditions].
  rewrite filter_map_commute by (intros r; now rewrite save_row_job).
  rewrite List.map_map. apply List.map_ext. intros r. apply save_row_preceding.
Qed.

Lemma other_edges_save jid sc c w :
  other_edges jid (set_start_conditions (List.map (save_row sc c)) w)
  = other_edges jid w.
Proof.
  unfold other_edges, other_rows. cbn [start_conditions set_start_conditions].
  rewrite filter_map_commute by (intros r; now rewrite save_row_job).
  rewrite List.map_map. apply List.map_ext. intros r.
  now rewrite save_row_job, save_row_preceding.
Qed.

(** The three ways of one turn of the loop. *)
Lemma assign_step_cases next_id jid news inter v w :
  (id_in news (fst v) = false -> id_in inter (fst v) = true ->
   In (fst v) (preceding_ids jid w)) ->
  (id_in news (fst v) = true
   /\ assign_step next_id jid news inter v w
      = Ret tt (set_start_conditions
                  (fun scs => scs ++ [mkStartCondition (next_id scs) jid (fst v) (snd v)])
                  w))
  \/ (id_in news (fst v) = false /\ id_in inter (fst v) = true
      /\ exists sc, In sc (start_conditions w) /\ sc_job_id sc = jid
                    /\ sc_preceding_job_id sc = fst v
                    /\ assign_step next_id jid news inter v w
                       = Ret tt (set_start_conditions (List.map (save_row sc (snd v))) w))
  \/ (id_in news (fst v) = false /\ id_in inter (fst v) = false
      /\ assign_step next_id jid news inter v w = Ret tt w).
Proof.
  intros Hcur. unfold assign_step.
  destruct (id_in news (fst v)) eqn:Hn; [left; now split|].
  destruct (id_in inter (fst v)) eqn:Hi; [|right; right; now repeat split].
  right; left. split; [reflexivity|]. split; [reflexivity|].
  destruct (first_of_preceding jid (fst v) w (Hcur eq_refl eq_refl))
    as (sc & Hf & Hin & Hj & Hp).
  exists sc. repeat (split; [assumption|]).
  rewrite bind_gets. now rewrite Hf.
Qed.

Lemma assign_loop_ids next_id jid news inter vs w :
  (forall x, In x inter -> In x (preceding_ids jid w)) ->
  exists w',
    for_each vs (assign_step next_id jid news inter) w = Ret tt w'
    /\ only_start_conditions_differ w w'
    /\ other_edges jid w' = other_edges jid w
    /\ forall x, In x (preceding_ids jid w')
                 <-> In x (preceding_ids jid w) \/ (In x (List.map fst vs) /\ In x news).
Proof.
  revert w. induction vs as [|v vs IH]; intros w Hcur.
  - exists w. split; [reflexivity|]. split; [apply only_start_conditions_differ_refl|].
    split; [reflexivity|]. cbn. tauto.
  - cbn [for_each].
    assert (Hstep : exists w1,
      assign_step next_id jid news inter v w = Ret tt w1
      /\ only_start_conditions_differ w w1
      /\ other_edges jid w1 = other_edges jid w
      /\ forall x, In x (preceding_ids jid w1)
                   <-> In x (preceding_ids jid w) \/ (x = fst v /\ In x news)).
    { destruct (assign_step_cases next_id jid news inter v w)
        as [[Hn Hr]|[(Hn & Hi & sc & _ & _ & _ & Hr)|(Hn & Hi & Hr)]].
      - intros _ Hi. apply Hcur. now apply existsb_id_in.
      - eexists. split; [exact Hr|]. split; [apply only_start_conditions_differ_set|].
        split; [unfold other_edges; now rewrite other_rows_create|].
        intros x. rewrite preceding_ids_create, in_app_iff. cbn.
        apply existsb_id_in in Hn. split; [intros [H|[<-|[]]]; auto|].
        intros [H|[-> _]]; auto.
      - eexists. split; [exact Hr|]. split; [apply only_start_conditions_differ_set|].
        split; [apply other_edges_save|].
        intros x. rewrite preceding_ids_save. split; [auto|].
        intros [H|[-> H]]; [exact H|]. apply existsb_id_in in H. congruence.
      - exists w. split; [exact Hr|]. split; [apply only_start_conditions_differ_refl|].
        split; [reflexivity|]. intros x. split; [auto|].
        intros [H|[-> H]]; [exact H|]. apply existsb_id_in in H. congruence. }
    destruct Hstep as (w1 & Hr & Hd & Ho & Hp).
    destruct (IH w1) as (w' & Hr' & Hd' & Ho' & Hp').
    { intros x Hx. apply Hp. left. now apply Hcur. }
    exists w'. split; [now rewrite (bind_Ret _ _ _ _ _ Hr)|].
    split; [eapply only_start_conditions_differ_trans; eassumption|].
    split; [congruence|].
    intros x. rewrite Hp', Hp. cbn. intuition (subst; auto).
Qed.

Lemma keep_of_job jid del sc :
  negb ((sc_job_id sc =? jid)%Z && id_in del (sc_preceding_job_id sc))
  && (sc_job_id sc =? jid)%Z
  = (sc_job_id sc =? jid)%Z && negb (id_in del (sc_preceding_job_id sc)).
Proof. now destruct (sc_job_id sc =? jid)%Z, (id_in del (sc_preceding_job_id sc)). Qed.

Lemma preceding_ids_delete jid del w :
  preceding_ids jid
    (set_start_conditions
       (List.filter (fun sc => negb ((sc_job_id sc =? jid)%Z
                                     && id_in del (sc_preceding_job_id sc)))) w)
  = List.filter (fun x => negb (id_in del x)) (preceding_ids jid w).
Proof.
  unfold preceding_ids, Job_start_conditions. cbn [start_conditions set_start_conditions].
  rewrite filter_twice.
  rewrite <- (map_filter_by sc_preceding_job_id (fun x => negb (id_in del x))).
  rewrite filter_twice. f_equal. apply List.filter_ext. intros sc. apply keep_of_job.
Qed.

Lemma Job_conditions_delete jid del w :
  Job_conditions jid
    (set_start_conditions
       (List.filter (fun sc => negb ((sc_job_id sc =? jid)%Z
                                     && id_in del (sc_preceding_job_id sc)))) w)
  = List.filter (fun p => negb (id_in del (fst p))) (Job_conditions jid w).
Proof.
  unfold Job_conditions, Job_start_conditions. cbn [start_conditions set_start_conditions].
  rewrite filter_twice.
  rewrite <- (map_filter_by (fun sc => (sc_preceding_job_id sc, sc_condition sc))
                (fun p => negb (id_in del (fst p)))).
  rewrite filter_twice. f_equal. apply List.filter_ext. intros sc. apply keep_of_job.
Qed.

Lemma other_rows_delete jid del w :
  other_rows jid
    (set_start_conditions
       (List.filter (fun sc => negb ((sc_job_id sc =? jid)%Z
                                     && id_in del (sc_preceding_job_id sc)))) w)
  = other_rows jid w.
Proof.
  unfold other_rows. cbn [start_conditions set_start_conditions].
  rewrite filter_twice. apply List.filter_ext. intros sc.
  now destruct (sc_job_id sc =? jid)%Z, (id_in del (sc_preceding_job_id sc)).
Qed.

Lemma parsed_length int_text args ids :
  List.map (fun a => int_of_scalar int_text (arg_preceding_job_id a)) args
  = List.map Some ids ->
  length ids = length (List.map arg_condition args).
Proof.
  intros H. apply (f_equal (@length _)) in H. rewrite !length_map in H.
  now rewrite length_map.
Qed.

(** The run of [Job.assign_start_conditions] once the values are parsed. *)
Lemma Job_assign_start_conditions_run int_text next_id jid args ids w w' :
  List.map (fun a => int_of_scalar int_text (arg_preceding_job_id a)) args
  = List.map Some ids ->
  for_each (combine ids (List.map arg_condition args))
    (assign_step next_id jid
       (List.filter (fun i => negb (id_in (preceding_ids jid w) i)) ids)
       (List.filter (id_in (preceding_ids jid w)) ids)) w = Ret tt w' ->
  Job_assign_start_conditions int_text next_id jid args w
  = Ret tt
      (set_start_conditions
         (List.filter
            (fun sc => negb ((sc_job_id sc =? jid)%Z
                             && id_in (List.filter (fun i => negb (id_in ids i))
                                         (preceding_ids jid w))
                                  (sc_preceding_job_id sc)))) w').
Proof.
  intros Hp Hloop. unfold Job_assign_start_conditions.
  rewrite (bind_Ret _ _ _ _ _ (parse_values_Ret _ _ _ _ Hp)). cbv beta zeta.
  rewrite bind_gets. cbv beta.
  rewrite (combine_fst _ _ (parsed_length _ _ _ Hp)).
  fold (preceding_ids jid w).
  now rewrite (bind_Ret _ _ _ _ _ Hloop).
Qed.

(** X23: Whatever the table holds, the job is left with start conditions on the
    jobs that the values name and on no other, the edges of the other jobs
    are as they were, and no other table is written. *)
Theorem assign_start_conditions_names_the_given_jobs
    int_text next_id jid args ids w :
  List.map (fun a => int_of_scalar int_text (arg_preceding_job_id a)) args
  = List.map Some ids ->
  exists w',
    Job_assign_start_conditions int_text next_id jid args w = Ret tt w'
    /\ only_start_conditions_differ w w'
    /\ other_edges jid w' = other_edges jid w
    /\ forall x, In x (preceding_ids jid w') <-> In x ids.
Proof.
  intros Hp.
  destruct (assign_loop_ids next_id jid
              (List.filter (fun i => negb (id_in (preceding_ids jid w) i)) ids)
              (List.filter (id_in (preceding_ids jid w)) ids)
              (combine ids (List.map arg_condition args)) w)
    as (w1 & Hr & Hd & Ho & Hin).
  { intros x Hx. apply filter_In in Hx as [_ Hx]. now apply existsb_id_in. }
  eexists. split; [apply (Job_assign_start_conditions_run _ _ _ _ _ _ _ Hp Hr)|].
  split.
  { eapply only_start_conditions_differ_trans;
      [exact Hd|apply only_start_conditions_differ_set]. }
  split.
  { unfold other_edges. rewrite other_rows_delete. exact Ho. }
  intros x. rewrite preceding_ids_delete, filter_In, Hin.
  rewrite (combine_fst _ _ (parsed_length _ _ _ Hp)).
  repeat (rewrite ?filter_In, ?negb_true_iff, <- ?not_true_iff_false, ?existsb_id_in).
  destruct (in_dec Z.eq_dec x ids) as [Hx|Hx]; [|tauto].
  destruct (in_dec Z.eq_dec x (preceding_ids jid w)); tauto.
Qed.

Lemma assign_start_conditions_names_the_given_jobs_witness :
  exists w',
    Job_assign_start_conditions py_int next_after_max 3
      [mkStartConditionArg (JText "2") "success"; mkStartConditionArg (JInt 4) "fail"]
      world_conditions = Ret tt w'
    /\ only_start_conditions_differ world_conditions w'
    /\ other_edges 3 w' = other_edges 3 world_conditions
    /\ forall x, In x (preceding_ids 3 w') <-> In x [2; 4].
Proof.
  apply (assign_start_conditions_names_the_given_jobs py_int next_after_max 3
           [mkStartConditionArg (JText "2") "success"; mkStartConditionArg (JInt 4) "fail"]
           [2; 4] world_conditions).
  reflexivity.
Defined.



(** *** With distinct primary keys *)

Lemma NoDup_snoc {A} (l : list A) (a : A) :
  List.NoDup l -> ~ In a l -> List.NoDup (l ++ [a]).
Proof.
  induction l as [|x l IH]; intros Hnd Ha; cbn.
  - constructor; [intros []|constructor].
  - apply List.NoDup_cons_iff in Hnd as [Hx Hnd]. constructor.
    + rewrite in_app_iff. cbn. intros [H|[H|[]]]; [now apply Hx|].
      apply Ha. now left.
    + apply IH; [exact Hnd|]. intros H. apply Ha. now right.
Qed.

Lemma Job_conditions_preceding jid w i c :
  In (i, c) (Job_conditions jid w) -> In i (preceding_ids jid w).
Proof.
  unfold Job_conditions, preceding_ids. intros H.
  apply in_map_iff in H as (r & Hr & Hin). injection Hr as <- _. now apply in_map.
Qed.

Lemma save_row_other sc c r :
  sc_id r <> sc_id sc -> save_row sc c r = r.
Proof. unfold save_row. intros H. destruct (Z.eqb_spec (sc_id r) (sc_id sc)); congruence. Qed.

Lemma save_row_self sc c :
  save_row sc c sc
  = mkStartCondition (sc_id sc) (sc_job_id sc) (sc_preceding_job_id sc) c.
Proof. unfold save_row. now rewrite Z.eqb_refl. Qed.

Lemma start_condition_ids_save sc c w :
  List.map sc_id (start_conditions (set_start_conditions (List.map (save_row sc c)) w))
  = List.map sc_id (start_conditions w).
Proof.
  cbn [start_conditions set_start_conditions]. rewrite List.map_map.
  apply List.map_ext. intros r. apply save_row_id.
Qed.

Lemma other_rows_save jid sc c w :
  In sc (start_conditions w) -> sc_job_id sc = jid ->
  List.NoDup (List.map sc_id (start_conditions w)) ->
  other_rows jid (set_start_conditions (List.map (save_row sc c)) w) = other_rows jid w.
Proof.
  intros Hin Hj Hnd. unfold other_rows. cbn [start_conditions set_start_conditions].
  rewrite filter_map_commute by (intros r; now rewrite save_row_job).
  rewrite <- (List.map_id (List.filter _ (start_conditions w))) at 2.
  apply List.map_ext_in. intros r Hr. apply filter_In in Hr as [Hr Hb].
  apply save_row_other. intros Heq.
  rewrite (NoDup_map_inj sc_id _ r sc Hnd Hr Hin Heq), Hj, Z.eqb_refl in Hb.
  discriminate.
Qed.

Lemma Job_conditions_save jid sc c w :
  In sc (start_conditions w) -> sc_job_id sc = jid ->
  List.NoDup (List.map sc_id (start_conditions w)) ->
  List.NoDup (preceding_ids jid w) ->
  forall i' c',
    In (i', c') (Job_conditions jid (set_start_conditions (List.map (save_row sc c)) w))
    <-> (i' = sc_preceding_job_id sc /\ c' = c)
        \/ (In (i', c') (Job_conditions jid w) /\ i' <> sc_preceding_job_id sc).
Proof.
  intros Hin Hj Hnd Hpre i' c'.
  assert (Hsc : In sc (Job_start_conditions jid w)).
  { apply filter_In. split; [exact Hin|]. now apply Z.eqb_eq. }
  unfold Job_conditions, Job_start_conditions at 1.
  cbn [start_conditions set_start_conditions].
  rewrite filter_map_commute by (intros r; now rewrite save_row_job).
  fold (Job_start_conditions jid w).
  rewrite List.map_map, !in_map_iff. split.
  - intros (r & Hr & Hrin).
    destruct (Z.eq_dec (sc_id r) (sc_id sc)) as [Heq|Hne].
    + left. apply filter_In in Hrin as [Hrin _].
      rewrite (NoDup_map_inj sc_id _ r sc Hnd Hrin Hin Heq), save_row_self in Hr.
      cbn in Hr. now injection Hr as <- <-.
    + right. rewrite (save_row_other _ _ _ Hne) in Hr. split; [now exists r|].
      injection Hr as <- _. intros Heq. apply Hne. f_equal.
      now apply (NoDup_map_inj sc_preceding_job_id _ r sc Hpre).
  - intros [[-> ->]|[(r & Hr & Hrin) Hne]].
    + exists sc. split; [now rewrite save_row_self|exact Hsc].
    + exists r. split; [|exact Hrin]. rewrite save_row_other; [exact Hr|].
      intros Heq. apply Hne. injection Hr as <- _. f_equal.
      apply filter_In in Hrin as [Hrin _].
      now apply (NoDup_map_inj sc_id _ r sc Hnd).
Qed.

Lemma assign_loop_exact next_id jid news inter vs w :
  (forall l, ~ In (next_id l) (List.map sc_id l)) ->
  List.NoDup (List.map fst vs) ->
  List.NoDup (List.map sc_id (start_conditions w)) ->
  List.NoDup (preceding_ids jid w) ->
  (forall v, In v vs ->
     if id_in news (fst v) then ~ In (fst v) (preceding_ids jid w)
     else id_in inter (fst v) = true /\ In (fst v) (preceding_ids jid w)) ->
  exists w',
    for_each vs (assign_step next_id jid news inter) w = Ret tt w'
    /\ only_start_conditions_differ w w'
    /\ other_rows jid w' = other_rows jid w
    /\ List.NoDup (List.map sc_id (start_conditions w'))
    /\ List.NoDup (preceding_ids jid w')
    /\ forall i c, In (i, c) (Job_conditions jid w')
                   <-> In (i, c) vs
                       \/ (In (i, c) (Job_conditions jid w) /\ ~ In i (List.map fst vs)).
Proof.
  intros Hfresh. revert w. induction vs as [|[i0 c0] vs IH]; intros w Hvs Hids Hpre Hall.
  - exists w. split; [reflexivity|]. split; [apply only_start_conditions_differ_refl|].
    repeat (split; [easy|]). cbn. tauto.
  - cbn [List.map fst] in Hvs. apply List.NoDup_cons_iff in Hvs as [Hi0 Hvs].
    pose proof (Hall (i0, c0) (or_introl eq_refl)) as Hv. cbn [fst] in Hv.
    cbn [for_each].
    destruct (assign_step_cases next_id jid news inter (i0, c0) w)
      as [[Hn Hr]|[(Hn & Hi & sc & Hin & Hj & Hp & Hr)|(Hn & Hi & Hr)]];
      cbn [fst snd] in *.
    + intros Hn _. rewrite Hn in Hv. apply Hv.
    + rewrite Hn in Hv.
      match type of Hr with
      | _ = Ret tt ?w1 =>
          destruct (IH w1 Hvs) as (w' & Hr' & Hd' & Ho' & Hids' & Hpre' & Hc')
      end.
      * cbn [start_conditions set_start_conditions]. rewrite List.map_app. cbn.
        apply NoDup_snoc; [exact Hids|apply Hfresh].
      * rewrite preceding_ids_create. now apply NoDup_snoc.
      * intros v Hin. pose proof (Hall v (or_intror Hin)) as Hv'.
        rewrite preceding_ids_create.
        assert (fst v <> i0) by (intros <-; apply Hi0; now apply in_map).
        destruct (id_in news (fst v)); rewrite in_app_iff; cbn; intuition congruence.
      * exists w'. split; [now rewrite (bind_Ret _ _ _ _ _ Hr)|].
        split.
        { eapply only_start_conditions_differ_trans;
            [apply only_start_conditions_differ_set|exact Hd']. }
        split; [now rewrite Ho', other_rows_create|].
        split; [exact Hids'|]. split; [exact Hpre'|].
        intros i c. rewrite Hc', Job_conditions_create, in_app_iff. cbn.
        split.
        -- intros [H|[[H|[H|[]]] Hni]]; [auto| |auto].
           right. split; [exact H|]. intros [<-|Hx]; [|contradiction].
           apply Hv. eapply Job_conditions_preceding, H.
        -- intros [[H|H]|[H Hni]]; [|auto|].
           ++ right. injection H as <- <-. split; [auto|exact Hi0].
           ++ right. split; [auto|]. intros Hx. apply Hni. now right.
    + rewrite Hn in Hv. destruct Hv as [_ Hv].
      match type of Hr with
      | _ = Ret tt ?w1 =>
          destruct (IH w1 Hvs) as (w' & Hr' & Hd' & Ho' & Hids' & Hpre' & Hc')
      end.
      * now rewrite start_condition_ids_save.
      * now rewrite preceding_ids_save.
      * intros v Hv'. rewrite preceding_ids_save. apply Hall. now right.
      * exists w'. split; [now rewrite (bind_Ret _ _ _ _ _ Hr)|].
        split.
        { eapply only_start_conditions_differ_trans;
            [apply only_start_conditions_differ_set|exact Hd']. }
        split; [rewrite Ho'; now apply other_rows_save|].
        split; [exact Hids'|]. split; [exact Hpre'|].
        intros i c. rewrite Hc', (Job_conditions_save jid sc c0 w Hin Hj Hids Hpre).
        rewrite Hp. cbn [In List.map fst]. split.
        -- intros [H|[[[-> ->]|[H Hne]] Hni]]; [auto|auto|].
           right. split; [exact H|]. intros [Hx|Hx]; [congruence|contradiction].
        -- intros [[H|H]|[H Hni]]; [|auto|].
           ++ injection H as <- <-. right. split; [auto|exact Hi0].
           ++ right. split; [right; split; [exact H|]|]; intros Hx; apply Hni; auto.
    + rewrite Hn, Hi in Hv. now destruct Hv.
Qed.

Lemma next_after_max_fresh (l : list StartCondition) :
  ~ In (next_after_max l) (List.map sc_id l).
Proof.
  unfold next_after_max.
  assert (H : forall (ids : list Z) x, In x ids -> x <= fold_right Z.max 0 ids).
  { induction ids as [|a ids IH]; intros x []; cbn.
    - subst. lia.
    - pose proof (IH x H). lia. }
  intros Hin. apply H in Hin. lia.
Qed.

(** X25: When the primary keys are distinct, a new row gets a key that is not in
    use, the job has at most one start condition for each preceding job and
    the values name each job at most once, [Job.assign_start_conditions]
    leaves the job with exactly the given conditions, one for each value,
    and every row of the other jobs as it was. *)
Theorem assign_start_conditions_exact int_text next_id jid args ids w :
  (forall l, ~ In (next_id l) (List.map sc_id l)) ->
  List.map (fun a => int_of_scalar int_text (arg_preceding_job_id a)) args
  = List.map Some ids ->
  List.NoDup ids ->
  List.NoDup (List.map sc_id (start_conditions w)) ->
  List.NoDup (preceding_ids jid w) ->
  exists w',
    Job_assign_start_conditions int_text next_id jid args w = Ret tt w'
    /\ only_start_conditions_differ w w'
    /\ other_rows jid w' = other_rows jid w
    /\ List.NoDup (preceding_ids jid w')
    /\ forall i c, In (i, c) (Job_conditions jid w')
                   <-> In (i, c) (combine ids (List.map arg_condition args)).
Proof.
  intros Hfresh Hp Hnd Hids Hpre.
  pose proof (combine_fst _ _ (parsed_length _ _ _ Hp)) as Hfst.
  destruct (assign_loop_exact next_id jid
              (List.filter (fun i => negb (id_in (preceding_ids jid w) i)) ids)
              (List.filter (id_in (preceding_ids jid w)) ids)
              (combine ids (List.map arg_condition args)) w Hfresh)
    as (w1 & Hr & Hd & Ho & _ & Hpre1 & Hc); [now rewrite Hfst|exact Hids|exact Hpre| |].
  { intros [i c] Hin. cbn [fst]. apply in_combine_l in Hin.
    destruct (id_in (preceding_ids jid w) i) eqn:Hcur.
    - replace (id_in (List.filter _ ids) i) with false.
      + split; apply existsb_id_in; [|exact Hcur]. apply filter_In. now split.
      + symmetry. apply not_true_iff_false. intros H. apply existsb_id_in, filter_In in H.
        rewrite Hcur in H. now destruct H.
    - replace (id_in (List.filter (fun i => negb _) ids) i) with true.
      + intros H. apply existsb_id_in in H. congruence.
      + symmetry. apply existsb_id_in, filter_In. split; [exact Hin|]. now rewrite Hcur. }
  eexists. split; [apply (Job_assign_start_conditions_run _ _ _ _ _ _ _ Hp Hr)|].
  split.
  { eapply only_start_conditions_differ_trans;
      [exact Hd|apply only_start_conditions_differ_set]. }
  split; [now rewrite other_rows_delete|].
  split; [rewrite preceding_ids_delete; now apply List.NoDup_filter|].
  intros i c. rewrite Job_conditions_delete, filter_In, Hc, Hfst. cbn [fst].
  rewrite negb_true_iff, <- not_true_iff_false, existsb_id_in, filter_In,
    negb_true_iff, <- not_true_iff_false, existsb_id_in.
  split.
  - intros [[H|[H Hni]] Hdel]; [exact H|].
    exfalso. apply Hdel. split; [|exact Hni]. eapply Job_conditions_preceding, H.
  - intros H. split; [now left|]. intros [_ Hni]. apply Hni.
    eapply in_combine_l, H.
Qed.

Lemma assign_start_conditions_exact_witness :
  exists w',
    Job_assign_start_conditions py_int next_after_max 3
      [mkStartConditionArg (JText "2") "success"; mkStartConditionArg (JInt 4) "fail"]
      world_conditions = Ret tt w'
    /\ only_start_conditions_differ world_conditions w'
    /\ other_rows 3 w' = other_rows 3 world_conditions
    /\ List.NoDup (preceding_ids 3 w')
    /\ forall i c, In (i, c) (Job_conditions 3 w')
                   <-> In (i, c) [(2, "success"); (4, "fail")].
Proof.
  apply (assign_start_conditions_exact py_int next_after_max 3
           [mkStartConditionArg (JText "2") "success"; mkStartConditionArg (JInt 4) "fail"]
           [2; 4] world_conditions).
  - exact next_after_max_fresh.
  - reflexivity.
  - repeat constructor; cbn; intuition lia.
  - repeat constructor; cbn; intuition lia.
  - repeat constructor; cbn; intuition lia.
Defined.

(** * Properties of the configuration files of [setup] *)

Lemma create_config_file_keeps (src dst : string) (fs : gmap string string)
    (path data : string) :
  fs !! path = Some data ->
  files_of (_create_config_file src dst fs) !! path = Some data.
Proof.
  intros H. unfold _create_config_file, os_path_exists.
  destruct (bool_decide (is_Some (fs !! dst))) eqn:E; cbn [negb]; [exact H|].
  apply bool_decide_eq_false in E. unfold copyfile.
  destruct (String.eqb src dst); [exact H|].
  destruct (fs !! src) as [d|]; [|exact H]. cbn [files_of].
  rewrite lookup_insert_ne; [exact H|].
  intros ->. apply E. now exists data.
Qed.

Lemma create_configs_keeps (dir : string) (configs : list (string * string)) :
  forall (fs : gmap string string) (path data : string),
    fs !! path = Some data ->
    files_of (create_configs dir configs fs) !! path = Some data.
Proof.
  induction configs as [|c configs IH]; intros fs path data H; [exact H|].
  cbn [create_configs].
  pose proof (create_config_file_keeps (os_path_join dir (fst c))
                (os_path_join dir (snd c)) fs path data H) as Hstep.
  destruct (_create_config_file _ _ fs) as [fs'|e fs']; [|exact Hstep].
  now apply IH.
Qed.

Lemma create_config_file_exists (src dst : string) (fs fs' : gmap string string) :
  _create_config_file src dst fs = Done fs' -> is_Some (fs' !! dst).
Proof.
  unfold _create_config_file, os_path_exists.
  destruct (bool_decide (is_Some (fs !! dst))) eqn:E; cbn [negb].
  - apply bool_decide_eq_true in E. now intros [= <-].
  - unfold copyfile. destruct (String.eqb src dst); [discriminate|].
    destruct (fs !! src) as [d|]; [|discriminate]. intros [= <-].
    rewrite lookup_insert_eq. now exists d.
Qed.

Lemma create_config_file_skip (src dst : string) (fs : gmap string string) :
  is_Some (fs !! dst) -> _create_config_file src dst fs = Done fs.
Proof.
  intros H. unfold _create_config_file, os_path_exists.
  now rewrite (bool_decide_eq_true_2 _ H).
Qed.

Lemma create_configs_skip (dir : string) (configs : list (string * string))
    (fs : gmap string string) :
  (forall c, In c configs -> is_Some (fs !! os_path_join dir (snd c))) ->
  create_configs dir configs fs = Done fs.
Proof.
  induction configs as [|c configs IH]; intros H; [reflexivity|].
  cbn [create_configs].
  rewrite (create_config_file_skip _ _ fs (H c (or_introl eq_refl))).
  apply IH. intros c' Hc'. apply H. now right.
Qed.

Lemma create_configs_exist (dir : string) (configs : list (string * string)) :
  forall fs fs',
    create_configs dir configs fs = Done fs' ->
    forall c, In c configs -> is_Some (fs' !! os_path_join dir (snd c)).
Proof.
  induction configs as [|c configs IH]; intros fs fs' H c' Hc'; [destruct Hc'|].
  cbn [create_configs] in H.
  destruct (_create_config_file _ _ fs) as [fs1|e fs1] eqn:E; [|discriminate].
  destruct Hc' as [<-|Hc']; [|now apply (IH fs1)].
  destruct (create_config_file_exists _ _ _ _ E) as [d Hd].
  pose proof (create_configs_keeps dir configs fs1 _ d Hd) as Hk.
  rewrite H in Hk. now exists d.
Qed.

(** X20: [_create_all_configs] never changes a file that is there: whether it
    goes through or stops at an example that is missing, every path that
    held a file holds the same contents afterwards; a config file that the
    developer has edited is not replaced by its example. *)
Theorem create_all_configs_keeps_existing_files
    (PROJECT_DIR : string) (fs : gmap string string) (path data : string) :
  fs !! path = Some data ->
  files_of (_create_all_configs PROJECT_DIR fs) !! path = Some data.
Proof. apply create_configs_keeps. Qed.

Lemma create_all_configs_keeps_existing_files_witness :
  files_of (_create_all_configs "/crmint" checkout_files)
    !! "/crmint/backends/instance/config.py" = Some "mine".
Proof.
  apply (create_all_configs_keeps_existing_files "/crmint" checkout_files).
  reflexivity.
Defined.

(** X21: When [_create_all_configs] goes through, every config file of
    [CONFIG_FILES] is there, and running it again changes nothing. *)
Theorem create_all_configs_is_idempotent
    (PROJECT_DIR : string) (fs fs' : gmap string string) :
  _create_all_configs PROJECT_DIR fs = Done fs' ->
  (forall config, In config CONFIG_FILES ->
                  is_Some (fs' !! os_path_join PROJECT_DIR (snd config)))
  /\ _create_all_configs PROJECT_DIR fs' = Done fs'.
Proof.
  intros H. unfold _create_all_configs in *.
  pose proof (create_configs_exist PROJECT_DIR CONFIG_FILES fs fs' H) as Hex.
  split; [exact Hex|]. now apply create_configs_skip.
Qed.

Lemma create_all_configs_is_idempotent_witness :
  (forall config, In config CONFIG_FILES ->
     is_Some (files_of (_create_all_configs "/crmint" checkout_files)
                !! os_path_join "/crmint" (snd config)))
  /\ _create_all_configs "/crmint"
       (files_of (_create_all_configs "/crmint" checkout_files))
     = Done (files_of (_create_all_configs "/crmint" checkout_files)).
Proof.
  apply (create_all_configs_is_idempotent "/crmint" checkout_files).
  vm_compute. reflexivity.
Defined.
